(** * stubgen.py: the declaration model, the token translator, the repair
    loop and the symbol resolver, embedded and verified.

    Text is modelled as Rocq [string]s, read as sequences of code points
    below 256; the predicates on characters ([is_word], [is_space]) follow
    Python's [str] methods and [re] module on that range. *)

From Stdlib Require Import String Ascii List Bool Arith NArith Lia.
From stdpp Require Import base option list strings gmap.

Local Open Scope list_scope.
Set Warnings "-register-all".

(** ** Characters and text *)

Module Text.

Abbreviation chars := (list ascii).

Definition L (s : string) : chars := list_ascii_of_string s.
Definition S_ (l : chars) : string := string_of_list_ascii l.

Definition code (c : ascii) : N := N_of_ascii c.

Definition in_range (lo hi : N) (c : ascii) : bool :=
  (lo <=? code c)%N && (code c <=? hi)%N.

Definition is_digit (c : ascii) : bool := in_range 48 57 c.
Definition is_upper (c : ascii) : bool := in_range 65 90 c.
Definition is_lower (c : ascii) : bool := in_range 97 122 c.
Definition is_alpha (c : ascii) : bool := is_upper c || is_lower c.

(** [str.isalnum] on the code points 128..255. *)
Definition is_latin1_alnum (c : ascii) : bool :=
  (code c =? 170)%N || (code c =? 178)%N || (code c =? 179)%N ||
  (code c =? 181)%N || (code c =? 185)%N || (code c =? 186)%N ||
  in_range 188 190 c || in_range 192 214 c || in_range 216 246 c ||
  in_range 248 255 c.

(** The class [\w] of the [re] module on [str] patterns. *)
Definition is_word (c : ascii) : bool :=
  is_alpha c || is_digit c || (code c =? 95)%N || is_latin1_alnum c.

(** [str.isspace]: the characters removed by [str.strip()]. *)
Definition is_space (c : ascii) : bool :=
  in_range 9 13 c || in_range 28 32 c || (code c =? 133)%N || (code c =? 160)%N.

Definition eqc (a b : ascii) : bool := Ascii.eqb a b.

Fixpoint starts_with (p s : chars) : bool :=
  match p, s with
  | [], _ => true
  | a :: p', b :: s' => eqc a b && starts_with p' s'
  | _ :: _, [] => false
  end.

Definition ends_with (p s : chars) : bool := starts_with (rev p) (rev s).

(** [sub in s] for a non-empty [sub]. *)
Fixpoint contains (sub s : chars) : bool :=
  starts_with sub s ||
  match s with
  | [] => false
  | _ :: s' => contains sub s'
  end.

Fixpoint lstrip (s : chars) : chars :=
  match s with
  | c :: s' => if is_space c then lstrip s' else s
  | [] => []
  end.

Definition rstrip (s : chars) : chars := rev (lstrip (rev s)).

(** [s.strip()] *)
Definition strip (s : chars) : chars := rstrip (lstrip s).

(** [s.replace(old, new)] for a non-empty [old]: occurrences are replaced
    from the left and do not overlap; [skip] counts the characters of the
    occurrence being replaced that are still to be passed over. *)
Fixpoint replace_from (old new : chars) (skip : nat) (s : chars) : chars :=
  match s with
  | [] => []
  | c :: s' =>
      match skip with
      | S n => replace_from old new n s'
      | O =>
          if starts_with old s
          then new ++ replace_from old new (length old - 1) s'
          else c :: replace_from old new 0 s'
      end
  end.

Definition replace (old new s : chars) : chars := replace_from old new 0 s.

(** [s.partition(sep)] for a one-character separator: the text before the
    first separator, whether one was found, and the text after it. *)
Fixpoint partition (sep : ascii) (s : chars) : chars * bool * chars :=
  match s with
  | [] => ([], false, [])
  | c :: s' =>
      if eqc c sep then ([], true, s')
      else let '(a, f, b) := partition sep s' in (c :: a, f, b)
  end.

End Text.

(** ** Regular expressions, with the matching discipline of Python's [re]:
    a backtracking matcher that tries alternatives from the left and
    repetitions greedily. *)

Module Re.
Import Text.

Inductive regex : Type :=
| Eps                                   (* the empty pattern *)
| Lit (c : ascii)                       (* a literal character *)
| Cls (f : ascii -> bool)               (* a character class, [.] included *)
| Seq (r1 r2 : regex)                   (* r1r2 *)
| Alt (r1 r2 : regex)                   (* r1|r2 *)
| Star (r : regex)                      (* r*, greedy *)
| Group (name : string) (r : regex)     (* (?P<name>r) *)
| WordB                                 (* \b *)
| Bol.                                  (* ^ *)

Definition Plus (r : regex) : regex := Seq r (Star r).
Definition Opt (r : regex) : regex := Alt r Eps.
Definition Dot : regex := Cls (fun c => negb (eqc c "010"%char)).

Fixpoint Str_ (l : chars) : regex :=
  match l with
  | [] => Eps
  | [c] => Lit c
  | c :: l' => Seq (Lit c) (Str_ l')
  end.
Definition Str (s : string) : regex := Str_ (L s).

Fixpoint Seqs (rs : list regex) : regex :=
  match rs with
  | [] => Eps
  | [r] => r
  | r :: rs' => Seq r (Seqs rs')
  end.

Fixpoint Alts (rs : list regex) : regex :=
  match rs with
  | [] => Eps
  | [r] => r
  | r :: rs' => Alt r (Alts rs')
  end.

Definition captures := list (string * chars).

Definition word_before (prev : option ascii) : bool :=
  match prev with Some c => is_word c | None => false end.
Definition word_after (s : chars) : bool :=
  match s with c :: _ => is_word c | [] => false end.

Section Matcher.
Context {R : Type}.

(** [rmatch r prev s caps k]: match [r] at the head of [s], where [prev]
    is the character before it in the subject ([None] at its start),
    then hand the rest to [k]; [None] when every way of matching fails. *)
Fixpoint rmatch (r : regex) (prev : option ascii) (s : chars) (caps : captures)
    (k : option ascii -> chars -> captures -> option R) {struct r} : option R :=
  match r with
  | Eps => k prev s caps
  | Lit c =>
      match s with
      | x :: s' => if eqc x c then k (Some x) s' caps else None
      | [] => None
      end
  | Cls f =>
      match s with
      | x :: s' => if f x then k (Some x) s' caps else None
      | [] => None
      end
  | Seq r1 r2 =>
      rmatch r1 prev s caps (fun p s' c => rmatch r2 p s' c k)
  | Alt r1 r2 =>
      match rmatch r1 prev s caps k with
      | Some x => Some x
      | None => rmatch r2 prev s caps k
      end
  | Star r1 =>
      (fix loop (n : nat) (prev : option ascii) (s : chars) (caps : captures)
         {struct n} : option R :=
         match n with
         | O => k prev s caps
         | S n' =>
             match rmatch r1 prev s caps
                     (fun p s' c =>
                        if length s' <? length s then loop n' p s' c else None) with
             | Some x => Some x
             | None => k prev s caps
             end
         end) (length s) prev s caps
  | Group name r1 =>
      rmatch r1 prev s caps
        (fun p s' c => k p s' ((name, take (length s - length s') s) :: c))
  | WordB =>
      if xorb (word_before prev) (word_after s) then k prev s caps else None
  | Bol =>
      match prev with
      | None => k prev s caps
      | Some _ => None
      end
  end.
End Matcher.

(** The first match of [r] at the head of [s]: its length and captures. *)
Definition match_at (r : regex) (prev : option ascii) (s : chars)
    : option (nat * captures) :=
  rmatch r prev s [] (fun _ s' c => Some (length s - length s', c)).

(** [re.match(r, s)]: the named groups of a match at the start of [s]. *)
Definition re_match (r : regex) (s : chars) : option captures :=
  snd <$> match_at r None s.

Fixpoint group (name : string) (c : captures) : chars :=
  match c with
  | [] => []
  | (n, v) :: c' => if String.eqb n name then v else group name c'
  end.

(** [re.sub(r, repl, s)] for a literal replacement: scan from the left,
    replace each match and go on after it; [skip] counts the characters of
    the current match still to be passed over. An empty match inserts
    [repl] and copies one character. *)
Fixpoint sub_from (r : regex) (repl : chars) (skip : nat) (prev : option ascii)
    (s : chars) : chars :=
  match skip, s with
  | S n, c :: s' => sub_from r repl n (Some c) s'
  | S _, [] => []
  | O, [] =>
      match match_at r prev [] with
      | Some _ => repl
      | None => []
      end
  | O, c :: s' =>
      match match_at r prev s with
      | Some (S n, _) => repl ++ sub_from r repl n (Some c) s'
      | Some (O, _) => repl ++ c :: sub_from r repl 0 (Some c) s'
      | None => c :: sub_from r repl 0 (Some c) s'
      end
  end.

Definition re_sub (r : regex) (repl s : chars) : chars := sub_from r repl 0 None s.

End Re.

(** ** The token translator *)

Import Text Re.

Definition sub (r : regex) (repl : string) (s : chars) : chars := re_sub r (L repl) s.
Definition repl (old new : string) (s : chars) : chars := replace (L old) (L new) s.

Definition sp : regex := Lit " "%char.
Definition digit : regex := Cls is_digit.

(** Line 559: a word boundary, an optional [const] with spaces, [char],
    spaces and a star. *)
Definition re_char_ptr : regex :=
  Seqs [WordB; Opt (Seq (Str "const") (Plus sp)); Str "char"; Plus sp; Lit "*"%char].
(** Line 562: the word [const] or [constexpr]. *)
Definition re_const : regex := Seqs [WordB; Str "const"; Opt (Str "expr"); WordB].
(** Line 563: the word [volatile]. *)
Definition re_volatile : regex := Seqs [WordB; Str "volatile"; WordB].
(** Line 565: the word [void]. *)
Definition re_void : regex := Seqs [WordB; Str "void"; WordB].
(** Line 566: [int] or [uint], digits, an optional [_t], as a word. *)
Definition re_intN : regex :=
  Seqs [WordB; Opt (Lit "u"%char); Str "int"; Plus digit; Opt (Str "_t"); WordB].
(** Line 567: the word [unsigned]. *)
Definition re_unsigned : regex := Seqs [WordB; Str "unsigned"; WordB].
(** Line 568: one or more of the words [int], [short], [long], [byte],
    [char], each after any number of spaces, between word boundaries. *)
Definition re_ints : regex :=
  Seqs [WordB;
        Plus (Seq (Star sp)
                  (Alts [Str "int"; Str "short"; Str "long"; Str "byte"; Str "char"]));
        WordB].
(** Line 569: the word [double]. *)
Definition re_double : regex := Seqs [WordB; Str "double"; WordB].
(** Lines 570-573: [string], [vector], [pair], [map] or [unordered_map],
    each with an optional [std.] in front. *)
Definition re_string : regex := Seqs [WordB; Opt (Str "std."); Str "string"; WordB].
Definition re_vector : regex := Seqs [WordB; Opt (Str "std."); Str "vector"; WordB].
Definition re_pair : regex := Seqs [WordB; Opt (Str "std."); Str "pair"; WordB].
Definition re_map : regex :=
  Seqs [WordB; Opt (Str "std."); Opt (Str "unordered_"); Str "map"; WordB].
(** Lines 575-578: the words [true], [false], [nullptr], [NULL]. *)
Definition re_true : regex := Seqs [WordB; Str "true"; WordB].
Definition re_false : regex := Seqs [WordB; Str "false"; WordB].
Definition re_nullptr : regex := Seqs [WordB; Str "nullptr"; WordB].
Definition re_NULL : regex := Seqs [WordB; Str "NULL"; WordB].
(** Lines 580-581: [class] or [typename] at the very start, as a word. *)
Definition re_class : regex := Seqs [Bol; Str "class"; WordB].
Definition re_typename : regex := Seqs [Bol; Str "typename"; WordB].

(** Lines 559-563: the char-pointer rule, the punctuation rewriting and the
    removal of qualifiers. *)
Definition simple_parse_head (name : chars) : chars :=
  let name := sub re_char_ptr "str" name in
  let name := strip (repl "..." "" (repl "*" "" (repl "&" ""
                (repl ">" "]" (repl "<" "[" (repl "::" "." name)))))) in
  let name := sub re_const "" name in
  sub re_volatile "" name.

(** Lines 566-583: the rules after the [void] rule, and the final strip. *)
Definition simple_parse_tail (name : chars) : chars :=
  let name := sub re_intN "int" name in
  let name := sub re_unsigned "" name in
  let name := sub re_ints " int" name in
  let name := sub re_double "float" name in
  let name := sub re_string "str" name in
  let name := sub re_vector "List" name in
  let name := sub re_pair "Tuple" name in
  let name := sub re_map "Dict" name in
  let name := sub re_true "True" name in
  let name := sub re_false "False" name in
  let name := sub re_nullptr "None" name in
  let name := sub re_NULL "None" name in
  let name := sub re_class "" name in
  let name := sub re_typename "" name in
  strip name.

Definition simple_parse_chars (orig_name : chars) : chars :=
  match orig_name with
  | [] => []
  | _ => simple_parse_tail (sub re_void "None" (simple_parse_head orig_name))
  end.

(** [simple_parse(orig_name)] on a string. *)
Definition simple_parse (orig_name : string) : string :=
  S_ (simple_parse_chars (L orig_name)).

(** [simple_parse(x)] where [x] may be [None] (an absent text node). *)
Definition simple_parse_opt (orig_name : option string) : string :=
  match orig_name with
  | None => ""
  | Some s => simple_parse s
  end.


(** ** The markup tree (lxml's [etree._Element]) *)

Inductive Element : Type :=
  mkElement (tag : string) (attrib : list (string * string)) (text : option string)
            (children : list Element) (tail : option string).

Definition tag (e : Element) : string := let 'mkElement t _ _ _ _ := e in t.
Definition attrib (e : Element) : list (string * string) := let 'mkElement _ a _ _ _ := e in a.
Definition text (e : Element) : option string := let 'mkElement _ _ t _ _ := e in t.
Definition children (e : Element) : list Element := let 'mkElement _ _ _ c _ := e in c.
Definition tail (e : Element) : option string := let 'mkElement _ _ _ _ t := e in t.

(** [xml.attrib.get(key, default)] *)
Fixpoint attrib_get (a : list (string * string)) (key default : string) : string :=
  match a with
  | [] => default
  | (k, v) :: a' => if String.eqb k key then v else attrib_get a' key default
  end.

(** [xml.find(tag)]: the first child with that tag. *)
Definition find (name : string) (e : Element) : option Element :=
  List.find (fun c => String.eqb (tag c) name) (children e).

(** [xml.iterfind(tag)] and [xml.iterchildren(tag)] *)
Definition iterfind (name : string) (e : Element) : list Element :=
  List.filter (fun c => String.eqb (tag c) name) (children e).

(** [xml.itertext()]: the text nodes below [e], in document order. *)
Fixpoint itertext (e : Element) : list string :=
  match e with
  | mkElement _ _ t cs _ =>
      option_list t ++ flat_map (fun c => itertext c ++ option_list (tail c)) cs
  end.

(** ** String helpers at the level of [string] *)

Definition dquote : string := String "034"%char "".
Definition tab : string := String "009"%char "".
Definition nl : string := String "010"%char "".

Definition nonempty (s : string) : bool := negb (String.eqb s "").
Definition is_nil {A : Type} (l : list A) : bool :=
  match l with [] => true | _ :: _ => false end.
Definition startswith (s p : string) : bool := starts_with (L p) (L s).
Definition endswith (s p : string) : bool := ends_with (L p) (L s).
Definition str_in (sub s : string) : bool := contains (L sub) (L s).
Definition str_replace (old new s : string) : string := S_ (replace (L old) (L new) (L s)).
Definition str_strip (s : string) : string := S_ (strip (L s)).
Definition join (sep : string) (l : list string) : string := String.concat sep l.

(** ** Instances as registries and references hold them

    A registry, a [container] and a [target] hold instances. Of an instance
    of a declaration class ([Param], [Template], [Function], [Variable],
    [Enum], [Class]) the code reads what the base class's [qualname] property
    looks at: the class, the entry ["qualname"] of its [__dict__] (set by
    [Enum] and [Class]), its [container] and its [name]; such an instance is
    [mkParsedElement]. None of these classes defines [__bool__], so that such
    an instance is truthy. An instance of [Type] is entered into [INSTANCES]
    by line 479 when its node carries an [id]; of it the code also reads what
    [Type.__bool__] looks at, its parts, its override and its target: such an
    instance is [TypeInstance], with the state it is in when it is read.

    A type expression ([Type]) has a markup node, an override, parts and a
    target; a part is a translated token string or a nested type
    expression. A state is a finite tree here: a chain of targets that
    leads back to the expression it starts from, on which [__bool__] does not
    return, is not a value of [Type_]. *)

Inductive ParsedElement : Type :=
  | mkParsedElement (class_name : string) (dict_qualname : option string)
                    (container : option ParsedElement) (name : option string)
  | TypeInstance (t : Type_)
with Type_ : Type :=
  mkType (xml : option Element) (override : string) (parts : list Part)
         (target : option ParsedElement)
with Part : Type :=
  | PStr (s : string)
  | PType (t : Type_).

Definition class_name (e : ParsedElement) : string :=
  match e with
  | mkParsedElement c _ _ _ => c
  | TypeInstance _ => "Type"
  end.
(** A [Type] has no entry ["qualname"] in its [__dict__], no [name], and its
    [container] is [None] (lines 35 and 474). *)
Definition dict_qualname (e : ParsedElement) : option string :=
  match e with
  | mkParsedElement _ q _ _ => q
  | TypeInstance _ => None
  end.
Definition container (e : ParsedElement) : option ParsedElement :=
  match e with
  | mkParsedElement _ _ c _ => c
  | TypeInstance _ => None
  end.
Definition name (e : ParsedElement) : option string :=
  match e with
  | mkParsedElement _ _ _ n => n
  | TypeInstance _ => None
  end.

(** [name or "???"] *)
Definition name_or_placeholder (n : option string) : string :=
  match n with
  | Some s => if nonempty s then s else "???"
  | None => "???"
  end.

(** The property [ParsedElement.qualname] (lines 46-55). [hasattr] of a
    [container] that is an instance always succeeds, of [None] never. *)
Fixpoint qualname (e : ParsedElement) : string :=
  match e with
  | mkParsedElement _ (Some q) _ _ => q
  | mkParsedElement _ None (Some c) (Some n) => qualname c +:+ "." +:+ n
  | mkParsedElement _ None _ n => name_or_placeholder n
  | TypeInstance _ => "???"
  end.

(** Whether reading [qualname] prints the line "doesn't know its
    qualname/containing namespace!" for [e] itself (line 53-54). *)
Definition qualname_unknown (e : ParsedElement) : bool :=
  match e with
  | mkParsedElement _ (Some _) _ _ => false
  | mkParsedElement _ None (Some _) (Some _) => false
  | mkParsedElement _ None _ n =>
      match n with
      | Some s => negb (nonempty s) || negb (startswith s "ogdf")
      | None => true
      end
  | TypeInstance _ => true
  end.

(** [ParsedElement.__init__] (lines 23-35): what it leaves in [container]
    and [brief]. The last statement resets [container] to [None]. *)
Definition splitlines_brk (c : ascii) : bool :=
  in_range 10 13 c || in_range 28 30 c || (code c =? 133)%N.

Fixpoint splitlines_go (cur : chars) (after_cr : bool) (s : chars) : list chars :=
  match s with
  | [] => match cur with [] => [] | _ => [rev cur] end
  | c :: s' =>
      if eqc c "010"%char && after_cr then splitlines_go cur false s'
      else if splitlines_brk c then rev cur :: splitlines_go [] (eqc c "013"%char) s'
      else splitlines_go (c :: cur) false s'
  end.

(** [s.splitlines()] *)
Definition splitlines (s : string) : list string := S_ <$> splitlines_go [] false (L s).

Definition brief_of (xml : Element) : option string :=
  match find "briefdescription" xml with
  | Some b =>
      let joined := join "" (str_strip <$> itertext b) in
      Some (join " " (str_strip <$> splitlines joined))
  | None => None
  end.

Record Base : Type := mkBase {
  base_xml : option Element;
  base_container : option ParsedElement;
  base_brief : option string   (* [None]: the attribute [brief] is not set *)
}.

Definition ParsedElement_init (xml : Element) (container : option ParsedElement) : Base :=
  let self_container := container in          (* line 25 *)
  let self_brief := brief_of xml in           (* lines 28-31 *)
  let self_container := @None ParsedElement in (* line 35 *)
  {| base_xml := Some xml; base_container := self_container; base_brief := self_brief |}.

(** Lines 32-34: the instance is entered into [INSTANCES] under its id, when
    it has one. *)
Definition register_instance (xml : Element) (self : ParsedElement)
    (INSTANCES : gmap string ParsedElement) : gmap string ParsedElement :=
  let id := attrib_get (attrib xml) "id" "" in
  if nonempty id then <[id := self]> INSTANCES else INSTANCES.

(** ** Type expressions (class [Type]) *)

Definition t_xml (t : Type_) : option Element := let 'mkType x _ _ _ := t in x.
Definition override (t : Type_) : string := let 'mkType _ o _ _ := t in o.
Definition parts (t : Type_) : list Part := let 'mkType _ _ p _ := t in p.
Definition target (t : Type_) : option ParsedElement := let 'mkType _ _ _ g := t in g.

Definition set_parts (t : Type_) (p : list Part) : Type_ :=
  mkType (t_xml t) (override t) p (target t).
Definition set_target (t : Type_) (g : option ParsedElement) : Type_ :=
  mkType (t_xml t) (override t) (parts t) g.

(** A [Type] instance as a registry or a reference holds it. *)
Definition Type_element (t : Type_) : ParsedElement := TypeInstance t.

(** [Type.__bool__] (line 536), and [bool(e)] of an instance [e]: the
    [__bool__] of its class when that is [Type], and [True] otherwise. *)
Fixpoint Type_bool (t : Type_) : bool :=
  match t with
  | mkType _ o ps g =>
      negb (is_nil ps) || nonempty o ||
      match g with
      | Some e => ParsedElement_bool e
      | None => false
      end
  end
with ParsedElement_bool (e : ParsedElement) : bool :=
  match e with
  | mkParsedElement _ _ _ _ => true
  | TypeInstance t => Type_bool t
  end.

(** [bool(self.target)], where [self.target] may be [None]. *)
Definition target_bool (g : option ParsedElement) : bool :=
  match g with
  | Some e => ParsedElement_bool e
  | None => false
  end.

(** [Type.__str__] (lines 538-545) *)
Fixpoint Type_str (t : Type_) : string :=
  match t with
  | mkType _ o ps g =>
      if nonempty o then o
      else if target_bool g then
        match g with
        | Some e => qualname e
        | None => "Any"
        end
      else
        match ps with
        | [] => "Any"
        | _ => join "" (map (fun p => match p with
                                      | PStr s => s
                                      | PType t' => Type_str t'
                                      end) ps)
        end
  end.

Definition Part_str (p : Part) : string :=
  match p with
  | PStr s => s
  | PType t => Type_str t
  end.

(** Truthiness of a part, as tested by the filter of line 485. *)
Definition Part_bool (p : Part) : bool :=
  match p with
  | PStr s => nonempty s
  | PType t => Type_bool t
  end.

(** Line 490: an optional [std.], [conditional], spaces, a bracket, three
    greedy comma-separated fields of which the last two are the groups
    [true] and [false], a closing bracket and [.type]. *)
Definition re_conditional : regex :=
  Seqs [Opt (Str "std."); Str "conditional"; Star sp; Lit "["%char; Star Dot;
        Lit ","%char; Group "true" (Star Dot); Lit ","%char; Group "false" (Star Dot);
        Str "].type"].
(** Line 493: the same shape for [enable_if], with two fields of which the
    last is the group [true]. *)
Definition re_enable_if : regex :=
  Seqs [Opt (Str "std."); Str "enable_if"; Star sp; Lit "["%char; Star Dot;
        Lit ","%char; Group "true" (Star Dot); Str "].type"].

(** Lines 489-499: the idioms recognised in the assembled text [t]. *)
Definition type_override (t : string) : string :=
  let o := "" in
  let o := match re_match re_conditional (L t) with
           | Some c => "Union[" +:+ simple_parse (S_ (group "true" c)) +:+ ", "
                       +:+ simple_parse (S_ (group "false" c)) +:+ "]"
           | None => o
           end in
  let o := match re_match re_enable_if (L t) with
           | Some c => "Annotated[" +:+ S_ (group "true" c) +:+ ", " +:+ dquote
                       +:+ str_replace dquote "'" t +:+ dquote +:+ "]"
           | None => o
           end in
  let o := if startswith t "std.function" || startswith t "function"
           then "Callable" else o in
  let o := if str_in "-" t || str_in "@" t || endswith t "."
           then "WTF_TYPE[" +:+ dquote +:+ str_replace dquote "'" t +:+ dquote +:+ "]"
           else o in
  o.

(** [Type.__init__] on a markup node (lines 477-499). *)
Fixpoint Type_of (xml : Element) : Type_ :=
  match xml with
  | mkElement _ _ txt cs _ =>
      let ps := PStr (simple_parse_opt txt)
                :: flat_map (fun c => [PType (Type_of c); PStr (simple_parse_opt (tail c))]) cs in
      let ps := List.filter Part_bool ps in
      let t := join "" (map Part_str ps) in
      mkType (Some xml) (type_override t) ps None
  end.

(** [Type(xml, container)], where [xml] may be [None] (lines 468-475). *)
Definition Type_init (xml : option Element) : Type_ :=
  match xml with
  | None => mkType None "" [] None
  | Some x => Type_of x
  end.

(** [Type.is_empty] (lines 501-511) *)
Definition Type_is_empty (t : Type_) : bool :=
  match t_xml t with
  | None => true
  | Some x =>
      if negb (is_nil (attrib x)) then false
      else if negb (is_nil (children x)) then false
      else match text x with
           | Some s => negb (nonempty (str_strip s))
           | None => true
           end
  end.

(** ** Resolution against the two registries

    [INSTANCES] and [NAMESPACE] give every instance in the state in which
    [resolve] finds it when it reads the registry. *)

Section Resolve.
Variable INSTANCES : gmap string ParsedElement.
Variable NAMESPACE : gmap string ParsedElement.

(** [getattr(p, "qualname", None)] for a part [p]: a string has none. *)
Definition Part_qualname (p : Part) : option string :=
  match p with
  | PStr _ => None
  | PType t => Some (qualname (Type_element t))
  end.

(** Lines 519-523, on the parts already resolved: the entry of
    [INSTANCES] under the node's [refid], [None] when there is none; when
    that is falsy and there is a part, the entry of [NAMESPACE] under the
    [qualname] read off the first part, when there is one. *)
Definition bind_target (x : Element) (ps : list Part) : option ParsedElement :=
  let target := INSTANCES !! attrib_get (attrib x) "refid" "" in
  if negb (target_bool target) && negb (is_nil ps) then
    match head ps ≫= Part_qualname with
    | Some qn =>
        match NAMESPACE !! qn with
        | Some e => Some e
        | None => target
        end
    | None => target
    end
  else target.

(** [Type.resolve] (lines 513-523) *)
Fixpoint Type_resolve (t : Type_) : Type_ :=
  match t with
  | mkType x o ps g =>
      if Type_is_empty (mkType x o ps g) then mkType x o ps g
      else
        let ps' := map (fun p => match p with
                                 | PStr s => PStr s
                                 | PType t' => PType (Type_resolve t')
                                 end) ps in
        match x with
        | Some x' => mkType x o ps' (bind_target x' ps')
        | None => mkType x o ps g
        end
  end.

Definition Part_resolve (p : Part) : Part :=
  match p with
  | PStr s => PStr s
  | PType t => PType (Type_resolve t)
  end.

(** [Type.is_resolvable] (lines 525-533): the answer and the state the
    probe leaves behind. The nested probe runs on the part as resolved by
    the enclosing [resolve]; [fuel] bounds the nesting. *)
Fixpoint is_resolvable_fuel (fuel : nat) (t : Type_) : option (bool * Type_) :=
  match fuel with
  | O => None
  | S fuel' =>
      let t1 := Type_resolve t in
      match target t1 with
      | Some _ => Some (true, t1)
      | None =>
          match parts t1 with
          | PType p :: rest =>
              match is_resolvable_fuel fuel' p with
              | Some (b, p') => Some (b, set_parts t1 (PType p' :: rest))
              | None => None
              end
          | _ => Some (false, t1)
          end
      end
  end.

End Resolve.

Fixpoint Type_depth (t : Type_) : nat :=
  match t with
  | mkType _ _ ps _ =>
      S (list_max (map (fun p => match p with
                                 | PStr _ => 0
                                 | PType t' => Type_depth t'
                                 end) ps))
  end.

Definition Type_is_resolvable (INSTANCES NAMESPACE : gmap string ParsedElement) (t : Type_)
    : option (bool * Type_) :=
  is_resolvable_fuel INSTANCES NAMESPACE (Type_depth t) t.

(** [type_parse] (line 587) *)
Definition type_parse (orig_name : option Element) : string :=
  Type_str (Type_init orig_name).


(** ** Exceptions and results *)

Record exn : Type := mkExn { exn_class : string; exn_msg : string }.

Inductive result (A : Type) : Type :=
| Ok (a : A)
| Raise (e : exn).
Arguments Ok {A} a.
Arguments Raise {A} e.

Global Instance result_ret : MRet result := fun A a => Ok a.
Global Instance result_bind : MBind result := fun A B f r =>
  match r with
  | Ok a => f a
  | Raise e => Raise e
  end.

Definition AttributeError (cls attr : string) : exn :=
  mkExn "AttributeError" ("'" +:+ cls +:+ "' object has no attribute '" +:+ attr +:+ "'").
Definition KeyError (key : string) : exn := mkExn "KeyError" ("'" +:+ key +:+ "'").

(** [node.text] of the result of [xml.find(tag)]; [find] gives [None] when
    there is no such child, and reading [text] of [None] raises. A node
    without text gives the name [None], with which the code goes on until it
    raises: at [strip] (lines 153 and 317), or in the repair loop, where the
    rendering with that name fails (line 120) or is refused, as [ast.parse]
    refuses to define or assign [None], and [fix1] (lines 110 and 294) or
    [fix2] (line 250) then raises on it. Names are strings here, and the
    exception is raised where the name is read: it stands for the one that
    the constructor ends with. *)
Definition find_text (tg : string) (xml : Element) : result string :=
  match find tg xml with
  | None => Raise (AttributeError "NoneType" "text")
  | Some n =>
      match text n with
      | Some s => Ok s
      | None => Raise (mkExn "Unmodelled" ("empty <" +:+ tg +:+ ">"))
      end
  end.

(** [self.brief]: the attribute is set only for a node with a
    [briefdescription] child. *)
Definition get_brief (cls : string) (b : Base) : result string :=
  match base_brief b with
  | Some s => Ok s
  | None => Raise (AttributeError cls "brief")
  end.

(** [re.sub("[^a-zA-Z]", "", name[1:])] (lines 262 and 297) *)
Definition strip_non_alpha (name : string) : string :=
  S_ (re_sub (Cls (fun c => negb (is_alpha c))) [] (List.tl (L name))).

(** [textwrap.indent(text, prefix)]: the prefix goes before every line that
    is not blank. *)
Fixpoint splitlines_keep (cur : chars) (after_cr : bool) (s : chars) : list chars :=
  match s with
  | [] => match cur with [] => [] | _ => [rev cur] end
  | c :: s' =>
      if after_cr then
        if eqc c "010"%char then rev (c :: cur) :: splitlines_keep [] false s'
        else if eqc c "013"%char then rev cur :: splitlines_keep [c] true s'
        else if splitlines_brk c then rev cur :: [c] :: splitlines_keep [] false s'
        else rev cur :: splitlines_keep [c] false s'
      else if eqc c "013"%char then splitlines_keep (c :: cur) true s'
      else if splitlines_brk c then rev (c :: cur) :: splitlines_keep [] false s'
      else splitlines_keep (c :: cur) false s'
  end.

Definition indent (txt prefix : string) : string :=
  join "" ((fun line => if is_nil (strip line) then S_ line else prefix +:+ S_ line)
             <$> splitlines_keep [] false (L txt)).

(** ** Parameters (class [Param]) *)

Record Param : Type := mkParam {
  param_base : Base;
  param_name : string;
  param_type : Type_;
  param_default : option string
}.

(** [parse_default] (lines 548-552) *)
Definition parse_default (xml : Element) : string :=
  let val := join "" (simple_parse <$> itertext xml) in
  if str_in "[[" val && negb (str_in "]" val) then str_replace "[[" "<<" val else val.

Definition truthy (o : option string) : bool :=
  match o with
  | Some s => nonempty s
  | None => false
  end.

(** [Param.__str__] (lines 112-120) *)
Definition Param_str (self : Param) : string :=
  let parts := [param_name self] in
  let parts := if Type_bool (param_type self)
               then parts ++ [":"; Type_str (param_type self)] else parts in
  let parts := if truthy (param_default self)
               then parts ++ ["="; default "" (param_default self)] else parts in
  join " " parts.

Definition Param_fix1 (self : Param) : Param :=
  mkParam (param_base self) ("_" +:+ param_name self) (param_type self) (param_default self).

(** [Param.__init__] up to the call of [check] (lines 88-102). *)
Definition Param_new (xml : Element) (container : option ParsedElement) : result Param :=
  let base := ParsedElement_init xml container in
  nm ← match find "declname" xml with
        | Some _ => find_text "declname" xml
        | None => Ok "_"
        end;
  let ty := Type_init (find "type" xml) in
  let dflt := match find "defval" xml with
              | Some defval =>
                  if startswith (Type_str ty) "Callable" then Some "print"
                  else Some (parse_default defval)
              | None => None
              end in
  Ok (mkParam base nm ty dflt).

(** ** Template parameters (class [Template]) *)

Record Template : Type := mkTemplate {
  templ_base : Base;
  templ_name : string;
  templ_ignore : bool
}.

(** [Template.__str__] (lines 161-165) *)
Definition Template_str (self : Template) : string :=
  if templ_ignore self then "# " +:+ templ_name self
  else templ_name self +:+ " = TypeVar('" +:+ templ_name self +:+ "')".

Definition Template_fix1 (self : Template) : Template :=
  mkTemplate (templ_base self) ("_" +:+ templ_name self) (templ_ignore self).

Definition text_to_strip (e : Element) : result string :=
  match text e with
  | Some s => Ok s
  | None => Raise (AttributeError "NoneType" "strip")
  end.

(** [Template.__init__] up to the call of [check] (lines 140-154). *)
Definition Template_new (xml : Element) (container : option ParsedElement) : result Template :=
  let base := ParsedElement_init xml container in
  nm ← match find "declname" xml with
        | Some elem => text_to_strip elem
        | None =>
            let elem := default xml (find "type" xml) in
            let '(pre, _, suf) := partition " "%char (strip (L (join "" (itertext elem)))) in
            if String.eqb (S_ pre) "class" || String.eqb (S_ pre) "typename"
            then Ok (S_ suf)
            else text_to_strip elem
        end;
  let nm := str_strip nm in
  Ok (mkTemplate base nm (str_in "enable_if" nm)).

(** ** The repair loop ([ParsedElement.check], lines 64-83)

    What [check] needs of the class of [self]: its name, the attributes read
    by [qualname], its rendering [str(self)], which may raise, and the
    methods [fix1], [fix2], ... it defines, looked up by number. A class
    defines finitely many of them. *)

Class PyClass (A : Type) : Type := {
  type_name : string;
  element : A -> ParsedElement;
  py_str : A -> result string;
  fixN : nat -> option (A -> A);
  max_fix : nat;
  fixN_bound : forall i, max_fix < i -> fixN i = None
}.

Inductive outcome (A : Type) : Type :=
| Passed (self : A) (stderr : list string)
    (* the loop was left by [break] *)
| Failed (self : A) (attempt : nat) (e : exn) (stderr : list string).
    (* [e] propagates out of [check], raised in attempt number [attempt] *)
Arguments Passed {A} self stderr.
Arguments Failed {A} self attempt e stderr.

Section Check.
(** [ast.parse(val)] under [warnings.catch_warnings(record=True)]: it
    raises, or returns with the recorded warnings (as text). *)
Variable ast_parse : string -> result (list string).

Context {A : Type} `{PyClass A}.

(** Reading [self.qualname] while formatting a diagnostic: what is printed
    meanwhile, and the value or the exception. The line of 54 renders
    [self], which may raise. *)
Definition read_qualname (self : A) : list string * result string :=
  let e := element self in
  if qualname_unknown e then
    match py_str self with
    | Ok s => ([type_name +:+ " " +:+ s
                  +:+ " doesn't know its qualname/containing namespace!"],
               Ok (qualname e))
    | Raise x => ([], Raise x)
    end
  else ([], Ok (qualname e)).

(** Lines 71-75: the lines printed when warnings were recorded. *)
Definition report_warnings (self : A) (val : string) (ws : list string)
    : list string * result unit :=
  match ws with
  | [] => ([], Ok ())
  | _ =>
      match read_qualname self with
      | (out, Ok qn) =>
          (out ++ [type_name +:+ " '" +:+ qn +:+ "':" +:+ indent (join nl ws) " - ";
                   indent val tab], Ok ())
      | (out, Raise x) => (out, Raise x)
      end
  end.

(** Lines 68-75, the body of [try]: the rendering if it was produced, and
    either what was printed or the exception caught. *)
Definition attempt (self : A) : option string * (list string * result unit) :=
  match py_str self with
  | Raise e => (None, ([], Raise e))
  | Ok val =>
      match ast_parse val with
      | Raise e => (Some val, ([], Raise e))
      | Ok ws => (Some val, report_warnings self val ws)
      end
  end.

(** Lines 81-83: no strategy is left; the diagnostic and the raw rendering
    are printed ([None] when there is none) and [e] is raised again. *)
Definition surface_failure (self : A) (i : nat) (e : exn) (val : option string)
    (stderr : list string) : outcome A :=
  match read_qualname self with
  | (out, Ok qn) =>
      Failed self i e
        (stderr ++ out
           ++ [type_name +:+ " '" +:+ qn +:+ "': " +:+ exn_msg e; default "None" val])
  | (out, Raise x) => Failed self i x (stderr ++ out)
  end.

(** The loop [for i in count(1)], from attempt [i] on. [fuel] is the
    number of strategies that may still be applied: a class defines none
    beyond [max_fix], so that the loop ends for lack of a strategy before
    [fuel] does (lemma [check_from_stops] below). *)
Fixpoint check_from (fuel i : nat) (self : A) (stderr : list string) : outcome A :=
  match attempt self with
  | (_, (out, Ok _)) => Passed self (stderr ++ out)
  | (val, (out, Raise e)) =>
      match fuel, fixN i with
      | S fuel', Some fix_i => check_from fuel' (S i) (fix_i self) (stderr ++ out)
      | _, _ => surface_failure self i e val (stderr ++ out)
      end
  end.

Definition check (self : A) : outcome A := check_from max_fix 1 self [].

(** A constructor ends with [self.check()]: the instance when the loop was
    left by [break], the exception otherwise. *)
Definition checked (self : A) : result A :=
  match check self with
  | Passed self' _ => Ok self'
  | Failed _ _ e _ => Raise e
  end.

End Check.

Local Ltac fix_bound :=
  let i := fresh "i" in let Hi := fresh "Hi" in
  intros i Hi; do 6 (destruct i as [|i]; [first [lia | reflexivity]|]); reflexivity.

#[global, refine] Instance Param_class : PyClass Param := {|
  type_name := "Param";
  element self := mkParsedElement "Param" None (base_container (param_base self))
                    (Some (param_name self));
  py_str self := Ok (Param_str self);
  fixN i := match i with 1 => Some Param_fix1 | _ => None end;
  max_fix := 1
|}.
Proof. fix_bound. Defined.

#[global, refine] Instance Template_class : PyClass Template := {|
  type_name := "Template";
  element self := mkParsedElement "Template" None (base_container (templ_base self))
                    (Some (templ_name self));
  py_str self := Ok (Template_str self);
  fixN i := match i with 1 => Some Template_fix1 | _ => None end;
  max_fix := 1
|}.
Proof. fix_bound. Defined.

(** ** Functions (class [Function]) *)

Record Function : Type := mkFunction {
  fn_base : Base;
  fn_name : string;
  fn_returnt : Type_;
  fn_params : list Param;
  fn_templ : list Template;
  fn_overloaded : bool
}.

Definition fn_set_name (self : Function) (n : string) : Function :=
  mkFunction (fn_base self) n (fn_returnt self) (fn_params self) (fn_templ self)
             (fn_overloaded self).
Definition fn_set_overloaded (self : Function) (b : bool) : Function :=
  mkFunction (fn_base self) (fn_name self) (fn_returnt self) (fn_params self)
             (fn_templ self) b.

(** [Function.__str__] (lines 264-276) *)
Definition Function_str (self : Function) : result string :=
  let res := if fn_overloaded self then ["@overload"] else [] in
  let params := join ", " ("self" :: (Param_str <$> fn_params self)) in
  let returnt := if Type_bool (fn_returnt self) then Type_str (fn_returnt self)
                 else "None" in
  let res := res ++ ["def " +:+ fn_name self +:+ "(" +:+ params +:+ ") -> "
                       +:+ returnt +:+ ":"] in
  brief ← get_brief "Function" (fn_base self);
  let res := if nonempty brief
             then res ++ [tab +:+ dquote +:+ dquote +:+ dquote +:+ brief
                            +:+ dquote +:+ dquote +:+ dquote]
             else res in
  let res := res ++ [tab +:+ "..."] in
  Ok (join nl res).

(** The table [renames] of [fix1] (lines 197-236). *)
Definition renames : list (string * string) :=
  [("operator+", "__add__"); ("operator-", "__sub__"); ("operator*", "__mul__");
   ("operator++", "__preinc__"); ("operator--", "__predec__");
   ("operator[]", "__getitem__"); ("operator()", "__call__");
   ("operator%", "__mod__"); ("operator**", "__pow__");
   ("operator<<", "__lshift__"); ("operator>>", "__rshift__");
   ("operator&", "__and__"); ("operator&&", "__dand__");
   ("operator|", "__or__"); ("operator||", "__dor__");
   ("operator^", "__xor__"); ("operator~", "__invert__");
   ("operator,", "__comma__"); ("operator+=", "__iadd__");
   ("operator-=", "__isub__"); ("operator*=", "__imul__");
   ("operator/=", "__idiv__"); ("operator%=", "__imod__");
   ("operator**=", "__ipow__"); ("operator<<=", "__ilshift__");
   ("operator>>=", "__irshift__"); ("operator&=", "__iand__");
   ("operator|=", "__ior__"); ("operator^=", "__ixor__");
   ("operator==", "__eq__"); ("operator!=", "__ne__");
   ("operator>", "__gt__"); ("operator<", "__lt__");
   ("operator>=", "__ge__"); ("operator<=", "__le__");
   ("operator->", "__follow__"); ("operator=", "__assign__")].

(** [Type.__eq__] against a string, as in [self.params[0].type == "int"]:
    lines 37-38 on a [Type] and a [str], neither of which raises when
    rendered. *)
Definition Type_eq (t : Type_) (other : string) : bool :=
  String.eqb (Type_str t) other.

(** [len(self.params) == 1 and self.params[0].type == "int"] *)
Definition first_param_is_int (self : Function) : bool :=
  match fn_params self with
  | [p] => Type_eq (param_type p) "int"
  | _ => false
  end.

(** [Function.fix1] (lines 237-247) *)
Definition Function_fix1 (self : Function) : Function :=
  let n := fn_name self in
  let n := if String.eqb n "operator+" && is_nil (fn_params self) then "__pos__" else n in
  let n := if String.eqb n "operator-" && is_nil (fn_params self) then "__neg__" else n in
  let n := if String.eqb n "operator*" && is_nil (fn_params self) then "__deref__" else n in
  let n := if String.eqb n "operator++" && first_param_is_int self then "__postinc__" else n in
  let n := if String.eqb n "operator--" && first_param_is_int self then "__postdec__" else n in
  fn_set_name self (attrib_get renames n n).

(** [Function.fix2] (lines 250-252) *)
Definition Function_fix2 (self : Function) : Function :=
  let '(op, _, tp) := partition " "%char (L (fn_name self)) in
  if String.eqb (S_ op) "operator" && negb (is_nil tp)
  then fn_set_name self ("__" +:+ simple_parse (S_ tp) +:+ "__")
  else self.

(** [Function.fix3] (lines 255-256) *)
Definition Function_fix3 (self : Function) : Function :=
  if startswith (fn_name self) "~" then fn_set_name self "__destruct__" else self.

(** [Function.fix4] (line 259) and [Function.fix5] (line 262) *)
Definition Function_fix4 (self : Function) : Function :=
  fn_set_name self ("_" +:+ fn_name self).
Definition Function_fix5 (self : Function) : Function :=
  fn_set_name self (strip_non_alpha (fn_name self)).

#[global, refine] Instance Function_class : PyClass Function := {|
  type_name := "Function";
  element self := mkParsedElement "Function" None (base_container (fn_base self))
                    (Some (fn_name self));
  py_str := Function_str;
  fixN i := match i with
            | 1 => Some Function_fix1
            | 2 => Some Function_fix2
            | 3 => Some Function_fix3
            | 4 => Some Function_fix4
            | 5 => Some Function_fix5
            | _ => None
            end;
  max_fix := 5
|}.
Proof. fix_bound. Defined.

(** ** Variables (class [Variable])

    [type] holds a [Type], or the string ["TypeAlias"] for a typedef;
    [value] holds a string, or the former [type] of a typedef: both are
    parts. [overloaded] is the attribute that the owning scope sets on
    members of any class; on a variable it is absent until then. *)

Record Variable_ : Type := mkVariable {
  var_base : Base;
  var_name : string;
  var_type : Part;
  var_value : Part;
  var_overloaded : bool
}.

Definition var_set_name (self : Variable_) (n : string) : Variable_ :=
  mkVariable (var_base self) n (var_type self) (var_value self) (var_overloaded self).
Definition var_set_value (self : Variable_) (v : Part) : Variable_ :=
  mkVariable (var_base self) (var_name self) (var_type self) v (var_overloaded self).
Definition var_set_type (self : Variable_) (t : Part) : Variable_ :=
  mkVariable (var_base self) (var_name self) t (var_value self) (var_overloaded self).
Definition var_set_overloaded (self : Variable_) (b : bool) : Variable_ :=
  mkVariable (var_base self) (var_name self) (var_type self) (var_value self) b.

(** [Variable.__str__] (lines 302-310) *)
Definition Variable_str (self : Variable_) : result string :=
  brief ← get_brief "Variable" (var_base self);
  let res := if nonempty brief then ["#: " +:+ brief] else [] in
  let res :=
    if Part_bool (var_type self)
    then res ++ [var_name self +:+ " : " +:+ Part_str (var_type self) +:+ " = "
                   +:+ Part_str (var_value self)]
    else res ++ [var_name self +:+ " = " +:+ Part_str (var_value self)] in
  Ok (join nl res).

(** [Variable.fix1], [fix2], [fix3] (lines 293-300) *)
Definition Variable_fix1 (self : Variable_) : Variable_ :=
  var_set_name self ("_" +:+ var_name self).
Definition Variable_fix2 (self : Variable_) : Variable_ :=
  var_set_name self (strip_non_alpha (var_name self)).
Definition Variable_fix3 (self : Variable_) : Variable_ :=
  var_set_name self ("_" +:+ var_name self).

#[global, refine] Instance Variable_class : PyClass Variable_ := {|
  type_name := "Variable";
  element self := mkParsedElement "Variable" None (base_container (var_base self))
                    (Some (var_name self));
  py_str := Variable_str;
  fixN i := match i with
            | 1 => Some Variable_fix1
            | 2 => Some Variable_fix2
            | 3 => Some Variable_fix3
            | _ => None
            end;
  max_fix := 3
|}.
Proof. fix_bound. Defined.

(** ** Enumerations (class [Enum]) *)

Record Enum : Type := mkEnum {
  enum_base : Base;
  enum_qualname : string;
  enum_name : string;
  enum_strong : bool;
  enum_values : list Variable_;
  enum_overloaded : bool
}.

Definition enum_set_overloaded (self : Enum) (b : bool) : Enum :=
  mkEnum (enum_base self) (enum_qualname self) (enum_name self) (enum_strong self)
         (enum_values self) b.

(** [Enum.__str__] (lines 330-338) *)
Definition Enum_str (self : Enum) : result string :=
  let res := ["class " +:+ enum_name self +:+ "("
                +:+ (if enum_strong self then "enum.Enum" else "enum.IntEnum") +:+ "):"] in
  brief ← get_brief "Enum" (enum_base self);
  let res := if nonempty brief
             then res ++ [tab +:+ dquote +:+ dquote +:+ dquote +:+ brief
                            +:+ dquote +:+ dquote +:+ dquote]
             else res in
  members ← mapM (fun member => s ← Variable_str member; Ok (indent s tab))
                 (enum_values self);
  let res := res ++ members in
  let res := if is_nil (enum_values self) then res ++ [tab +:+ "..."] else res in
  Ok (join (nl +:+ nl) res).

#[global, refine] Instance Enum_class : PyClass Enum := {|
  type_name := "Enum";
  element self := mkParsedElement "Enum" (Some (enum_qualname self))
                    (base_container (enum_base self)) (Some (enum_name self));
  py_str := Enum_str;
  fixN i := None;
  max_fix := 0
|}.
Proof. reflexivity. Defined.

(** ** Constructors: the instance is built, then checked *)

Section Constructors.
Variable ast_parse : string -> result (list string).

Definition Param_init (xml : Element) (container : option ParsedElement) : result Param :=
  self ← Param_new xml container; checked ast_parse self.

Definition Template_init (xml : Element) (container : option ParsedElement)
    : result Template :=
  self ← Template_new xml container; checked ast_parse self.

(** [Function.__init__] (lines 169-181) *)
Definition Function_init (xml : Element) (container : option ParsedElement)
    : result Function :=
  let base := ParsedElement_init xml container in
  nm ← find_text "name" xml;
  let returnt := Type_init (find "type" xml) in
  params ← mapM (fun p => Param_init p container) (iterfind "param" xml);
  templ ← match find "templateparamlist" xml with
          | Some templ => mapM (fun p => Template_init p container) (iterfind "param" templ)
          | None => Ok []
          end;
  checked ast_parse (mkFunction base nm returnt params templ false).

(** [Variable.__init__] (lines 280-286) *)
Definition Variable_init (xml : Element) (container : option ParsedElement)
    : result Variable_ :=
  let base := ParsedElement_init xml container in
  nm ← find_text "name" xml;
  let ty := Type_init (find "type" xml) in
  checked ast_parse (mkVariable base nm (PType ty) (PStr "...") false).

(** [Enum.__init__] (lines 314-325) *)
Definition Enum_init (xml : Element) (container : option ParsedElement) : result Enum :=
  let base := ParsedElement_init xml container in
  let qn := type_parse (find "compoundname" xml) in
  nm ← find_text "name" xml;
  let nm := str_strip nm in
  strong ← match List.find (fun kv => String.eqb (fst kv) "strong") (attrib xml) with
           | Some (_, v) => Ok (String.eqb v "yes")
           | None => Raise (KeyError "strong")
           end;
  let self := mkParsedElement "Enum" (Some qn) (base_container base) (Some nm) in
  values ← mapM (fun ev => v ← Variable_init ev (Some self);
                           Ok (var_set_value v (PStr "enum.auto()")))
                (iterfind "enumvalue" xml);
  checked ast_parse (mkEnum base qn nm strong values false).

End Constructors.

(** ** The resolution pass on declarations (lines 183-187, 288-291, 327-328):
    the instance after the pass and the registry with the instance entered
    under its qualified name. *)

Section ResolveDecl.
Variable INSTANCES : gmap string ParsedElement.

Definition Param_resolve (NAMESPACE : gmap string ParsedElement) (self : Param) : Param :=
  mkParam (param_base self) (param_name self)
          (Type_resolve INSTANCES NAMESPACE (param_type self)) (param_default self).

Definition Function_resolve (NAMESPACE : gmap string ParsedElement) (self : Function)
    : Function * gmap string ParsedElement :=
  let self := mkFunction (fn_base self) (fn_name self)
                (Type_resolve INSTANCES NAMESPACE (fn_returnt self))
                (Param_resolve NAMESPACE <$> fn_params self)
                (fn_templ self) (fn_overloaded self) in
  (self, <[qualname (element self) := element self]> NAMESPACE).

Definition Variable_resolve (NAMESPACE : gmap string ParsedElement) (self : Variable_)
    : Variable_ * gmap string ParsedElement :=
  let self := var_set_type self (Part_resolve INSTANCES NAMESPACE (var_type self)) in
  (self, <[qualname (element self) := element self]> NAMESPACE).

Definition Enum_resolve (NAMESPACE : gmap string ParsedElement) (self : Enum)
    : Enum * gmap string ParsedElement :=
  (self, <[qualname (element self) := element self]> NAMESPACE).

End ResolveDecl.

(** ** Equality and hashing ([ParsedElement.__eq__], [__hash__], lines 37-41)

    Both render their operands with [str]; the other operand may be an
    instance of any class or a string. *)

Class Rendered (A : Type) : Type := render : A -> result string.

#[global] Instance string_rendered : Rendered string := fun s => Ok s.
#[global] Instance Type_rendered : Rendered Type_ := fun t => Ok (Type_str t).
#[global] Instance Part_rendered : Rendered Part := fun p => Ok (Part_str p).
#[global] Instance PyClass_rendered {A : Type} `{PyClass A} : Rendered A := py_str.

Definition py_eq {A B : Type} `{Rendered A} `{Rendered B} (self : A) (other : B)
    : result bool :=
  x ← render self; y ← render other; Ok (String.eqb x y).

(** [hash] is the hash function of [str]. *)
Definition py_hash {A : Type} `{Rendered A} (hash : string -> nat) (self : A) : result nat :=
  x ← render self; Ok (hash x).

(** A [set] of template parameters, as [self.templates]: [add] keeps the
    set as it is when it holds an element equal to the new one. The order of
    a [set] is not specified; the model keeps the order of insertion. *)
Definition templates_add (s : list Template) (x : Template) : list Template :=
  if existsb (fun y => String.eqb (Template_str y) (Template_str x)) s then s
  else s ++ [x].

(** [self.templates.update(xs)] *)
Definition templates_update (s : list Template) (xs : list Template) : list Template :=
  foldl templates_add s xs.

(** ** Members of a scope ([Class.__init__], lines 360-376)

    [do_iter] yields variables, functions, enumerations, header comments
    (strings) and nested types. The [namespace] multimap and the [subtypes]
    list hold references to the members: positions in the [members] list. *)

Inductive Member : Type :=
| MVariable (v : Variable_)
| MFunction (f : Function)
| MEnum (e : Enum)
| MHeader (s : string)
| MType (t : Type_).

(** [member.name], for a member that has the attribute. *)
Definition member_name (m : Member) : option string :=
  match m with
  | MVariable v => Some (var_name v)
  | MFunction f => Some (fn_name f)
  | MEnum e => Some (enum_name e)
  | MHeader _ | MType _ => None
  end.

Definition member_overloaded (m : Member) : bool :=
  match m with
  | MVariable v => var_overloaded v
  | MFunction f => fn_overloaded f
  | MEnum e => enum_overloaded e
  | MHeader _ | MType _ => false
  end.

(** [member.overloaded = True] (line 376) *)
Definition mark_overloaded (m : Member) : Member :=
  match m with
  | MVariable v => MVariable (var_set_overloaded v true)
  | MFunction f => MFunction (fn_set_overloaded f true)
  | MEnum e => MEnum (enum_set_overloaded e true)
  | MHeader _ | MType _ => m
  end.

(** Lines 366-367: a function named like the scope becomes [__init__]. *)
Definition rename_init (scope_name : string) (m : Member) : Member :=
  match m with
  | MFunction f =>
      if String.eqb (fn_name f) scope_name then MFunction (fn_set_name f "__init__") else m
  | _ => m
  end.

(** [self.namespace[name].append(i)] on a [defaultdict(list)], which keeps
    its keys in the order of their first insertion. *)
Fixpoint namespace_append (ns : list (string * list nat)) (key : string) (i : nat)
    : list (string * list nat) :=
  match ns with
  | [] => [(key, [i])]
  | (k, l) :: ns' =>
      if String.eqb k key then (k, l ++ [i]) :: ns'
      else (k, l) :: namespace_append ns' key i
  end.

Record Scope : Type := mkScope {
  sc_members : list Member;
  sc_namespace : list (string * list nat);
  sc_subtypes : list nat;
  sc_templates : list Template
}.

(** One turn of the loop of lines 363-371, on the member at the position
    [length (sc_members st)]. *)
Definition index_member (scope_name : string) (st : Scope) (member : Member) : Scope :=
  let i := length (sc_members st) in
  let templates := match member with
                   | MFunction f => templates_update (sc_templates st) (fn_templ f)
                   | _ => sc_templates st
                   end in
  let member := rename_init scope_name member in
  let namespace := match member_name member with
                   | Some n => namespace_append (sc_namespace st) n i
                   | None => sc_namespace st
                   end in
  let subtypes := match member with
                  | MType _ => sc_subtypes st ++ [i]
                  | _ => sc_subtypes st
                  end in
  mkScope (sc_members st ++ [member]) namespace subtypes templates.

(** Lines 373-376: every member listed under a name with more than one
    member is marked. *)
Definition mark_group (members : list Member) (entry : string * list nat) : list Member :=
  if 1 <? length (snd entry)
  then foldl (fun ms i => alter mark_overloaded i ms) members (snd entry)
  else members.

(** Lines 360-376, from the members that [do_iter] yielded and the
    templates collected so far. *)
Definition index_members (scope_name : string) (members : list Member)
    (templates : list Template) : Scope :=
  let st := foldl (index_member scope_name) (mkScope [] [] [] templates) members in
  mkScope (foldl mark_group (sc_members st) (sc_namespace st))
          (sc_namespace st) (sc_subtypes st) (sc_templates st).

(** A member as [Function.__init__] and the other constructors leave it:
    not marked. *)
Definition unmarked (m : Member) : bool := negb (member_overloaded m).

(** ** The rules in the words of the specification *)

(** Rendering precedence: override, then the resolved target's qualified
    name, then the concatenated parts, then the placeholder; the first
    source in that order that is not empty is used. The override is empty
    when it is the empty string, the target when none is bound or the one
    bound is falsy, the parts when there is none. *)
Definition render_by_precedence (t : Type_) : string :=
  let sources : list (bool * string) :=
    [ (nonempty (override t), override t);
      (target_bool (target t), from_option qualname "" (target t));
      (negb (is_nil (parts t)), join "" (Part_str <$> parts t)) ] in
  from_option snd "Any" (List.find fst sources).

(** The direct reference id of a type expression's node. *)
Definition refid (t : Type_) : string :=
  match t_xml t with
  | Some x => attrib_get (attrib x) "refid" ""
  | None => ""
  end.

(** Resolution as the specification words it: resolve all nested parts,
    then bind [target] by the direct reference id in the ID registry and,
    when that lookup fails, by the qualified name of the first part in the
    qualified-name registry. The qualified name of a part is the name that
    the part spells: the token string itself, and for a nested type
    expression its rendering, which is its target's qualified name once that
    is bound. *)
Section BySpec.
Variable INSTANCES NAMESPACE : gmap string ParsedElement.

Fixpoint resolve_by_spec (t : Type_) : Type_ :=
  match t with
  | mkType x o ps _ =>
      let ps' := map (fun p => match p with
                               | PStr s => PStr s
                               | PType t' => PType (resolve_by_spec t')
                               end) ps in
      let by_id : option ParsedElement := INSTANCES !! refid t in
      let by_name : option ParsedElement :=
        match ps' with
        | p :: _ => NAMESPACE !! Part_str p
        | [] => None
        end in
      mkType x o ps' (match by_id with Some e => Some e | None => by_name end)
  end.

End BySpec.

(** ** A stand-in for [ast.parse] in examples

    It rejects a [def] line whose name is not an identifier and accepts any
    other text, without warnings. *)
Definition is_identifier (s : chars) : bool :=
  match s with
  | c :: s' => (is_alpha c || eqc c "_"%char)
               && forallb (fun d => is_alpha d || is_digit d || eqc d "_"%char) s'
  | [] => false
  end.

Definition sample_parse (val : string) : result (list string) :=
  if startswith val "def " then
    let '(nm, found, _) := partition "("%char (drop 4 (L val)) in
    if found && is_identifier nm then Ok []
    else Raise (mkExn "SyntaxError" "invalid syntax")
  else Ok [].

(** The member [operator[]] of the example: an empty [type], one anonymous
    parameter of type [int], an empty brief description. *)
Definition param_int : Element :=
  mkElement "param" [] None [mkElement "type" [] (Some "int") [] None] None.

Definition xml_getitem : Element :=
  mkElement "memberdef" [("kind", "function"); ("id", "a1"); ("prot", "public")] None
    [mkElement "type" [] None [] None;
     mkElement "name" [] (Some "operator[]") [] None;
     param_int;
     mkElement "briefdescription" [] None [] None] None.

Definition raw_getitem : string :=
  "def operator[](self, _ : int) -> None:" +:+ nl +:+ tab +:+ "...".
Definition def_getitem (returnt : string) : string :=
  "def __getitem__(self, _ : int) -> " +:+ returnt +:+ ":" +:+ nl +:+ tab +:+ "...".

(** The positions, from [off] on, of the members of [ms] named [key]. *)
Definition has_name (key : string) (m : Member) : bool :=
  match member_name m with
  | Some n => String.eqb n key
  | None => false
  end.

Fixpoint positions_from (off : nat) (key : string) (ms : list Member) : list nat :=
  match ms with
  | [] => []
  | m :: ms' =>
      (if has_name key m then [off] else []) ++ positions_from (S off) key ms'
  end.

(** Whether the loop of lines 373-376 reaches position [i]. *)
Definition marked_by (ns : list (string * list nat)) (i : nat) : bool :=
  existsb (fun entry => (1 <? length (snd entry)) && existsb (Nat.eqb i) (snd entry)) ns.

(** What the first loop maintains: the keys of the namespace are distinct,
    each lists the positions of the members of that name, and every name of
    a member is a key. *)
Definition ns_inv (ns : list (string * list nat)) (ms : list Member) : Prop :=
  NoDup (ns.*1) /\
  (forall k l, (k, l) ∈ ns -> l = positions_from 0 k ms) /\
  (forall i m k, ms !! i = Some m -> member_name m = Some k -> k ∈ (ns.*1)).

(** A function as its constructor leaves it, for the examples. *)
Definition ex_base : Base := mkBase None None (Some "").
Definition ex_fn (n : string) : Function :=
  mkFunction ex_base n (Type_init None) [] [] false.

(** ** Searching a text for a pattern *)

(** [re.search(r, s)]: whether [r] matches somewhere in [s]. *)
Fixpoint search (r : regex) (prev : option ascii) (s : chars) : bool :=
  match match_at r prev s with
  | Some _ => true
  | None =>
      match s with
      | [] => false
      | c :: s' => search r (Some c) s'
      end
  end.

(** ** Analyses of a pattern

    Computable approximations of what a match of a pattern looks like, used
    to show that a rule leaves a word alone. *)

Definition all_ascii : list ascii := map ascii_of_nat (seq 0 256).

(** Every character of the class is a word character. *)
Definition class_word (f : ascii -> bool) : bool :=
  forallb (fun c => implb (f c) (is_word c)) all_ascii.

(** The pattern may match without consuming a character. *)
Fixpoint nullable (r : regex) : bool :=
  match r with
  | Eps | Star _ | WordB | Bol => true
  | Lit _ | Cls _ => false
  | Seq r1 r2 => nullable r1 && nullable r2
  | Alt r1 r2 => nullable r1 || nullable r2
  | Group _ r1 => nullable r1
  end.

(** [c] may be the first character that a match consumes. *)
Fixpoint firstc (r : regex) (c : ascii) : bool :=
  match r with
  | Eps | WordB | Bol => false
  | Lit c' => eqc c c'
  | Cls f => f c
  | Seq r1 r2 => firstc r1 c || (nullable r1 && firstc r2 c)
  | Alt r1 r2 => firstc r1 c || firstc r2 c
  | Star r1 => firstc r1 c
  | Group _ r1 => firstc r1 c
  end.

(** [c] may be among the characters that a match consumes. *)
Fixpoint alpha (r : regex) (c : ascii) : bool :=
  match r with
  | Eps | WordB | Bol => false
  | Lit c' => eqc c c'
  | Cls f => f c
  | Seq r1 r2 | Alt r1 r2 => alpha r1 c || alpha r2 c
  | Star r1 => alpha r1 c
  | Group _ r1 => alpha r1 c
  end.

(** After a word character, a match ends after a word character. *)
Fixpoint keeps_word (r : regex) : bool :=
  match r with
  | Eps | WordB | Bol => true
  | Lit c => is_word c
  | Cls f => class_word f
  | Seq r1 r2 => (keeps_word r1 && keeps_word r2) || ends_word r2
  | Alt r1 r2 => keeps_word r1 && keeps_word r2
  | Star r1 => keeps_word r1
  | Group _ r1 => keeps_word r1
  end
(** A match consumes a character and ends after a word character. *)
with ends_word (r : regex) : bool :=
  match r with
  | Eps | WordB | Bol | Star _ => false
  | Lit c => is_word c
  | Cls f => class_word f
  | Seq r1 r2 => (ends_word r1 && keeps_word r2) || ends_word r2
  | Alt r1 r2 => ends_word r1 && ends_word r2
  | Group _ r1 => ends_word r1
  end.

(** The pattern begins with a word boundary or the start of the text: it
    has no match between two word characters. *)
Fixpoint starts_anchored (r : regex) : bool :=
  match r with
  | WordB | Bol => true
  | Seq r1 _ => starts_anchored r1
  | Alt r1 r2 => starts_anchored r1 && starts_anchored r2
  | Group _ r1 => starts_anchored r1
  | Eps | Lit _ | Cls _ | Star _ => false
  end.

(** Every character that may come first in a match is a word character. *)
Definition first_word (r : regex) : bool :=
  forallb (fun c => implb (firstc r c) (is_word c)) all_ascii.

(** The character before the position reached after [m], when [prev] was
    the character before [m]. *)
Definition lastc (prev : option ascii) (m : chars) : option ascii :=
  match last m with
  | Some c => Some c
  | None => prev
  end.

(** ** Whole words *)

(** [a] does not end in a word character. *)
Definition word_end (a : chars) : bool := word_before (last a).

(** [w] stands in [s] as a whole word. *)
Definition isolated (w s : chars) : Prop :=
  exists a b, s = a ++ w ++ b /\ word_end a = false /\ word_after b = false.

(** Every match of [r] consumes a character, ends after a word character
    and holds the character [w0] at most as its first character. *)
Definition safe_for (w0 : ascii) (r : regex) : Prop :=
  forall prev s n caps,
    match_at r prev s = Some (n, caps) ->
    1 <= n <= length s /\
    word_before (s !! (n - 1)) = true /\
    forall j, 1 <= j < n -> s !! j <> Some w0.

(** What the analyses say of the characters [m] consumed by a match that
    began after [prev]. *)
Definition match_props (r : regex) (prev : option ascii) (m : chars) : Prop :=
  Forall (fun c => alpha r c = true) m /\
  match m with c :: _ => firstc r c = true | [] => nullable r = true end /\
  (ends_word r = true -> m <> [] /\ word_before (lastc prev m) = true) /\
  (keeps_word r = true -> word_before prev = true -> word_before (lastc prev m) = true).

(** The two words of the rule of line 565. *)
Definition w_None : chars := L "None".
Definition w_void : chars := L "void".

(** ** Scopes (class [Class]) *)

Record Class_ : Type := mkClass {
  cls_base : Base;
  cls_qualname : string;
  cls_name : string;
  cls_bases : list Type_;
  cls_kind : string;
  cls_templates : list Template;
  cls_generic : list Template;
  cls_members : list Member;
  cls_namespace : list (string * list nat);
  cls_subtypes : list nat
}.

(** [repr(s)] of a string: single quotes, unless the text holds a single
    quote and no double quote; backslash, the quote and the characters that
    are not printable are escaped. *)
Definition hex_digit (n : N) : ascii :=
  if (n <? 10)%N then ascii_of_N (48 + n) else ascii_of_N (87 + n).

Definition is_printable (c : ascii) : bool :=
  negb (in_range 0 31 c || in_range 127 160 c || (code c =? 173)%N).

Definition backslash : ascii := "092"%char.

Definition repr_char (quote : ascii) (c : ascii) : chars :=
  if eqc c backslash then [backslash; backslash]
  else if eqc c quote then [backslash; quote]
  else if eqc c "009"%char then [backslash; "t"%char]
  else if eqc c "010"%char then [backslash; "n"%char]
  else if eqc c "013"%char then [backslash; "r"%char]
  else if is_printable c then [c]
  else [backslash; "x"%char; hex_digit (code c / 16)%N; hex_digit (code c mod 16)%N].

Definition py_repr (s : string) : string :=
  let quote := if str_in "'" s && negb (str_in dquote s) then "034"%char else "'"%char in
  S_ (quote :: flat_map (repr_char quote) (L s) ++ [quote]).

(** [repr] of a list of strings, as formatted by ["%r"]. *)
Definition repr_list (l : list string) : string :=
  "[" +:+ join ", " (py_repr <$> l) +:+ "]".

(** [s.split(sep)[-1]] and [s.split(sep)[0]] for a one-character separator *)
Fixpoint after_last_go (sep : ascii) (cur : chars) (s : chars) : chars :=
  match s with
  | [] => rev cur
  | c :: s' => if eqc c sep then after_last_go sep [] s' else after_last_go sep (c :: cur) s'
  end.

Definition after_last (sep : ascii) (s : chars) : chars := after_last_go sep [] s.

Definition before_first (sep : ascii) (s : chars) : chars := fst (fst (partition sep s)).

(** [s.removeprefix(p)] *)
Definition removeprefix (p s : string) : string :=
  if startswith s p then S_ (drop (length (L p)) (L s)) else s.

(** The rendering of a member: a header comment is a string. *)
Definition Member_str (m : Member) : result string :=
  match m with
  | MVariable v => Variable_str v
  | MFunction f => Function_str f
  | MEnum e => Enum_str e
  | MHeader s => Ok s
  | MType t => Ok (Type_str t)
  end.

(** [Class.__str__] (lines 428-462). The templates are rendered in the
    order of the model of the set. *)
Definition Class_str (self : Class_) : result string :=
  let subs := omap (fun i => match cls_members self !! i with
                             | Some (MType st) =>
                                 if Type_bool st
                                 then Some (S_ (before_first "["%char (L (Type_str st))))
                                 else None
                             | _ => None
                             end) (cls_subtypes self) in
  let res := (fun stn => "from " +:+ stn +:+ " import *") <$> subs in
  let all := removeprefix (cls_qualname self +:+ ".") <$> subs in
  let all := if String.eqb (cls_kind self) "namespace"
             then all ++ (fst <$> cls_namespace self)
             else all ++ [cls_name self] in
  let res := res ++ ["__all__ = " +:+ repr_list all] in
  let is_ns := String.eqb (cls_kind self) "namespace" in
  let ind := if is_ns then "" else tab in
  let res :=
    if is_ns then res
    else
      let res := res ++ (Template_str <$> cls_templates self) in
      let bases := Type_str <$> cls_bases self in
      let bases := if is_nil (cls_generic self) then bases
                   else bases ++ ["Generic[" +:+ join ", " (templ_name <$> cls_generic self)
                                    +:+ "]"] in
      let bases := if is_nil bases then "object" else join ", " bases in
      res ++ ["class " +:+ cls_name self +:+ "(" +:+ bases +:+ "):"] in
  brief ← get_brief "Class" (cls_base self);
  let res := if nonempty brief
             then res ++ [indent (dquote +:+ dquote +:+ dquote +:+ brief
                                    +:+ dquote +:+ dquote +:+ dquote) ind]
             else res in
  members ← mapM (fun member => s ← Member_str member; Ok (indent s ind))
                 (List.filter (fun m => match m with MType _ => false | _ => true end)
                              (cls_members self));
  let res := res ++ members in
  let res := if is_nil (cls_members self) then res ++ [ind +:+ "..."] else res in
  Ok (join (nl +:+ nl) res).

#[global, refine] Instance Class_class : PyClass Class_ := {|
  type_name := "Class";
  element self := mkParsedElement "Class" (Some (cls_qualname self))
                    (base_container (cls_base self)) (Some (cls_name self));
  py_str := Class_str;
  fixN i := None;
  max_fix := 0
|}.
Proof. reflexivity. Defined.

Definition attrib_item (a : list (string * string)) (key : string) : result string :=
  match List.find (fun kv => String.eqb (fst kv) key) a with
  | Some (_, v) => Ok v
  | None => Raise (KeyError key)
  end.

Section ClassInit.
Variable ast_parse : string -> result (list string).

(** What [do_iter] adds to as it goes: the templates of the scope and the
    two sets of kinds it cannot handle. *)
Record Collected : Type := mkCollected {
  col_templates : list Template;
  col_unknown_member_defs : list string;
  col_unknown_other_defs : list string
}.

Definition skipped_tags : list string :=
  ["compoundname"; "briefdescription"; "detaileddescription"; "description";
   "collaborationgraph"; "listofallmembers"; "derivedcompoundref"; "basecompoundref";
   "inheritancegraph"; "templateparamlist"].

Definition set_add (s : list string) (x : string) : list string :=
  if existsb (String.eqb x) s then s else s ++ [x].

(** The branch of [do_iter] for a [memberdef] (lines 398-417). *)
Definition do_member (container : option ParsedElement) (member : Element)
    (col : Collected) : result (list Member * Collected) :=
  prot ← attrib_item (attrib member) "prot";
  if String.eqb prot "private" then Ok ([], col)
  else
    kind ← attrib_item (attrib member) "kind";
    if String.eqb kind "variable" then
      v ← Variable_init ast_parse member container; Ok ([MVariable v], col)
    else if String.eqb kind "function" then
      f ← Function_init ast_parse member container; Ok ([MFunction f], col)
    else if String.eqb kind "typedef" then
      var ← Variable_init ast_parse member container;
      let var := var_set_type (var_set_value var (var_type var)) (PStr "TypeAlias") in
      templates ← match find "templateparamlist" member with
                  | Some templ =>
                      ts ← mapM (fun p => Template_init ast_parse p container)
                                (iterfind "param" templ);
                      Ok (templates_update (col_templates col) ts)
                  | None => Ok (col_templates col)
                  end;
      Ok ([MVariable var],
          mkCollected templates (col_unknown_member_defs col) (col_unknown_other_defs col))
    else if String.eqb kind "enum" then
      e ← Enum_init ast_parse member container; Ok ([MEnum e], col)
    else if String.eqb kind "friend" then Ok ([], col)
    else Ok ([], mkCollected (col_templates col)
                   (set_add (col_unknown_member_defs col) kind)
                   (col_unknown_other_defs col)).

(** [Class.do_iter] (lines 388-426); the statement of line 423 belongs to
    the branch of line 421. *)
Fixpoint do_iter (container : option ParsedElement) (root : Element) (col : Collected)
    : result (list Member * Collected) :=
  match root with
  | mkElement _ _ _ cs _ =>
      (fix go (cs : list Element) (col : Collected) : result (list Member * Collected) :=
         match cs with
         | [] => Ok ([], col)
         | member :: cs' =>
             r ← (if String.eqb (tag member) "sectiondef" then do_iter container member col
                  else if String.eqb (tag member) "header" then
                    match text member with
                    | Some t => Ok ([MHeader ("# " +:+ t)], col)
                    | None => Raise (mkExn "TypeError"
                                "can only concatenate str to str")
                    end
                  else if String.eqb (tag member) "memberdef" then
                    do_member container member col
                  else if existsb (String.eqb (tag member)) ["location"; "includes"] then
                    Ok ([], col)
                  else if existsb (String.eqb (tag member)) ["innerclass"; "innernamespace"]
                  then Ok ([MType (Type_init (Some member))], col)
                  else if existsb (String.eqb (tag member)) skipped_tags then Ok ([], col)
                  else Ok ([], mkCollected (col_templates col) (col_unknown_member_defs col)
                                 (set_add (col_unknown_other_defs col) (tag member))));
             let '(ms, col) := r in
             r' ← go cs' col;
             let '(ms', col') := r' in
             Ok (ms ++ ms', col')
         end) cs col
  end.

(** [Class.__init__] up to the call of [check] (lines 342-376), with the two
    sets of unhandled kinds as [do_iter] leaves them. *)
Definition Class_new (xml : Element) (container : option ParsedElement)
    : result (Class_ * list string * list string) :=
  let base := ParsedElement_init xml container in
  let qn := type_parse (find "compoundname" xml) in
  let qn := if str_in "[" qn then S_ (before_first "["%char (L qn)) else qn in
  let nm := S_ (after_last "."%char (L qn)) in
  let bases := (fun t => Type_init (Some t)) <$> iterfind "basecompoundref" xml in
  kind ← attrib_item (attrib xml) "kind";
  generic ← match find "templateparamlist" xml with
            | Some templ => mapM (fun p => Template_init ast_parse p container)
                                 (iterfind "param" templ)
            | None => Ok []
            end;
  let templates := templates_update [] generic in
  let self := mkParsedElement "Class" (Some qn) (base_container base) (Some nm) in
  let member_container := if String.eqb kind "group" then base_container base
                          else Some self in
  r ← do_iter member_container xml (mkCollected templates [] []);
  let '(members, col) := r in
  let sc := index_members nm members (col_templates col) in
  Ok (mkClass base qn nm bases kind (sc_templates sc) generic (sc_members sc)
              (sc_namespace sc) (sc_subtypes sc),
      col_unknown_member_defs col, col_unknown_other_defs col).

(** [Class.__init__] (lines 342-378) *)
Definition Class_init (xml : Element) (container : option ParsedElement) : result Class_ :=
  r ← Class_new xml container;
  checked ast_parse (fst (fst r)).

End ClassInit.

(** [Class.resolve] (lines 380-386) *)
Section ResolveClass.
Variable INSTANCES : gmap string ParsedElement.

Definition Member_resolve (NAMESPACE : gmap string ParsedElement) (m : Member)
    : Member * gmap string ParsedElement :=
  match m with
  | MVariable v => let '(v', ns) := Variable_resolve INSTANCES NAMESPACE v in (MVariable v', ns)
  | MFunction f => let '(f', ns) := Function_resolve INSTANCES NAMESPACE f in (MFunction f', ns)
  | MEnum e => let '(e', ns) := Enum_resolve NAMESPACE e in (MEnum e', ns)
  | MHeader s => (MHeader s, NAMESPACE)
  | MType t => (MType (Type_resolve INSTANCES NAMESPACE t), NAMESPACE)
  end.

Fixpoint Members_resolve (NAMESPACE : gmap string ParsedElement) (ms : list Member)
    : list Member * gmap string ParsedElement :=
  match ms with
  | [] => ([], NAMESPACE)
  | m :: ms' =>
      let '(m', ns) := Member_resolve NAMESPACE m in
      let '(ms'', ns') := Members_resolve ns ms' in
      (m' :: ms'', ns')
  end.

Definition Class_resolve (NAMESPACE : gmap string ParsedElement) (self : Class_)
    : Class_ * gmap string ParsedElement :=
  let bases := Type_resolve INSTANCES NAMESPACE <$> cls_bases self in
  let '(members, ns) := Members_resolve NAMESPACE (cls_members self) in
  let self := mkClass (cls_base self) (cls_qualname self) (cls_name self) bases
                (cls_kind self) (cls_templates self) (cls_generic self) members
                (cls_namespace self) (cls_subtypes self) in
  (self, <[qualname (element self) := element self]> ns).

End ResolveClass.

(** ** Type expressions that refer to a declaration

    A reference whose [refid] is on the node itself; a type whose text
    spells the qualified name of a class; a type that wraps a reference to
    that class. *)
Definition ex_ref_xml : Element :=
  mkElement "ref" [("refid", "x1"); ("kindref", "member")] (Some "E") [] None.

Definition ex_graph_type_xml : Element :=
  mkElement "type" [] (Some "ogdf::Graph") [] None.

Definition ex_graph_nested_xml : Element :=
  mkElement "type" [] None
    [mkElement "ref" [("refid", "classogdf_1_1Graph"); ("kindref", "compound")]
       (Some "ogdf::Graph") [] None] None.

(** ** Words between white space *)

(** [c] does not occur in [old]. *)
Definition avoids (old : chars) (c : ascii) : bool := negb (existsb (eqc c) old).

(** [a] is empty or ends in white space; [b] is empty or begins with it. *)
Definition space_end (a : chars) : bool :=
  match last a with Some c => is_space c | None => true end.
Definition space_start (b : chars) : bool :=
  match b with c :: _ => is_space c | [] => true end.

(** [w] stands in [s] between white space or the ends of the text. *)
Definition spaced (w s : chars) : Prop :=
  exists a b, s = a ++ w ++ b /\ space_end a = true /\ space_start b = true.

(** Whether there is a character before the position, of the class [P]. *)
Definition endp (P : ascii -> bool) (o : option ascii) : bool :=
  match o with Some c => P c | None => false end.

Definition nonspace (c : ascii) : bool := negb (is_space c).

(** [safe_for], with the class [P] in the place of the word characters. *)
Definition safe_gen (P : ascii -> bool) (w0 : ascii) (r : regex) : Prop :=
  forall prev s n caps,
    match_at r prev s = Some (n, caps) ->
    1 <= n <= length s /\
    endp P (s !! (n - 1)) = true /\
    forall j, 1 <= j < n -> s !! j <> Some w0.

(** Every match consumes a character and ends after one of the class [P]. *)
Fixpoint ends_in (P : ascii -> bool) (r : regex) : bool :=
  match r with
  | Lit c => P c
  | Cls f => forallb (fun c => implb (f c) (P c)) all_ascii
  | Seq _ r2 => ends_in P r2
  | Alt r1 r2 => ends_in P r1 && ends_in P r2
  | Group _ r1 => ends_in P r1
  | Eps | Star _ | WordB | Bol => false
  end.

(** ** Trimmed texts *)

(** [s] is empty or begins with a character that is not white space. *)
Definition nonspace_start (s : chars) : bool :=
  match s with c :: _ => negb (is_space c) | [] => true end.

(** The characters that the punctuation rules of lines 560-561 rewrite or
    delete one by one. *)
Definition rewritten_chars : chars := L "<>&*".

(** ** Type expressions as the constructor leaves them *)

(** No [target] is bound and every part is truthy, at every level of
    nesting: what the filter of line 485 and the initial [target] of line
    471 establish. *)
Fixpoint Type_built (t : Type_) : bool :=
  match t with
  | mkType _ _ ps g =>
      negb (bool_decide (is_Some g))
      && forallb (fun p => match p with
                           | PStr s => nonempty s
                           | PType t' => Type_bool t' && Type_built t'
                           end) ps
  end.

(** ** The repairs of the loop, in their order *)

(** [fix_i], [fix_(i+1)], ... applied to [self], [k] of them; [None] when
    the class does not define one of them. *)
Fixpoint apply_fixes {A : Type} `{PyClass A} (i k : nat) (self : A) : option A :=
  match k with
  | O => Some self
  | S k' =>
      match fixN i with
      | Some fix_i => apply_fixes (S i) k' (fix_i self)
      | None => None
      end
  end.

(** [self] renders, and the parser takes its rendering. *)
Definition accepted (ast_parse : string -> result (list string))
    {A : Type} `{PyClass A} (self : A) : Prop :=
  exists val ws, py_str self = Ok val /\ ast_parse val = Ok ws.

(** A name that starts and ends with two underscores. *)
Definition dunder (s : string) : bool := startswith s "__" && endswith s "__".

(** ** One child in [do_iter]

    The body of the loop of lines 390-426, for the child [member]. *)
Definition do_child (ast_parse : string -> result (list string))
    (container : option ParsedElement) (member : Element) (col : Collected)
    : result (list Member * Collected) :=
  if String.eqb (tag member) "sectiondef" then do_iter ast_parse container member col
  else if String.eqb (tag member) "header" then
    match text member with
    | Some t => Ok ([MHeader ("# " +:+ t)], col)
    | None => Raise (mkExn "TypeError" "can only concatenate str to str")
    end
  else if String.eqb (tag member) "memberdef" then
    do_member ast_parse container member col
  else if existsb (String.eqb (tag member)) ["location"; "includes"] then Ok ([], col)
  else if existsb (String.eqb (tag member)) ["innerclass"; "innernamespace"]
  then Ok ([MType (Type_init (Some member))], col)
  else if existsb (String.eqb (tag member)) skipped_tags then Ok ([], col)
  else Ok ([], mkCollected (col_templates col) (col_unknown_member_defs col)
                 (set_add (col_unknown_other_defs col) (tag member))).

(** The renderings of a set of template parameters are distinct. *)
Definition distinct_renderings (s : list Template) : Prop :=
  NoDup (Template_str <$> s).

(** ** A scope for the examples: a class with a constructor, a method and a
    private method *)
Definition ex_brief : Element := mkElement "briefdescription" [] None [] None.

Definition ex_method_xml (prot name : string) : Element :=
  mkElement "memberdef" [("kind", "function"); ("prot", prot)] None
    [mkElement "name" [] (Some name) [] None; ex_brief] None.

Definition ex_class_xml : Element :=
  mkElement "compounddef" [("kind", "class"); ("id", "classogdf_1_1Graph")] None
    [mkElement "compoundname" [] (Some "ogdf::Graph") [] None;
     ex_brief;
     mkElement "sectiondef" [("kind", "public-func")] None
       [ex_method_xml "public" "Graph";
        ex_method_xml "public" "degree";
        ex_method_xml "private" "secret"] None] None.

(** A generic scope whose method repeats the template parameter of the
    scope. *)
Definition ex_templ_xml : Element :=
  mkElement "templateparamlist" [] None
    [mkElement "param" [] None [mkElement "type" [] (Some "typename T") [] None] None] None.

Definition ex_generic_xml : Element :=
  mkElement "compounddef" [("kind", "class"); ("id", "classogdf_1_1List")] None
    [mkElement "compoundname" [] (Some "ogdf::List") [] None;
     ex_templ_xml;
     ex_brief;
     mkElement "sectiondef" [("kind", "public-func")] None
       [mkElement "memberdef" [("kind", "function"); ("prot", "public")] None
          [ex_templ_xml; mkElement "name" [] (Some "front") [] None; ex_brief] None] None]
    None.

(** The instance that a member enters into the qualified-name registry
    when it is resolved: a header and a nested type enter none. *)
Definition member_element (m : Member) : option ParsedElement :=
  match m with
  | MVariable v => Some (element v)
  | MFunction f => Some (element f)
  | MEnum e => Some (element e)
  | MHeader _ | MType _ => None
  end.

(** No idiom of lines 489-499 was recognised in a type expression, at any
    level of nesting. *)
Fixpoint no_override (t : Type_) : bool :=
  match t with
  | mkType _ o ps _ =>
      negb (nonempty o)
      && forallb (fun p => match p with
                           | PStr _ => true
                           | PType t' => no_override t'
                           end) ps
  end.

(** ** A type expression that is falsy, and references to it

    The first node has an [id] and nothing else; the others refer to it. *)
Definition ex_trivial_xml : Element := mkElement "type" [("id", "t1")] None [] None.
Definition ex_trivial_ref_xml : Element := mkElement "ref" [("refid", "t1")] None [] None.
Definition ex_graph_ref_xml : Element :=
  mkElement "ref" [("refid", "t1")] (Some "Graph") [] None.

(** ** Matches, words and rules

    What is needed to tell which rules of the token translator can fire on
    a text that the token translator has written. *)

(** ** What a pattern matches

    [Matches r prev m nw]: the pattern [r] matches the text [m], where
    [prev] is the character before [m] and [nw] tells whether the character
    after [m] is a word character. *)
Definition next_word (m : chars) (nw : bool) : bool :=
  match m with
  | c :: _ => is_word c
  | [] => nw
  end.

Inductive Matches : regex -> option ascii -> chars -> bool -> Prop :=
  | M_Eps prev nw : Matches Eps prev [] nw
  | M_Lit c prev nw : Matches (Lit c) prev [c] nw
  | M_Cls (f : ascii -> bool) c prev nw : f c = true -> Matches (Cls f) prev [c] nw
  | M_Seq r1 r2 prev m1 m2 nw :
      Matches r1 prev m1 (next_word m2 nw) -> Matches r2 (lastc prev m1) m2 nw ->
      Matches (Seq r1 r2) prev (m1 ++ m2) nw
  | M_AltL r1 r2 prev m nw : Matches r1 prev m nw -> Matches (Alt r1 r2) prev m nw
  | M_AltR r1 r2 prev m nw : Matches r2 prev m nw -> Matches (Alt r1 r2) prev m nw
  | M_Star0 r prev nw : Matches (Star r) prev [] nw
  | M_StarS r prev m1 m2 nw :
      m1 <> [] -> Matches r prev m1 (next_word m2 nw) ->
      Matches (Star r) (lastc prev m1) m2 nw ->
      Matches (Star r) prev (m1 ++ m2) nw
  | M_Group name r prev m nw : Matches r prev m nw -> Matches (Group name r) prev m nw
  | M_WordB prev nw : xorb (word_before prev) nw = true -> Matches WordB prev [] nw
  | M_Bol nw : Matches Bol None [] nw.

(** The pattern does not test for the start of the text. *)
Fixpoint bol_free (r : regex) : bool :=
  match r with
  | Bol => false
  | Eps | Lit _ | Cls _ | WordB => true
  | Seq r1 r2 | Alt r1 r2 => bol_free r1 && bol_free r2
  | Star r1 | Group _ r1 => bol_free r1
  end.

(** The pattern ends with a word boundary. *)
Fixpoint ends_anchored (r : regex) : bool :=
  match r with
  | WordB => true
  | Seq _ r2 => ends_anchored r2
  | Alt r1 r2 => ends_anchored r1 && ends_anchored r2
  | Group _ r1 => ends_anchored r1
  | Eps | Lit _ | Cls _ | Star _ | Bol => false
  end.

(** Every character that a match consumes is a word character. *)
Definition word_alpha (r : regex) : bool :=
  forallb (fun c => implb (alpha r c) (is_word c)) all_ascii.

(** ** The words of a text

    [runs_from cur s]: the maximal runs of word characters of [s], in order,
    where [cur] is the run that ends where [s] begins; a run is listed where
    it ends, the empty run between two other characters included. *)
Fixpoint runs_from (cur : chars) (s : chars) : list chars :=
  match s with
  | [] => [cur]
  | c :: s' => if is_word c then runs_from (cur ++ [c]) s' else cur :: runs_from [] s'
  end.

Definition word_runs (s : chars) : list chars := runs_from [] s.

(** The runs that end within [a], and the run that ends where [a] does. *)
Fixpoint runs_done (cur : chars) (a : chars) : list chars :=
  match a with
  | [] => []
  | c :: a' => if is_word c then runs_done (cur ++ [c]) a' else cur :: runs_done [] a'
  end.

Fixpoint run_open (cur : chars) (a : chars) : chars :=
  match a with
  | [] => cur
  | c :: a' => if is_word c then run_open (cur ++ [c]) a' else run_open [] a'
  end.

(** [w] is matched by [r] when it stands alone. *)
Definition matched_word (r : regex) (w : chars) : bool :=
  match match_at r None w with
  | Some _ => true
  | None => false
  end.

(** [s] begins with the word [w]. *)
Definition starts_word (w s : chars) : bool :=
  starts_with w s && negb (word_after (drop (length w) s)).

(** The scan of a starred pattern, with the number of rounds left. *)
Definition star_loop {R : Type} (r1 : regex)
    (k : option ascii -> chars -> captures -> option R) :=
  fix loop (n : nat) (prev : option ascii) (s : chars) (caps : captures)
      {struct n} : option R :=
    match n with
    | O => k prev s caps
    | S n' =>
        match rmatch r1 prev s caps
                (fun p s' c => if length s' <? length s then loop n' p s' c else None) with
        | Some x => Some x
        | None => k prev s caps
        end
    end.


(** The texts that a pattern without classes and stars can match, whatever
    stands around them. *)
Fixpoint lang (r : regex) : option (list chars) :=
  match r with
  | Eps | WordB | Bol => Some [[]]
  | Lit c => Some [[c]]
  | Cls _ | Star _ => None
  | Seq r1 r2 =>
      match lang r1, lang r2 with
      | Some l1, Some l2 => Some (flat_map (fun m1 => map (app m1) l2) l1)
      | _, _ => None
      end
  | Alt r1 r2 =>
      match lang r1, lang r2 with
      | Some l1, Some l2 => Some (l1 ++ l2)
      | _, _ => None
      end
  | Group _ r1 => lang r1
  end.

(** A rule: a pattern and the text that replaces its matches. *)
Definition rule : Type := regex * string.

Definition apply_rule (t : chars) (x : rule) : chars := sub (fst x) (snd x) t.

(** The rules of lines 562-581, in their order. *)
Definition word_rules : list rule :=
  [(re_const, ""); (re_volatile, ""); (re_void, "None"); (re_intN, "int");
   (re_unsigned, ""); (re_ints, " int"); (re_double, "float"); (re_string, "str");
   (re_vector, "List"); (re_pair, "Tuple"); (re_map, "Dict"); (re_true, "True");
   (re_false, "False"); (re_nullptr, "None"); (re_NULL, "None"); (re_class, "");
   (re_typename, "")].

(** Lines 559-561: the char-pointer rule, the punctuation rewriting and the
    first strip. *)
Definition simple_parse_literal (name : chars) : chars :=
  strip (repl "..." "" (repl "*" "" (repl "&" ""
    (repl ">" "]" (repl "<" "[" (repl "::" "." (sub re_char_ptr "str" name))))))).

(** A rule whose matches begin and end at word boundaries and whose
    replacement brings in no word that [bad] holds of: it splits no word,
    joins none, and makes none that [bad] holds of. *)
Definition rule_bounded (x : rule) : bool :=
  ends_word (fst x) && starts_anchored (fst x) && ends_anchored (fst x)
  && (first_word (fst x)
      || match L (snd x) with c :: _ => negb (is_word c) | [] => false end).

Definition rule_keeps (bad : chars -> bool) (x : rule) : bool :=
  rule_bounded x && forallb (fun w => negb (bad w)) (runs_from [] (L (snd x))).

(** The patterns of lines 570-573 without the optional [std.] in front. *)
Definition core_string : regex := Seqs [WordB; Str "string"; WordB].
Definition core_vector : regex := Seqs [WordB; Str "vector"; WordB].
Definition core_pair : regex := Seqs [WordB; Str "pair"; WordB].
Definition core_map : regex := Seqs [WordB; Opt (Str "unordered_"); Str "map"; WordB].

(** The rule for integer words alone leaves [o] as it is, but for a space
    that it may put in front. *)
Definition ints_settled (o : chars) : bool :=
  bool_decide (sub re_ints " int" o = o \/ sub re_ints " int" o = " "%char :: o).

(** What a settled pattern gives: after the rules no word of the text is
    one that [bad] holds of, and in a text without such words the pattern has
    no match. *)
Definition settled (r : regex) (bad : chars -> bool) : Prop :=
  (forall t, Forall (fun w => bad w = false)
               (word_runs (strip (fold_left apply_rule word_rules t)))) /\
  (forall t', Forall (fun w => bad w = false) (word_runs t') -> search r None t' = false).


(** * Properties *)

(** ** Text *)

Lemma S_L (s : string) : S_ (L s) = s.
Proof. apply string_of_list_ascii_of_string. Qed.

Lemma L_S (l : chars) : L (S_ l) = l.
Proof. apply list_ascii_of_string_of_list_ascii. Qed.

Lemma nonempty_true (s : string) : nonempty s = true <-> s <> "".
Proof.
  unfold nonempty. destruct (String.eqb_spec s ""); simpl; split; congruence.
Qed.

Lemma nonempty_false (s : string) : nonempty s = false <-> s = "".
Proof.
  unfold nonempty. destruct (String.eqb_spec s ""); simpl; split; congruence.
Qed.

Lemma is_nil_true {A : Type} (l : list A) : is_nil l = true <-> l = [].
Proof. destruct l; simpl; split; congruence. Qed.

(** ** Qualified names *)

(** The constructor of the base class leaves no container behind, whatever
    it was given (line 35). *)
Lemma ParsedElement_init_container (xml : Element) (c : option ParsedElement) :
  base_container (ParsedElement_init xml c) = None.
Proof. reflexivity. Qed.

(** C2, as amended. An instance whose qualified name was assigned ([Class],
    [Enum]) reports that value. Otherwise, when its [container] holds an
    instance and it has a [name], the qualified name is the container's
    qualified name, a dot and the name. Otherwise it is the name itself when
    that is not empty, and the placeholder ["???"] when the name is missing
    or empty; the diagnostic is printed in this last case unless the name
    starts with ["ogdf"]. *)
Theorem C2_qualname_amended (e : ParsedElement) :
  match dict_qualname e, container e, name e with
  | Some q, _, _ => qualname e = q /\ qualname_unknown e = false
  | None, Some c, Some n =>
      qualname e = qualname c +:+ "." +:+ n /\ qualname_unknown e = false
  | None, _, Some n =>
      qualname e = (if nonempty n then n else "???") /\
      qualname_unknown e = negb (nonempty n) || negb (startswith n "ogdf")
  | None, _, None => qualname e = "???" /\ qualname_unknown e = true
  end.
Proof.
  destruct e as [cls [q|] [c|] [n|] | t]; simpl; auto.
Qed.

(** C2 as stated fails. A function named [newNode] that has no container
    keeps its name as qualified name, though the name does not start with
    the root namespace: that is not the placeholder. An enumeration built
    inside a scope reports the qualified name assigned by its constructor,
    not the scope's name joined to its own; so does an instance with an
    assigned qualified name whose [container] does hold the scope. *)
Lemma C2_counterexample :
  let f := mkParsedElement "Function" None None (Some "newNode") in
  let scope := mkParsedElement "Class" (Some "ogdf.Graph") None (Some "Graph") in
  let xml := mkElement "memberdef" [("kind", "enum"); ("strong", "no")] None
               [mkElement "name" [] (Some "Color") [] None;
                mkElement "briefdescription" [] None [] None] None in
  let held := mkParsedElement "Enum" (Some "Any") (Some scope) (Some "Color") in
  (container f = None /\ startswith "newNode" "ogdf" = false /\
   qualname f = "newNode" /\ qualname f <> "???") /\
  (exists e, Enum_init sample_parse xml (Some scope) = Ok e /\
             name (element e) = Some "Color" /\
             qualname (element e) = "Any" /\
             qualname (element e) <> qualname scope +:+ "." +:+ "Color") /\
  (container held = Some scope /\ qualname scope = "ogdf.Graph" /\
   qualname held = "Any" /\ qualname held <> qualname scope +:+ "." +:+ "Color").
Proof.
  split; [|split].
  - repeat split; try reflexivity. discriminate.
  - eexists. split; [vm_compute; reflexivity|].
    repeat split; try reflexivity. discriminate.
  - repeat split; try reflexivity. discriminate.
Qed.

(** ** Rendering and truthiness of type expressions *)

Lemma Type_bool_unfold (t : Type_) :
  Type_bool t = negb (is_nil (parts t)) || nonempty (override t) || target_bool (target t).
Proof. destruct t as [x o ps g]. reflexivity. Qed.

Lemma Type_str_unfold (t : Type_) :
  Type_str t =
  if nonempty (override t) then override t
  else match target t with
       | Some e =>
           if ParsedElement_bool e then qualname e
           else if is_nil (parts t) then "Any" else join "" (map Part_str (parts t))
       | None => if is_nil (parts t) then "Any" else join "" (map Part_str (parts t))
       end.
Proof.
  destruct t as [x o ps g]; simpl.
  destruct (nonempty o); [reflexivity|].
  destruct g as [e|]; simpl; [destruct (ParsedElement_bool e)|]; try reflexivity.
  all: destruct ps; reflexivity.
Qed.

(** C7, as amended. The rendering of a type expression is the first source
    that is not empty among its override, its resolved target's qualified
    name and its concatenated parts, and ["Any"] when all are empty, where
    a target that is bound but falsy counts as empty. The expression is
    truthy exactly when it has a part, a non-empty override or a resolved
    target that is itself truthy, and an expression that is not truthy
    renders as ["Any"]. A target that is a declaration is truthy: with it
    the expression is truthy, and renders the declaration's qualified name
    unless it has an override. *)
Theorem C7_Type_rendering_amended (t : Type_) :
  Type_str t = render_by_precedence t /\
  (Type_bool t = true <->
     parts t <> [] \/ override t <> "" \/
     exists e, target t = Some e /\ ParsedElement_bool e = true) /\
  (Type_bool t = false -> Type_str t = "Any") /\
  (forall c q k n, target t = Some (mkParsedElement c q k n) ->
     Type_bool t = true /\
     (override t = "" -> Type_str t = qualname (mkParsedElement c q k n))).
Proof.
  rewrite Type_str_unfold, Type_bool_unfold. unfold render_by_precedence.
  destruct t as [x o ps g]; cbn [override target parts].
  split; [|split; [|split]].
  - destruct (nonempty o) eqn:Ho; [reflexivity|]. cbn [List.find fst].
    destruct g as [e|]; cbn [target_bool].
    + destruct (ParsedElement_bool e); [reflexivity|].
      destruct ps; reflexivity.
    + destruct ps; reflexivity.
  - split.
    + intros H. apply orb_true_iff in H as [H|H]; [apply orb_true_iff in H as [H|H]|].
      * left. by destruct ps.
      * right; left. by apply nonempty_true.
      * right; right. destruct g as [e|]; [|discriminate]. by exists e.
    + intros [H|[H|(e & -> & H)]].
      * by destruct ps.
      * destruct (nonempty o) eqn:Ho; [apply orb_true_iff; left; apply orb_true_r|].
        by apply nonempty_false in Ho.
      * cbn [target_bool]. rewrite H. apply orb_true_r.
  - intros H. apply orb_false_iff in H as [H Hg].
    apply orb_false_iff in H as [Hps Ho]. rewrite Ho.
    destruct ps; [|discriminate].
    destruct g as [e|]; [|reflexivity]. cbn [target_bool] in Hg. by rewrite Hg.
  - intros c q k n ->. split; [apply orb_true_r|].
    by intros ->.
Qed.

(** C7 as stated fails. The type expression built from [ex_trivial_xml], a
    node with an [id] and nothing else, is entered into the ID registry by
    its constructor and is falsy. Resolution binds the expression built from
    [ex_trivial_ref_xml] to it: that expression has a resolved target, and
    it is falsy and renders as ["Any"]. The expression built from
    [ex_graph_ref_xml] is bound to it too, has no override, and renders its
    part, not the target's qualified name. *)
Lemma C7_counterexample :
  let held := Type_init (Some ex_trivial_xml) in
  let INSTANCES := register_instance ex_trivial_xml (Type_element held) ∅ in
  let t := Type_resolve INSTANCES ∅ (Type_init (Some ex_trivial_ref_xml)) in
  let u := Type_resolve INSTANCES ∅ (Type_init (Some ex_graph_ref_xml)) in
  (target t = Some (Type_element held) /\ parts t = [] /\ override t = "" /\
   Type_bool t = false /\ Type_str t = "Any" /\ qualname (Type_element held) = "???") /\
  (target u = Some (Type_element held) /\ override u = "" /\
   Type_str u = "Graph" /\ Type_str u <> qualname (Type_element held)) /\
  ~ (forall t : Type_,
       Type_bool t = true <->
       parts t <> [] \/ override t <> "" \/ exists e, target t = Some e).
Proof.
  cbv zeta.
  assert (Type_resolve (register_instance ex_trivial_xml
                          (Type_element (Type_init (Some ex_trivial_xml))) ∅) ∅
            (Type_init (Some ex_trivial_ref_xml))
          = mkType (Some ex_trivial_ref_xml) "" []
              (Some (Type_element (Type_init (Some ex_trivial_xml))))) as Ht.
  { unfold register_instance. simpl. unfold bind_target. simpl.
    by rewrite lookup_insert_eq. }
  assert (Type_resolve (register_instance ex_trivial_xml
                          (Type_element (Type_init (Some ex_trivial_xml))) ∅) ∅
            (Type_init (Some ex_graph_ref_xml))
          = mkType (Some ex_graph_ref_xml) "" [PStr "Graph"]
              (Some (Type_element (Type_init (Some ex_trivial_xml))))) as Hu.
  { replace (Type_init (Some ex_graph_ref_xml))
      with (mkType (Some ex_graph_ref_xml) "" [PStr "Graph"] None)
      by (vm_compute; reflexivity).
    unfold register_instance. simpl. unfold bind_target. simpl.
    by rewrite lookup_insert_eq. }
  rewrite Ht, Hu. split; [|split].
  - repeat split; reflexivity.
  - repeat split; try reflexivity. discriminate.
  - intros H.
    destruct (H (mkType (Some ex_trivial_ref_xml) "" []
                   (Some (Type_element (Type_init (Some ex_trivial_xml)))))) as [_ H'].
    discriminate H'. right; right. by eexists.
Qed.

(** ** Equality and hashing *)

Lemma Type_eq_py_eq (t : Type_) (other : string) :
  py_eq t other = Ok (Type_eq t other).
Proof. reflexivity. Qed.

Lemma templates_add_equal (s : list Template) (x y : Template) :
  y ∈ s -> py_eq y x = Ok true -> templates_add s x = s.
Proof.
  intros Hy Heq. unfold templates_add.
  assert (existsb (fun y => String.eqb (Template_str y) (Template_str x)) s = true) as ->;
    [|reflexivity].
  apply existsb_exists. exists y. split; [by apply list_elem_of_In|].
  unfold py_eq in Heq. simpl in Heq. congruence.
Qed.

(** C9. Two instances, of any classes, or an instance and a string, compare
    equal exactly when both render and the renderings are the same string;
    instances with the same rendering have the same hash. The comparison of
    a parameter's type with ["int"] in [fix1] and the set of collected
    template parameters are instances of this: the first holds exactly when
    the type renders as ["int"], and adding a template parameter equal to one
    already in the set leaves the set as it is. *)
Theorem C9_equality_by_rendering {A B : Type} `{Rendered A} `{Rendered B}
    (hash : string -> nat) (a : A) (b : B) :
  (py_eq a b = Ok true <-> exists s, render a = Ok s /\ render b = Ok s) /\
  (py_eq a b = Ok false <->
     exists s1 s2, render a = Ok s1 /\ render b = Ok s2 /\ s1 <> s2) /\
  (forall s, render a = Ok s -> render b = Ok s -> py_hash hash a = py_hash hash b) /\
  (forall f : Function,
     first_param_is_int f = true <->
     exists p, fn_params f = [p] /\ py_eq (param_type p) "int" = Ok true) /\
  (forall (s : list Template) (x y : Template),
     y ∈ s -> py_eq y x = Ok true -> templates_update s [x] = s).
Proof.
  split; [|split; [|split; [|split]]].
  - unfold py_eq. destruct (render a) as [x|e], (render b) as [y|e']; simpl.
    + destruct (String.eqb_spec x y) as [->|Hne].
      * split; eauto.
      * split; [discriminate|]. intros (s & Ha & Hb). congruence.
    + split; [discriminate|]. intros (s & _ & Hb). discriminate.
    + split; [discriminate|]. intros (s & Ha & _). discriminate.
    + split; [discriminate|]. intros (s & Ha & _). discriminate.
  - unfold py_eq. destruct (render a) as [x|e], (render b) as [y|e']; simpl.
    + destruct (String.eqb_spec x y) as [->|Hne].
      * split; [discriminate|]. intros (s1 & s2 & Ha & Hb & Hne). congruence.
      * split; eauto 6.
    + split; [discriminate|]. intros (s1 & s2 & _ & Hb & _). discriminate.
    + split; [discriminate|]. intros (s1 & s2 & Ha & _). discriminate.
    + split; [discriminate|]. intros (s1 & s2 & Ha & _). discriminate.
  - unfold py_hash. intros s -> ->. reflexivity.
  - intros f. unfold first_param_is_int.
    destruct (fn_params f) as [|p [|q ps]].
    + split; [discriminate|]. intros (p & Hp & _). discriminate.
    + split.
      * intros Hp. exists p. split; [reflexivity|].
        rewrite Type_eq_py_eq. by rewrite Hp.
      * intros (p' & Hp' & Heq). injection Hp' as <-.
        rewrite Type_eq_py_eq in Heq. congruence.
    + split; [discriminate|]. intros (p' & Hp' & _). discriminate.
  - intros s x y Hy Heq. simpl. by apply templates_add_equal with y.
Qed.

(** ** Resolution *)

(** Induction on a type expression, with the hypothesis for every nested
    type among its parts. *)
Definition Part_all (P : Type_ -> Prop) (p : Part) : Prop :=
  match p with
  | PStr _ => True
  | PType t => P t
  end.

Lemma Type_ind_parts (P : Type_ -> Prop) :
  (forall x o ps g, Forall (Part_all P) ps -> P (mkType x o ps g)) ->
  forall t, P t.
Proof.
  intros Hstep.
  fix IH 1. intros [x o ps g]. apply Hstep.
  induction ps as [|p ps IHps]; constructor; [|exact IHps].
  destruct p as [s|t]; simpl; [exact I|apply IH].
Qed.

Section ResolveFacts.
Variable INSTANCES NAMESPACE : gmap string ParsedElement.

Abbreviation resolve := (Type_resolve INSTANCES NAMESPACE).
Abbreviation presolve := (Part_resolve INSTANCES NAMESPACE).

Lemma Type_resolve_unfold (t : Type_) :
  resolve t =
  if Type_is_empty t then t
  else match t_xml t with
       | Some x => mkType (t_xml t) (override t) (map presolve (parts t))
                     (bind_target INSTANCES NAMESPACE x (map presolve (parts t)))
       | None => t
       end.
Proof.
  destruct t as [x o ps g]. simpl.
  destruct (Type_is_empty (mkType x o ps g)); [reflexivity|].
  destruct x; reflexivity.
Qed.

Lemma Type_is_empty_xml (t t' : Type_) :
  t_xml t = t_xml t' -> Type_is_empty t = Type_is_empty t'.
Proof. unfold Type_is_empty. by intros ->. Qed.

Lemma t_xml_resolve (t : Type_) : t_xml (resolve t) = t_xml t.
Proof.
  rewrite Type_resolve_unfold.
  destruct (Type_is_empty t); [reflexivity|].
  destruct (t_xml t) eqn:Hx; simpl; congruence.
Qed.

Lemma override_resolve (t : Type_) : override (resolve t) = override t.
Proof.
  rewrite Type_resolve_unfold.
  destruct (Type_is_empty t); [reflexivity|].
  destruct (t_xml t) eqn:Hx; reflexivity.
Qed.

Lemma Type_is_empty_None (t : Type_) : t_xml t = None -> Type_is_empty t = true.
Proof. unfold Type_is_empty. by intros ->. Qed.

Lemma Part_qualname_resolve (p : Part) : Part_qualname (presolve p) = Part_qualname p.
Proof. by destruct p. Qed.

Lemma bind_target_head (x : Element) (ps ps' : list Part) :
  Part_qualname <$> head ps = Part_qualname <$> head ps' ->
  bind_target INSTANCES NAMESPACE x ps = bind_target INSTANCES NAMESPACE x ps'.
Proof.
  unfold bind_target. intros Hhd.
  assert (is_nil ps = is_nil ps') as ->
    by (destruct ps, ps'; simpl in Hhd |- *; congruence).
  assert (head ps ≫= Part_qualname = head ps' ≫= Part_qualname) as ->
    by (destruct ps, ps'; simpl in Hhd |- *; congruence).
  reflexivity.
Qed.

(** A type expression that was resolved is left as it is by [resolve]. *)
Lemma Type_resolve_idempotent (t : Type_) : resolve (resolve t) = resolve t.
Proof.
  induction t as [x o ps g IH] using Type_ind_parts.
  rewrite (Type_resolve_unfold (resolve _)).
  rewrite (Type_is_empty_xml (resolve (mkType x o ps g)) (mkType x o ps g))
    by apply t_xml_resolve.
  destruct (Type_is_empty (mkType x o ps g)) eqn:Hemp; [reflexivity|].
  rewrite t_xml_resolve, override_resolve.
  rewrite Type_resolve_unfold, Hemp. simpl.
  destruct x as [x|]; [|reflexivity]. simpl.
  assert (map presolve (map presolve ps) = map presolve ps) as Hps.
  { clear Hemp. induction IH as [|p ps Hp _ IHps]; [reflexivity|]. simpl. f_equal; [|exact IHps].
    destruct p as [s|t]; simpl in *; [reflexivity|]. by rewrite Hp. }
  rewrite Hps. reflexivity.
Qed.

Lemma Part_resolve_idempotent (p : Part) : presolve (presolve p) = presolve p.
Proof. destruct p; simpl; [reflexivity|]. by rewrite Type_resolve_idempotent. Qed.

(** What [resolve] binds: the entry of the ID registry when that is
    truthy; otherwise the entry of the qualified-name registry under the
    placeholder, when the first part is a nested type expression and there
    is such an entry; otherwise the entry of the ID registry again, if any.
    A string has no [qualname], and the [qualname] of a [Type] is the
    placeholder. *)
Lemma bind_target_spec (x : Element) (ps : list Part) :
  bind_target INSTANCES NAMESPACE x ps =
  let by_id := INSTANCES !! attrib_get (attrib x) "refid" "" in
  if target_bool by_id then by_id
  else match head ps with
       | Some (PType _) =>
           match NAMESPACE !! "???" with
           | Some e => Some e
           | None => by_id
           end
       | _ => by_id
       end.
Proof.
  unfold bind_target. cbv zeta.
  destruct (target_bool _); [reflexivity|].
  destruct ps as [|[s|t] ps]; reflexivity.
Qed.

End ResolveFacts.

(** C4. Where the specification has the second lookup read the qualified
    name of the first part, [resolve] reads the attribute [qualname] of the
    first part: a string has none, and a nested type expression answers with
    the placeholder, whatever it spells. So the target that [resolve] binds
    is the entry of the ID registry under the node's [refid] when that is
    truthy, and otherwise at most the entry that the qualified-name registry
    holds under the placeholder. After the class built from [ex_class_xml]
    was constructed and resolved, both registries hold it, the second under
    [ogdf.Graph]; the type built from [ex_graph_type_xml] spells that name
    in its first part, and the type built from [ex_graph_nested_xml] wraps a
    reference that is bound to the class and renders that name: [resolve]
    leaves the target of both unbound, where resolution as the
    specification words it binds both to the class. *)
Theorem C4_fallback_reads_placeholder :
  (forall (INSTANCES NAMESPACE : gmap string ParsedElement) (t : Type_),
     Type_is_empty t = false ->
     let r := Type_resolve INSTANCES NAMESPACE t in
     let by_id := INSTANCES !! refid t in
     parts r = Part_resolve INSTANCES NAMESPACE <$> parts t /\
     target r =
       if target_bool by_id then by_id
       else match head (parts t) with
            | Some (PType _) =>
                match NAMESPACE !! "???" with
                | Some e => Some e
                | None => by_id
                end
            | _ => by_id
            end) /\
  (exists c : Class_,
     Class_init sample_parse ex_class_xml None = Ok c /\
     let INSTANCES := register_instance ex_class_xml (element c) ∅ in
     let graph := (Class_resolve INSTANCES ∅ c).1 in
     let NAMESPACE := (Class_resolve INSTANCES ∅ c).2 in
     let t := Type_init (Some ex_graph_type_xml) in
     let u := Type_init (Some ex_graph_nested_xml) in
     INSTANCES !! "classogdf_1_1Graph" = Some (element c) /\
     NAMESPACE !! "ogdf.Graph" = Some (element graph) /\
     (Part_str <$> head (parts t) = Some "ogdf.Graph" /\
      target (Type_resolve INSTANCES NAMESPACE t) = None /\
      target (resolve_by_spec INSTANCES NAMESPACE t) = Some (element graph)) /\
     (Part_str <$> head (parts (Type_resolve INSTANCES NAMESPACE u)) = Some "ogdf.Graph" /\
      target (Type_resolve INSTANCES NAMESPACE u) = None /\
      target (resolve_by_spec INSTANCES NAMESPACE u) = Some (element graph))).
Proof.
  split.
  - intros I N t Hemp. cbv zeta. rewrite Type_resolve_unfold, Hemp. unfold refid.
    destruct (t_xml t) as [x|] eqn:Hx.
    + cbn [parts target]. split; [reflexivity|].
      rewrite bind_target_spec. cbv zeta.
      destruct (target_bool _); [reflexivity|].
      by destruct (parts t) as [|[s|t'] ps].
    + by rewrite (Type_is_empty_None t Hx) in Hemp.
  - eexists. split; [vm_compute; reflexivity|]. cbv zeta.
    repeat split; vm_compute; reflexivity.
Qed.

(** ** The probe [is_resolvable] *)

Definition Part_depth (p : Part) : nat :=
  match p with
  | PStr _ => 0
  | PType t => Type_depth t
  end.

Lemma Type_depth_unfold (t : Type_) :
  Type_depth t = S (list_max (map Part_depth (parts t))).
Proof. destruct t as [x o ps g]. reflexivity. Qed.

Section ProbeFacts.
Variable INSTANCES NAMESPACE : gmap string ParsedElement.

Abbreviation R := (Type_resolve INSTANCES NAMESPACE).
Abbreviation PR := (Part_resolve INSTANCES NAMESPACE).
Abbreviation probe := (is_resolvable_fuel INSTANCES NAMESPACE).

Lemma Type_depth_resolve (t : Type_) : Type_depth (R t) = Type_depth t.
Proof.
  induction t as [x o ps g IH] using Type_ind_parts.
  rewrite Type_resolve_unfold.
  destruct (Type_is_empty _); [reflexivity|].
  destruct x as [x|]; [|reflexivity]. simpl. f_equal. f_equal.
  induction IH as [|p ps Hp _ IHps]; [reflexivity|]. simpl. f_equal; [|exact IHps].
  destruct p; simpl in *; [reflexivity|exact Hp].
Qed.

Lemma head_depth (t p : Type_) (rest : list Part) :
  parts t = PType p :: rest -> Type_depth p < Type_depth t.
Proof.
  intros Hps. rewrite (Type_depth_unfold t), Hps. simpl. lia.
Qed.

(** What a resolved type expression that is not empty satisfies. *)
Lemma resolved_fixed (t : Type_) (x : Element) :
  R t = t -> Type_is_empty t = false -> t_xml t = Some x ->
  map PR (parts t) = parts t /\
  target t = bind_target INSTANCES NAMESPACE x (parts t).
Proof.
  intros Hfix Hemp Hx. rewrite Type_resolve_unfold, Hemp, Hx in Hfix.
  assert (map PR (parts t) = parts t) as Hps by (by rewrite <- Hfix at 2).
  split; [exact Hps|]. rewrite <- Hfix at 1. simpl. by rewrite Hps.
Qed.

(** The state a probe leaves behind, for a part [p'] that is itself left
    alone by [resolve]. *)
Lemma probe_state_fixed (t p p' : Type_) (rest : list Part) :
  R t = t -> parts t = PType p :: rest -> R p' = p' ->
  R (set_parts t (PType p' :: rest)) = set_parts t (PType p' :: rest).
Proof.
  intros Hfix Hps Hp'. rewrite Type_resolve_unfold.
  rewrite (Type_is_empty_xml _ t) by reflexivity.
  destruct (Type_is_empty t) eqn:Hemp; [reflexivity|].
  simpl t_xml. destruct (t_xml t) as [x|] eqn:Hx; [|reflexivity].
  destruct (resolved_fixed t x Hfix Hemp Hx) as [Hmap Htg].
  unfold set_parts. rewrite Hx. simpl. rewrite Hp'.
  rewrite Hps in Hmap. simpl in Hmap. injection Hmap as _ Hrest. rewrite Hrest.
  f_equal. rewrite Htg, Hps. by apply bind_target_head.
Qed.

Lemma probe_S (n : nat) (t : Type_) :
  probe (S n) t =
  match target (R t) with
  | Some _ => Some (true, R t)
  | None =>
      match parts (R t) with
      | PType p :: rest =>
          match probe n p with
          | Some (b, p') => Some (b, set_parts (R t) (PType p' :: rest))
          | None => None
          end
      | _ => Some (false, R t)
      end
  end.
Proof. reflexivity. Qed.

Lemma probe_spec (n : nat) :
  forall t, Type_depth t <= n ->
  exists b t',
    probe n t = Some (b, t') /\
    target t' = target (R t) /\ Type_depth t' = Type_depth t /\
    R t' = t' /\ probe n t' = Some (b, t').
Proof.
  induction n as [|n IH]; intros t Hd.
  { rewrite Type_depth_unfold in Hd. lia. }
  rewrite probe_S.
  pose proof (Type_resolve_idempotent INSTANCES NAMESPACE t) as Hfix.
  pose proof (Type_depth_resolve t) as Hdep.
  destruct (target (R t)) as [e|] eqn:Htg.
  { exists true, (R t). repeat split; try done.
    by rewrite probe_S, Hfix, Htg. }
  destruct (parts (R t)) as [|[s|p] rest] eqn:Hps.
  - exists false, (R t). repeat split; try done.
    by rewrite probe_S, Hfix, Htg, Hps.
  - exists false, (R t). repeat split; try done.
    by rewrite probe_S, Hfix, Htg, Hps.
  - pose proof (head_depth _ _ _ Hps) as Hlt.
    destruct (IH p ltac:(lia)) as (b & p' & Hprobe & _ & Hdp & Hfp & Hstable).
    rewrite Hprobe. exists b, (set_parts (R t) (PType p' :: rest)).
    assert (R (set_parts (R t) (PType p' :: rest)) = set_parts (R t) (PType p' :: rest))
      as Hfix' by (by apply probe_state_fixed with p).
    repeat split; try done.
    + rewrite <- Hdep.
      rewrite (Type_depth_unfold (set_parts _ _)), (Type_depth_unfold (R t)).
      change (parts (set_parts (R t) (PType p' :: rest))) with (PType p' :: rest).
      rewrite Hps. simpl. by rewrite Hdp.
    + rewrite probe_S, Hfix'.
      change (target (set_parts (R t) (PType p' :: rest))) with (target (R t)).
      change (parts (set_parts (R t) (PType p' :: rest))) with (PType p' :: rest).
      rewrite Htg, Hstable. reflexivity.
Qed.

End ProbeFacts.

(** C8. With the registries unchanged, a second [resolve] leaves a type
    expression as the first one made it. A probe [is_resolvable] answers,
    and the state it leaves has the [target] that [resolve] binds; after it,
    neither [resolve] nor another probe changes anything, and the probe
    gives the same answer. *)
Theorem C8_resolve_idempotent (INSTANCES NAMESPACE : gmap string ParsedElement)
    (t : Type_) :
  let resolve := Type_resolve INSTANCES NAMESPACE in
  let is_resolvable := Type_is_resolvable INSTANCES NAMESPACE in
  resolve (resolve t) = resolve t /\
  target (resolve (resolve t)) = target (resolve t) /\
  (exists b t',
     is_resolvable t = Some (b, t') /\
     target t' = target (resolve t) /\
     resolve t' = t' /\
     is_resolvable t' = Some (b, t')) /\
  (exists b t',
     is_resolvable (resolve t) = Some (b, t') /\
     target t' = target (resolve t)).
Proof.
  intros resolve is_resolvable. subst resolve is_resolvable.
  pose proof (Type_resolve_idempotent INSTANCES NAMESPACE t) as Hfix.
  split; [exact Hfix|]. split; [by rewrite Hfix|]. split.
  - destruct (probe_spec INSTANCES NAMESPACE (Type_depth t) t ltac:(lia))
      as (b & t' & Hp & Htg & Hd & Hf & Hs).
    exists b, t'. unfold Type_is_resolvable. rewrite Hd. done.
  - destruct (probe_spec INSTANCES NAMESPACE (Type_depth (Type_resolve INSTANCES NAMESPACE t))
                (Type_resolve INSTANCES NAMESPACE t) ltac:(lia))
      as (b & t' & Hp & Htg & _).
    exists b, t'. split; [exact Hp|]. by rewrite Htg, Hfix.
Qed.

(** ** The repair loop *)

Section CheckFacts.
Variable ast_parse : string -> result (list string).
Context {A : Type} `{PyClass A}.


Lemma read_qualname_rendered (self : A) (val : string) :
  py_str self = Ok val ->
  exists out, read_qualname self = (out, Ok (qualname (element self))).
Proof.
  intros Hval. unfold read_qualname. rewrite Hval.
  destruct (qualname_unknown _); eauto.
Qed.


(** An attempt succeeds only on a rendering that parses; when it fails on a
    rendering, the parser raised the exception. *)
Lemma attempt_spec (self : A) :
  match attempt ast_parse self with
  | (_, (_, Ok _)) => exists val ws, py_str self = Ok val /\ ast_parse val = Ok ws
  | (v, (_, Raise e)) =>
      match py_str self with
      | Ok val => v = Some val /\ ast_parse val = Raise e
      | Raise x => v = None /\ e = x
      end
  end.
Proof.
  unfold attempt. destruct (py_str self) as [val|x] eqn:Hval; [|done].
  destruct (ast_parse val) as [ws|e] eqn:Hparse; [|done].
  unfold report_warnings. destruct ws as [|w ws]; [eauto|].
  destruct (read_qualname_rendered self val Hval) as [out ->]. eauto.
Qed.



End CheckFacts.


(** ** Single steps of the repair loop *)

Section CheckSteps.
Variable ast_parse : string -> result (list string).
Context {A : Type} `{PyClass A}.

Lemma check_from_pass (fuel i : nat) (self : A) (stderr : list string) (val : string)
    (ws : list string) :
  py_str self = Ok val -> ast_parse val = Ok ws ->
  exists printed, check_from ast_parse fuel i self stderr = Passed self printed.
Proof.
  intros Hval Hparse.
  assert (exists out, attempt ast_parse self = (Some val, (out, Ok ()))) as [out Hatt].
  { unfold attempt. rewrite Hval, Hparse. unfold report_warnings.
    destruct ws as [|w ws]; [eauto|].
    destruct (read_qualname_rendered self val Hval) as [out ->]. eauto. }
  destruct fuel; simpl; rewrite Hatt; eauto.
Qed.

Lemma check_from_repair (fuel i : nat) (self : A) (stderr : list string) (val : string)
    (e : exn) (fix_i : A -> A) :
  py_str self = Ok val -> ast_parse val = Raise e -> fixN i = Some fix_i ->
  check_from ast_parse (S fuel) i self stderr
  = check_from ast_parse fuel (S i) (fix_i self) stderr.
Proof.
  intros Hval Hparse Hfix. simpl. unfold attempt. rewrite Hval, Hparse, Hfix.
  by rewrite app_nil_r.
Qed.

Lemma checked_pass (self : A) (val : string) (ws : list string) :
  py_str self = Ok val -> ast_parse val = Ok ws -> checked ast_parse self = Ok self.
Proof.
  intros Hval Hparse. unfold checked, check.
  destruct (check_from_pass max_fix 1 self [] val ws Hval Hparse) as [out ->].
  reflexivity.
Qed.

End CheckSteps.

(** ** The member [operator[]] *)

Lemma Param_init_int (ast_parse : string -> result (list string)) (ws : list string) :
  ast_parse "_ : int" = Ok ws ->
  exists p, Param_init ast_parse param_int None = Ok p /\ Param_new param_int None = Ok p.
Proof.
  intros Hparse. unfold Param_init.
  destruct (Param_new param_int None) as [p|e] eqn:Hnew; [|vm_compute in Hnew; discriminate].
  vm_compute in Hnew. injection Hnew as <-.
  eexists. split; [|reflexivity].
  simpl. eapply (checked_pass ast_parse); [reflexivity|]. exact Hparse.
Qed.

(** C3, as amended. With a parser that accepts the rendering of the
    parameter, rejects the definition named [operator[]] and accepts the one
    named [__getitem__], the function of the example is built with the name
    [__getitem__], its parameter list is [self] followed by the parameter
    under the placeholder name, [_ : int], and its return annotation is
    [None]: the return type expression is empty, hence falsy, and the
    rendering of a function puts [None] in the place of a falsy return type
    (the empty type expression itself renders as [Any]). *)
Theorem C3_getitem_amended (ast_parse : string -> result (list string))
    (ws0 ws1 : list string) (e : exn) :
  ast_parse "_ : int" = Ok ws0 ->
  ast_parse raw_getitem = Raise e ->
  ast_parse (def_getitem "None") = Ok ws1 ->
  exists f,
    Function_init ast_parse xml_getitem None = Ok f /\
    fn_name f = "__getitem__" /\
    Param_str <$> fn_params f = ["_ : int"] /\
    Type_bool (fn_returnt f) = false /\
    Type_str (fn_returnt f) = "Any" /\
    Function_str f = Ok (def_getitem "None").
Proof.
  intros H0 Hraw Hgood.
  destruct (Param_init_int ast_parse ws0 H0) as (p & Hp & Hnew).
  unfold Function_init.
  change (find_text "name" xml_getitem) with (Ok "operator[]").
  change (iterfind "param" xml_getitem) with [param_int].
  change (find "templateparamlist" xml_getitem) with (@None Element).
  simpl. rewrite Hp. simpl.
  vm_compute in Hnew. injection Hnew as <-.
  set (f0 := mkFunction _ _ _ _ _ _).
  unfold checked, check.
  change (@max_fix Function Function_class) with 5.
  rewrite (check_from_repair ast_parse 4 1 f0 [] raw_getitem e Function_fix1); try done.
  destruct (check_from_pass ast_parse 4 2 (Function_fix1 f0) [] (def_getitem "None") ws1)
    as [out ->]; try done.
  eexists. split; [reflexivity|]. repeat split; reflexivity.
Qed.

Lemma C3_getitem_amended_witness :
  exists f,
    Function_init sample_parse xml_getitem None = Ok f /\
    fn_name f = "__getitem__" /\
    Param_str <$> fn_params f = ["_ : int"] /\
    Type_bool (fn_returnt f) = false /\
    Type_str (fn_returnt f) = "Any" /\
    Function_str f = Ok (def_getitem "None").
Proof.
  apply (C3_getitem_amended sample_parse [] [] (mkExn "SyntaxError" "invalid syntax"));
    vm_compute; reflexivity.
Defined.

(** C3 as stated fails: the definition built for the example ends in
    [-> None], not in [-> Any]. *)
Lemma C3_counterexample :
  exists f,
    Function_init sample_parse xml_getitem None = Ok f /\
    Function_str f = Ok (def_getitem "None") /\
    Function_str f <> Ok (def_getitem "Any").
Proof.
  eexists. split; [vm_compute; reflexivity|].
  split; [vm_compute; reflexivity|].
  vm_compute. discriminate.
Qed.

(** ** Overload marking *)

Lemma mark_overloaded_idem (m : Member) :
  mark_overloaded (mark_overloaded m) = mark_overloaded m.
Proof. by destruct m. Qed.

Lemma member_name_mark (m : Member) : member_name (mark_overloaded m) = member_name m.
Proof. by destruct m. Qed.

Lemma existsb_eqb_elem (i : nat) (l : list nat) : existsb (Nat.eqb i) l = true <-> i ∈ l.
Proof.
  rewrite existsb_exists, list_elem_of_In. split.
  - intros (j & Hj & Heq). apply Nat.eqb_eq in Heq. by subst.
  - intros Hi. exists i. split; [done|]. apply Nat.eqb_refl.
Qed.

(** Marking the positions of a list [l] marks exactly them. *)
Lemma lookup_mark_list (l : list nat) :
  forall (ms : list Member) (j : nat),
    foldl (fun ms i => alter mark_overloaded i ms) ms l !! j
    = (if existsb (Nat.eqb j) l then mark_overloaded else id) <$> ms !! j.
Proof.
  induction l as [|i l IH]; intros ms j; simpl.
  { by destruct (ms !! j). }
  rewrite IH. destruct (Nat.eqb_spec j i) as [->|Hne]; simpl.
  - rewrite list_lookup_alter_eq. destruct (ms !! i) as [m|]; simpl; [|done].
    destruct (existsb _ l); simpl; by rewrite ?mark_overloaded_idem.
  - by rewrite list_lookup_alter_ne.
Qed.

Lemma lookup_mark_all (ns : list (string * list nat)) :
  forall (ms : list Member) (j : nat),
    foldl mark_group ms ns !! j
    = (if marked_by ns j then mark_overloaded else id) <$> ms !! j.
Proof.
  induction ns as [|[k l] ns IH]; intros ms j; simpl.
  { by destruct (ms !! j). }
  rewrite IH. unfold mark_group. simpl.
  destruct (1 <? length l); simpl.
  - rewrite lookup_mark_list. destruct (ms !! j) as [m|]; simpl; [|done].
    destruct (existsb (Nat.eqb j) l), (marked_by ns j); simpl;
      by rewrite ?mark_overloaded_idem.
  - done.
Qed.

Lemma marked_by_spec (ns : list (string * list nat)) (i : nat) :
  marked_by ns i = true <-> exists k l, (k, l) ∈ ns /\ 1 < length l /\ i ∈ l.
Proof.
  unfold marked_by. rewrite existsb_exists. split.
  - intros ([k l] & Hin & Hb). simpl in Hb. apply andb_true_iff in Hb as [Hlen Hi].
    exists k, l. split; [by apply list_elem_of_In|]. split.
    + by apply Nat.ltb_lt.
    + by apply existsb_eqb_elem.
  - intros (k & l & Hin & Hlen & Hi). exists (k, l). split; [by apply list_elem_of_In|].
    simpl. apply andb_true_iff. split; [by apply Nat.ltb_lt|by apply existsb_eqb_elem].
Qed.

(** Positions *)

Lemma positions_from_app (off : nat) (key : string) (ms : list Member) (m : Member) :
  positions_from off key (ms ++ [m])
  = positions_from off key ms ++ (if has_name key m then [off + length ms] else []).
Proof.
  revert off. induction ms as [|m' ms IH]; intros off; simpl.
  - rewrite Nat.add_0_r. by rewrite app_nil_r.
  - rewrite IH. rewrite <- app_assoc. f_equal. f_equal.
    destruct (has_name key m); [|done]. f_equal. lia.
Qed.

Lemma elem_of_positions_from (off : nat) (key : string) (ms : list Member) (i : nat) :
  i ∈ positions_from off key ms <->
  exists j m, i = off + j /\ ms !! j = Some m /\ has_name key m = true.
Proof.
  revert off. induction ms as [|m' ms IH]; intros off; simpl.
  { rewrite elem_of_nil. split; [done|]. by intros (j & m & _ & ? & _). }
  rewrite elem_of_app, IH. split.
  - intros [Hhd|(j & m & -> & Hj & Hm)].
    + destruct (has_name key m') eqn:Hn; [|by apply elem_of_nil in Hhd].
      apply list_elem_of_singleton in Hhd as ->.
      exists 0, m'. split; [lia|done].
    + exists (S j), m. split; [lia|done].
  - intros ([|j] & m & -> & Hj & Hm).
    + left. simpl in Hj. injection Hj as ->. rewrite Hm.
      apply list_elem_of_singleton. lia.
    + right. exists j, m. split; [lia|done].
Qed.

Lemma NoDup_positions_from (off : nat) (key : string) (ms : list Member) :
  NoDup (positions_from off key ms).
Proof.
  revert off. induction ms as [|m ms IH]; intros off; simpl; [constructor|].
  destruct (has_name key m); simpl; [|apply IH].
  apply NoDup_cons. split; [|apply IH].
  rewrite elem_of_positions_from. intros (j & m' & Heq & _). lia.
Qed.

Lemma two_distinct (l : list nat) (i : nat) :
  NoDup l -> i ∈ l -> (1 < length l <-> exists j, j <> i /\ j ∈ l).
Proof.
  intros Hnd Hi. split.
  - destruct l as [|x [|y l]]; simpl; [lia|lia|]. intros _.
    apply NoDup_cons in Hnd as [Hx _].
    destruct (decide (x = i)) as [->|Hne].
    + exists y. split; [|apply elem_of_cons; right; apply elem_of_cons; by left].
      intros ->. apply Hx. apply elem_of_cons. by left.
    + exists x. split; [done|apply elem_of_cons; by left].
  - intros (j & Hne & Hj). destruct l as [|x [|y l]]; simpl in *;
      [by apply elem_of_nil in Hj| |lia].
    apply list_elem_of_singleton in Hi, Hj. congruence.
Qed.

(** The namespace built by the first loop *)

Lemma has_name_eq (key : string) (m : Member) :
  has_name key m = true <-> member_name m = Some key.
Proof.
  unfold has_name. destruct (member_name m) as [n|]; [|done].
  destruct (String.eqb_spec n key); split; congruence.
Qed.

Lemma namespace_append_keys (ns : list (string * list nat)) (key : string) (i : nat) :
  (namespace_append ns key i).*1
  = if bool_decide (key ∈ ns.*1) then ns.*1 else ns.*1 ++ [key].
Proof.
  induction ns as [|[k l] ns IH]; [done|].
  cbn [namespace_append].
  destruct (String.eqb_spec k key) as [->|Hne]; rewrite !fmap_cons; cbn [fst].
  - rewrite bool_decide_eq_true_2; [done|apply elem_of_cons; by left].
  - rewrite IH. destruct (decide (key ∈ ns.*1)) as [Hin|Hnin].
    + rewrite !bool_decide_eq_true_2; [done|apply elem_of_cons; by right|done].
    + rewrite !bool_decide_eq_false_2; [done| |done].
      rewrite elem_of_cons. intros [?|?]; done.
Qed.

Lemma elem_of_namespace_append (ns : list (string * list nat)) (key : string) (i : nat)
    (k : string) (l : list nat) :
  NoDup (ns.*1) ->
  (k, l) ∈ namespace_append ns key i <->
  (k <> key /\ (k, l) ∈ ns) \/
  (k = key /\ ((exists l0, (key, l0) ∈ ns /\ l = l0 ++ [i]) \/
               ((key ∉ ns.*1) /\ l = [i]))).
Proof.
  induction ns as [|[k' l'] ns IH]; simpl; intros Hnd.
  { rewrite list_elem_of_singleton. split.
    - intros Heq. injection Heq as -> ->. right. split; [done|]. right.
      split; [apply not_elem_of_nil|done].
    - intros [[_ Hin]|[-> [(l0 & Hin & _)|[_ ->]]]]; [by apply elem_of_nil in Hin
                                                     |by apply elem_of_nil in Hin|done]. }
  apply NoDup_cons in Hnd as [Hk' Hnd'].
  assert (forall l0, (k', l0) ∈ ns -> False) as Hfresh.
  { intros l0 Hin. apply Hk'. apply list_elem_of_fmap. by exists (k', l0). }
  destruct (String.eqb_spec k' key) as [->|Hne]; simpl.
  - rewrite elem_of_cons. split.
    + intros [Heq|Hin].
      * injection Heq as -> ->. right. split; [done|]. left. exists l'.
        split; [apply elem_of_cons; by left|done].
      * left. split; [|apply elem_of_cons; by right]. intros ->. by eapply Hfresh.
    + intros [[Hne Hin]|[-> [(l0 & Hin & ->)|[Hnin _]]]].
      * apply elem_of_cons in Hin as [Heq|Hin]; [congruence|by right].
      * apply elem_of_cons in Hin as [Heq|Hin]; [injection Heq as <-; by left|].
        exfalso. by eapply Hfresh.
      * exfalso. apply Hnin. apply elem_of_cons. by left.
  - rewrite elem_of_cons, IH by done. split.
    + intros [Heq|[[Hk Hin]|[-> [(l0 & Hin & ->)|[Hnin ->]]]]].
      * injection Heq as -> ->. left. split; [done|apply elem_of_cons; by left].
      * left. split; [done|apply elem_of_cons; by right].
      * right. split; [done|]. left. exists l0. split; [apply elem_of_cons; by right|done].
      * right. split; [done|]. right. split; [|done].
        rewrite elem_of_cons. intros [?|?]; done.
    + intros [[Hk Hin]|[-> [(l0 & Hin & ->)|[Hnin ->]]]].
      * apply elem_of_cons in Hin as [Heq|Hin]; [by left|]. right. left. done.
      * apply elem_of_cons in Hin as [Heq|Hin]; [congruence|].
        right. right. split; [done|]. left. by exists l0.
      * right. right. split; [done|]. right. split; [|done].
        intros ?. apply Hnin. apply elem_of_cons. by right.
Qed.

Lemma ns_inv_step (scope_name : string) (st : Scope) (m : Member) :
  ns_inv (sc_namespace st) (sc_members st) ->
  ns_inv (sc_namespace (index_member scope_name st m))
         (sc_members (index_member scope_name st m)).
Proof.
  intros (Hnd & Hpos & Hkeys). unfold index_member. simpl.
  set (m' := rename_init scope_name m).
  destruct (member_name m') as [key|] eqn:Hname.
  - split; [|split].
    + rewrite namespace_append_keys. case_bool_decide as Hin; [done|].
      apply NoDup_app. split; [done|]. split; [|apply NoDup_singleton].
      intros x Hx Hx'. apply list_elem_of_singleton in Hx' as ->. done.
    + intros k l Hin. apply elem_of_namespace_append in Hin; [|done].
      rewrite positions_from_app. simpl.
      destruct Hin as [[Hne Hin]|[-> [(l0 & Hin & ->)|[Hnin ->]]]].
      * rewrite (Hpos k l Hin).
        destruct (has_name k m') eqn:Hn; [|by rewrite app_nil_r].
        apply has_name_eq in Hn. congruence.
      * rewrite (Hpos key l0 Hin).
        assert (has_name key m' = true) as -> by (by apply has_name_eq). done.
      * assert (has_name key m' = true) as -> by (by apply has_name_eq).
        assert (positions_from 0 key (sc_members st) = []) as ->; [|done].
        destruct (positions_from 0 key (sc_members st)) as [|i l] eqn:Hp; [done|].
        exfalso. assert (i ∈ positions_from 0 key (sc_members st)) as Hi
          by (rewrite Hp; apply elem_of_cons; by left).
        apply elem_of_positions_from in Hi as (j & mj & _ & Hj & Hn).
        apply has_name_eq in Hn. apply Hnin. by eapply Hkeys.
    + intros i mi k Hi Hk. rewrite namespace_append_keys.
      apply lookup_app_Some in Hi as [Hi|[_ Hi]].
      * case_bool_decide; [by eapply Hkeys|]. apply elem_of_app. left. by eapply Hkeys.
      * apply list_lookup_singleton_Some in Hi as [_ <-].
        assert (k = key) as -> by congruence.
        case_bool_decide; [done|]. apply elem_of_app. right.
        by apply list_elem_of_singleton.
  - split; [done|split].
    + intros k l Hin. rewrite positions_from_app.
      assert (has_name k m' = false) as ->.
      { unfold has_name. by rewrite Hname. }
      rewrite app_nil_r. by apply Hpos.
    + intros i mi k Hi Hk.
      apply lookup_app_Some in Hi as [Hi|[_ Hi]]; [by eapply Hkeys|].
      apply list_lookup_singleton_Some in Hi as [_ <-]. congruence.
Qed.

Lemma index_loop_spec (scope_name : string) (ms : list Member) :
  forall st,
    ns_inv (sc_namespace st) (sc_members st) ->
    let st' := foldl (index_member scope_name) st ms in
    ns_inv (sc_namespace st') (sc_members st') /\
    sc_members st' = sc_members st ++ map (rename_init scope_name) ms.
Proof.
  induction ms as [|m ms IH]; intros st Hinv; simpl.
  { split; [done|by rewrite app_nil_r]. }
  destruct (IH (index_member scope_name st m) (ns_inv_step scope_name st m Hinv))
    as [Hinv' Hms].
  split; [done|]. rewrite Hms. simpl. by rewrite <- app_assoc.
Qed.



(** The members after [Class.__init__]: those that [do_iter] yielded, a
    function named like the scope renamed, and marked exactly at the
    positions that share their name with another position. *)
Lemma index_members_spec (scope_name : string) (members : list Member)
    (templates : list Template) :
  let renamed := rename_init scope_name <$> members in
  let final := sc_members (index_members scope_name members templates) in
  exists marked : nat -> bool,
    (forall i, final !! i = (if marked i then mark_overloaded else id) <$> renamed !! i) /\
    (forall i m, renamed !! i = Some m ->
       (marked i = true <->
        exists k j m', j <> i /\ renamed !! j = Some m' /\
                       member_name m = Some k /\ member_name m' = Some k)).
Proof.
  intros renamed final. subst final. unfold index_members. cbn [sc_members].
  destruct (index_loop_spec scope_name members (mkScope [] [] [] templates))
    as [(Hnd & Hpos & Hkeys) Hms].
  { split; [constructor|]. split.
    - intros k l Hin. by apply elem_of_nil in Hin.
    - intros j m k Hj. done. }
  cbn [sc_members app] in Hms.
  set (st := foldl (index_member scope_name) _ members) in *.
  change (map (rename_init scope_name) members) with renamed in Hms.
  rewrite Hms in Hpos, Hkeys.
  exists (marked_by (sc_namespace st)). split.
  { intros i. by rewrite lookup_mark_all, Hms. }
  intros i m Hi. rewrite marked_by_spec. split.
  - intros (k & l & Hin & Hlen & Hil).
    pose proof (Hpos k l Hin) as ->.
    pose proof (NoDup_positions_from 0 k renamed) as Hnodup.
    apply (two_distinct _ i Hnodup Hil) in Hlen as (j & Hne & Hj).
    apply elem_of_positions_from in Hil as (i' & mi & Heq & Hmi & Hni).
    apply elem_of_positions_from in Hj as (j' & mj & Heq' & Hmj & Hnj).
    simpl in Heq, Heq'. subst i' j'.
    assert (mi = m) as -> by congruence.
    apply has_name_eq in Hni, Hnj. by exists k, j, mj.
  - intros (k & j & m' & Hne & Hj & Hk & Hk').
    pose proof (Hkeys i m k Hi Hk) as Hkin.
    apply list_elem_of_fmap in Hkin as ([k' l] & Hkeq & Hin). simpl in Hkeq. subst k'.
    exists k, l. split; [done|]. pose proof (Hpos k l Hin) as ->.
    assert (i ∈ positions_from 0 k renamed) as Hil.
    { apply elem_of_positions_from. exists i, m. split; [done|]. split; [done|].
      by apply has_name_eq. }
    split; [|done].
    apply (two_distinct _ i (NoDup_positions_from 0 k renamed) Hil).
    exists j. split; [done|].
    apply elem_of_positions_from. exists j, m'. split; [done|]. split; [done|].
    by apply has_name_eq.
Qed.

Lemma member_name_if_marked (b : bool) (m : Member) :
  member_name ((if b then mark_overloaded else id) m) = member_name m.
Proof. destruct b; [apply member_name_mark|done]. Qed.



(** The constructors leave their instances unmarked: the strategies of the
    repair loop change names only. *)
Lemma check_from_preserves (ast_parse : string -> result (list string))
    {A : Type} `{PyClass A} (P : A -> Prop) :
  (forall i fix_i self, fixN i = Some fix_i -> P self -> P (fix_i self)) ->
  forall fuel i self stderr self' printed,
    P self ->
    check_from ast_parse fuel i self stderr = Passed self' printed -> P self'.
Proof.
  intros Hfix fuel. induction fuel as [|fuel IH]; intros i self stderr self' printed HP; simpl.
  - destruct (attempt ast_parse self) as [v [out [u|e]]].
    + intros Heq. by injection Heq as <- _.
    + unfold surface_failure. destruct (fixN i); by destruct (read_qualname self) as [? []].
  - destruct (attempt ast_parse self) as [v [out [u|e]]].
    + intros Heq. by injection Heq as <- _.
    + destruct (fixN i) as [fix_i|] eqn:Hi.
      * apply IH. by eapply Hfix.
      * unfold surface_failure. by destruct (read_qualname self) as [? []].
Qed.

Lemma Function_init_unmarked (ast_parse : string -> result (list string))
    (xml : Element) (container : option ParsedElement) (f : Function) :
  Function_init ast_parse xml container = Ok f -> unmarked (MFunction f) = true.
Proof.
  unfold Function_init. intros Hinit.
  destruct (find_text "name" xml) as [nm|]; [simpl in Hinit|done].
  destruct (mapM _ (iterfind "param" xml)) as [params|]; [simpl in Hinit|done].
  destruct (match find "templateparamlist" xml with Some _ => _ | None => _ end)
    as [templ|]; [simpl in Hinit|done].
  unfold checked, check in Hinit.
  destruct (check_from _ _ _ _ _) as [f' printed|] eqn:Hcheck; [|done].
  injection Hinit as ->.
  apply (check_from_preserves ast_parse (fun f => unmarked (MFunction f) = true))
    in Hcheck; [done| |done].
  intros i fix_i self Hi Hself.
  destruct i as [|[|[|[|[|[|i]]]]]]; simpl in Hi; try discriminate;
    injection Hi as <-;
    unfold Function_fix1, Function_fix2, Function_fix3, Function_fix4, Function_fix5;
    repeat (destruct (partition _ _) as [[? ?] ?]);
    repeat match goal with |- context [if ?b then _ else _] => destruct b end;
    exact Hself.
Qed.

(** ** Rules that find nothing to rewrite *)

Lemma sub_from_no_match (r : regex) (repl : chars) (s : chars) :
  forall prev, search r prev s = false -> sub_from r repl 0 prev s = s.
Proof.
  induction s as [|c s IH]; intros prev Hs; simpl in *.
  - by destruct (match_at r prev []).
  - destruct (match_at r prev (c :: s)); [done|]. f_equal. by apply IH.
Qed.

Lemma sub_no_match (r : regex) (repl : string) (s : chars) :
  search r None s = false -> sub r repl s = s.
Proof. apply sub_from_no_match. Qed.

Lemma replace_absent (old new s : chars) :
  contains old s = false -> replace old new s = s.
Proof.
  unfold replace. induction s as [|c s IH]; simpl; [done|].
  intros Hc. apply orb_false_iff in Hc as [Hhd Htl].
  rewrite Hhd. f_equal. by apply IH.
Qed.

Lemma repl_absent (old new : string) (s : chars) :
  contains (L old) s = false -> repl old new s = s.
Proof. apply replace_absent. Qed.

(** ** What a match of a pattern looks like *)

Lemma in_all_ascii (c : ascii) : In c all_ascii.
Proof.
  unfold all_ascii. rewrite <- (ascii_nat_embedding c).
  apply in_map. apply in_seq. pose proof (nat_ascii_bounded c). lia.
Qed.

Lemma class_word_spec (f : ascii -> bool) (c : ascii) :
  class_word f = true -> f c = true -> is_word c = true.
Proof.
  unfold class_word. rewrite forallb_forall. intros Hall Hf.
  specialize (Hall c (in_all_ascii c)). by rewrite Hf in Hall.
Qed.

Lemma first_word_spec (r : regex) (c : ascii) :
  first_word r = true -> firstc r c = true -> is_word c = true.
Proof.
  unfold first_word. rewrite forallb_forall. intros Hall Hf.
  specialize (Hall c (in_all_ascii c)). by rewrite Hf in Hall.
Qed.

Lemma eqc_eq (a b : ascii) : eqc a b = true <-> a = b.
Proof. apply Ascii.eqb_eq. Qed.

Lemma lastc_nil (prev : option ascii) : lastc prev [] = prev.
Proof. reflexivity. Qed.

Lemma lastc_singleton (prev : option ascii) (c : ascii) : lastc prev [c] = Some c.
Proof. reflexivity. Qed.

Lemma lastc_app (prev : option ascii) (m1 m2 : chars) :
  lastc prev (m1 ++ m2) = lastc (lastc prev m1) m2.
Proof.
  unfold lastc. rewrite last_app. by destruct (last m2).
Qed.

Lemma lastc_nonempty (prev : option ascii) (m : chars) :
  m <> [] -> lastc prev m = last m.
Proof.
  unfold lastc. destruct (last m) eqn:Hl; [done|].
  apply last_None in Hl. done.
Qed.

Lemma rmatch_inv (r : regex) :
  forall (R : Type) (prev : option ascii) (s : chars) (caps : captures)
         (k : option ascii -> chars -> captures -> option R) (x : R),
    rmatch r prev s caps k = Some x ->
    exists m s' caps',
      s = m ++ s' /\ k (lastc prev m) s' caps' = Some x /\ match_props r prev m.
Proof.
  induction r as [|c|f|r1 IH1 r2 IH2|r1 IH1 r2 IH2|r1 IH1|name r1 IH1| |];
    intros R prev s caps k x H; simpl in H.
  - exists [], s, caps. repeat split; try done; try constructor.
  - destruct s as [|y s]; [done|]. destruct (eqc y c) eqn:Hy; [|done].
    exists [y], s, caps. unfold match_props. simpl.
    apply eqc_eq in Hy as ->.
    repeat split; try done.
    + constructor; [|constructor]. by apply eqc_eq.
    + by apply eqc_eq.
  - destruct s as [|y s]; [done|]. destruct (f y) eqn:Hy; [|done].
    exists [y], s, caps. unfold match_props. simpl.
    repeat split; try done.
    + by constructor.
    + by apply class_word_spec with f.
    + intros Hf _. by apply class_word_spec with f.
  - apply IH1 in H as (m1 & s1 & caps1 & -> & H & H1).
    apply IH2 in H as (m2 & s2 & caps2 & -> & H & H2).
    exists (m1 ++ m2), s2, caps2. rewrite lastc_app, app_assoc.
    split; [done|]. split; [done|].
    destruct H1 as (Ha1 & Hf1 & He1 & Hk1), H2 as (Ha2 & Hf2 & He2 & Hk2).
    unfold match_props. rewrite !lastc_app. simpl. repeat split.
    + apply Forall_app. split.
      * eapply Forall_impl; [exact Ha1|]. simpl. intros c ->. done.
      * eapply Forall_impl; [exact Ha2|]. simpl. intros c ->. apply orb_true_r.
    + destruct m1 as [|c m1]; simpl.
      * destruct m2 as [|c m2]; simpl in *.
        -- by rewrite Hf1, Hf2.
        -- by rewrite Hf1, Hf2, orb_true_r.
      * by rewrite Hf1.
    + apply orb_true_iff in H0 as [H0|H0].
      * apply andb_true_iff in H0 as [H0 _]. destruct (He1 H0) as [Hne _].
        intros Heq. apply app_eq_nil in Heq as [? ?]. contradiction.
      * destruct (He2 H0) as [Hne _].
        intros Heq. apply app_eq_nil in Heq as [? ?]. contradiction.
    + apply orb_true_iff in H0 as [H0|H0].
      * apply andb_true_iff in H0 as [H0 H0']. destruct (He1 H0) as [_ Hw]. auto.
      * by destruct (He2 H0).
    + intros H0 Hw. apply orb_true_iff in H0 as [H0|H0].
      * apply andb_true_iff in H0 as [H0 H0']. auto.
      * by destruct (He2 H0).
  - destruct (rmatch r1 prev s caps k) as [x1|] eqn:E1.
    + injection H as ->. apply IH1 in E1 as (m & s' & caps' & -> & H & Hp).
      exists m, s', caps'. split; [done|]. split; [done|].
      destruct Hp as (Ha & Hf & He & Hk). unfold match_props. simpl. repeat split.
      * eapply Forall_impl; [exact Ha|]. simpl. intros c ->. done.
      * destruct m; by rewrite Hf.
      * apply andb_true_iff in H0 as [H0 _]. by destruct (He H0).
      * apply andb_true_iff in H0 as [H0 _]. by destruct (He H0).
      * intros H0 Hw. apply andb_true_iff in H0 as [H0 _]. auto.
    + apply IH2 in H as (m & s' & caps' & -> & H & Hp).
      exists m, s', caps'. split; [done|]. split; [done|].
      destruct Hp as (Ha & Hf & He & Hk). unfold match_props. simpl. repeat split.
      * eapply Forall_impl; [exact Ha|]. simpl. intros c ->. apply orb_true_r.
      * destruct m; rewrite Hf; by rewrite orb_true_r.
      * apply andb_true_iff in H0 as [_ H0]. by destruct (He H0).
      * apply andb_true_iff in H0 as [_ H0]. by destruct (He H0).
      * intros H0 Hw. apply andb_true_iff in H0 as [_ H0]. auto.
  - revert H. generalize (length s) at 1. intros n. revert prev s caps.
    induction n as [|n IHn]; intros prev s caps H.
    + exists [], s, caps. split; [done|]. split; [done|].
      unfold match_props. simpl. repeat split; try done; try constructor.
    + destruct (rmatch r1 prev s caps _) as [x1|] eqn:E1.
      * injection H as ->. apply IH1 in E1 as (m1 & s1 & caps1 & -> & H & Hp1).
        destruct (length s1 <? length (m1 ++ s1)) eqn:Hlt; [|done].
        apply IHn in H as (m2 & s2 & caps2 & -> & H & Hp2).
        exists (m1 ++ m2), s2, caps2. rewrite lastc_app, app_assoc.
        split; [done|]. split; [done|].
        destruct Hp1 as (Ha1 & Hf1 & He1 & Hk1), Hp2 as (Ha2 & Hf2 & He2 & Hk2).
        unfold match_props. rewrite !lastc_app. simpl in *. repeat split; try done.
        -- apply Forall_app. split; done.
        -- destruct m1 as [|c m1]; simpl; [|done].
           apply Nat.ltb_lt in Hlt. simpl in Hlt. lia.
        -- intros H0 Hw. auto.
      * exists [], s, caps. split; [done|]. split; [done|].
        unfold match_props. simpl. repeat split; try done; try constructor.
  - apply IH1 in H as (m & s' & caps' & -> & H & Hp).
    eexists m, s', _. split; [done|]. split; [exact H|]. exact Hp.
  - destruct (xorb _ _); [|done].
    exists [], s, caps. split; [done|]. split; [done|].
    unfold match_props. simpl. repeat split; try done; try constructor.
  - destruct prev; [done|].
    exists [], s, caps. split; [done|]. split; [done|].
    unfold match_props. simpl. repeat split; try done; try constructor.
Qed.

Lemma match_at_inv (r : regex) (prev : option ascii) (s : chars) (n : nat)
    (caps : captures) :
  match_at r prev s = Some (n, caps) ->
  exists m s', s = m ++ s' /\ n = length m /\ match_props r prev m.
Proof.
  unfold match_at. intros H.
  apply rmatch_inv in H as (m & s' & caps' & -> & H & Hp).
  exists m, s'. split; [done|]. split; [|done].
  injection H as <- _. rewrite length_app. lia.
Qed.

(** The analyses give what [safe_for] asks. *)
Lemma safe_for_analysis (w0 : ascii) (r : regex) :
  ends_word r = true -> alpha r w0 = false -> safe_for w0 r.
Proof.
  intros Hends Halpha prev s n caps H.
  apply match_at_inv in H as (m & s' & -> & -> & Ha & _ & He & _).
  destruct (He Hends) as [Hne Hw].
  assert (0 < length m) as Hlen by (destruct m; simpl; [done|lia]).
  split; [rewrite length_app; lia|]. split.
  - rewrite lookup_app_l by lia. rewrite lastc_nonempty in Hw by done.
    by rewrite last_lookup, <- Nat.sub_1_r in Hw.
  - intros j Hj Hlook. rewrite lookup_app_l in Hlook by lia.
    rewrite Forall_forall in Ha.
    assert (w0 ∈ m) as Hin by (apply list_elem_of_lookup; eauto).
    apply Ha in Hin. congruence.
Qed.

Lemma match_at_first (r : regex) (prev : option ascii) (d : ascii) (s : chars)
    (n : nat) (caps : captures) :
  ends_word r = true -> match_at r prev (d :: s) = Some (n, caps) -> firstc r d = true.
Proof.
  intros Hends H.
  apply match_at_inv in H as (m & s' & Heq & -> & _ & Hf & He & _).
  destruct (He Hends) as [Hne _]. destruct m as [|c m]; [done|].
  simpl in Heq. by injection Heq as -> _.
Qed.

Lemma rmatch_anchored (r : regex) :
  forall (R : Type) (c d : ascii) (s : chars) (caps : captures)
         (k : option ascii -> chars -> captures -> option R),
    starts_anchored r = true -> is_word c = true -> is_word d = true ->
    rmatch r (Some c) (d :: s) caps k = None.
Proof.
  induction r as [|c'|f|r1 IH1 r2 IH2|r1 IH1 r2 IH2|r1 IH1|name r1 IH1| |];
    intros R c d s caps k Ha Hc Hd; simpl in Ha |- *; try done.
  - by apply IH1.
  - apply andb_true_iff in Ha as [Ha1 Ha2]. rewrite IH1 by done. by apply IH2.
  - by apply IH1.
  - by rewrite Hc, Hd.
Qed.

Lemma match_at_anchored (r : regex) (c d : ascii) (s : chars) :
  starts_anchored r = true -> is_word c = true -> is_word d = true ->
  match_at r (Some c) (d :: s) = None.
Proof. intros. by apply rmatch_anchored. Qed.

(** ** Patterns whose matches end in a given class *)

Lemma rmatch_ends_in (P : ascii -> bool) (r : regex) :
  forall (R : Type) (prev : option ascii) (s : chars) (caps : captures)
         (k : option ascii -> chars -> captures -> option R) (x : R),
    ends_in P r = true -> rmatch r prev s caps k = Some x ->
    exists m c s' caps', s = m ++ c :: s' /\ P c = true /\ k (Some c) s' caps' = Some x.
Proof.
  induction r as [|c|f|r1 IH1 r2 IH2|r1 IH1 r2 IH2|r1 IH1|name r1 IH1| |];
    intros R prev s caps k x Hends Hm; cbn [ends_in] in Hends; try done.
  - simpl in Hm. destruct s as [|y s']; [done|].
    destruct (eqc y c) eqn:Hy; [|done]. apply eqc_eq in Hy. subst y.
    by exists [], c, s', caps.
  - simpl in Hm. destruct s as [|y s']; [done|].
    destruct (f y) eqn:Hy; [|done].
    rewrite forallb_forall in Hends. specialize (Hends y (in_all_ascii y)).
    rewrite Hy in Hends. by exists [], y, s', caps.
  - simpl in Hm. apply rmatch_inv in Hm as (m1 & s1 & c1 & -> & Hm & _).
    apply IH2 in Hm as (m & c & s' & caps' & -> & Hc & Hk); [|done].
    exists (m1 ++ m), c, s', caps'. by rewrite <- app_assoc.
  - apply andb_true_iff in Hends as [H1 H2]. simpl in Hm.
    destruct (rmatch r1 prev s caps k) eqn:E.
    + injection Hm as ->. by eapply IH1.
    + by eapply IH2.
  - simpl in Hm. apply IH1 in Hm as (m & c & s' & caps' & -> & Hc & Hk); [|done].
    by exists m, c, s', ((name, take (length (m ++ c :: s') - length s') (m ++ c :: s')) :: caps').
Qed.

Lemma firstc_alpha (r : regex) (c : ascii) : alpha r c = false -> firstc r c = false.
Proof.
  induction r; simpl; try done.
  - intros H. apply orb_false_iff in H as [? ?]. rewrite IHr1, IHr2 by done.
    by rewrite andb_false_r.
  - intros H. apply orb_false_iff in H as [? ?]. by rewrite IHr1, IHr2.
Qed.

Lemma safe_gen_analysis (P : ascii -> bool) (w0 : ascii) (r : regex) :
  ends_in P r = true -> alpha r w0 = false -> safe_gen P w0 r.
Proof.
  intros Hends Halpha prev s n caps E.
  pose proof (match_at_inv _ _ _ _ _ E) as (m' & s'' & Hs & Hn & (Hall & _)).
  unfold match_at in E.
  apply (rmatch_ends_in P) in E as (m & c & s' & caps' & Hs' & Hc & Hk); [|done].
  injection Hk as Hk _.
  assert (n = S (length m)) as Hlen.
  { rewrite Hs' in Hk. rewrite !length_app in Hk. simpl in Hk. lia. }
  split; [rewrite Hs', length_app; simpl; lia|]. split.
  - rewrite Hs', Hlen. simpl. rewrite Nat.sub_0_r.
    rewrite lookup_app_r by lia. by rewrite Nat.sub_diag.
  - intros j Hj Hv. rewrite Hs in Hv. rewrite lookup_app_l in Hv by lia.
    rewrite Forall_forall in Hall. apply list_elem_of_lookup_2 in Hv.
    apply Hall in Hv. congruence.
Qed.

Lemma match_at_first_in (P : ascii -> bool) (r : regex) (prev : option ascii)
    (d : ascii) (s : chars) (n : nat) (caps : captures) :
  ends_in P r = true -> match_at r prev (d :: s) = Some (n, caps) -> firstc r d = true.
Proof.
  intros Hends E.
  pose proof (match_at_inv _ _ _ _ _ E) as (m' & s'' & Hs & Hn & (_ & Hfirst & _)).
  unfold match_at in E.
  apply (rmatch_ends_in P) in E as (m & c & s' & caps' & Hs' & Hc & Hk); [|done].
  injection Hk as Hk _. apply (f_equal length) in Hs'. rewrite length_app in Hs'.
  simpl in Hs', Hk.
  destruct m' as [|c' m']; [simpl in Hn; lia|].
  injection Hs as -> _. exact Hfirst.
Qed.

(** ** Scanning *)

Lemma lastc_cons (prev : option ascii) (c : ascii) (m : chars) :
  lastc prev (c :: m) = lastc (Some c) m.
Proof. unfold lastc. rewrite last_cons. by destruct (last m). Qed.

Lemma sub_from_skip (r : regex) (repl : chars) (a rest : chars) :
  forall prev n,
    n = length a ->
    sub_from r repl n prev (a ++ rest) = sub_from r repl 0 (lastc prev a) rest.
Proof.
  induction a as [|c a IH]; intros prev n ->; [done|].
  simpl. rewrite IH by done. by rewrite lastc_cons.
Qed.

Lemma last_drop_lt (l : chars) (n : nat) : n < length l -> last (drop n l) = last l.
Proof.
  intros Hn. rewrite <- (take_drop n l) at 2. rewrite last_app.
  destruct (last (drop n l)) eqn:Hl; [done|].
  apply last_None in Hl. apply (f_equal length) in Hl. rewrite length_drop in Hl.
  simpl in Hl. lia.
Qed.

Lemma sub_from_cons (r : regex) (repl : chars) (prev : option ascii) (c : ascii)
    (s : chars) :
  sub_from r repl 0 prev (c :: s) =
  match match_at r prev (c :: s) with
  | Some (S n, _) => repl ++ sub_from r repl n (Some c) s
  | Some (O, _) => repl ++ c :: sub_from r repl 0 (Some c) s
  | None => c :: sub_from r repl 0 (Some c) s
  end.
Proof. reflexivity. Qed.

(** The scan of [a ++ w ++ b], where [w] begins with [w0], [a] does not end
    in a character of the class [P] and every match does: no match that
    begins in [a] reaches [w]. *)
Lemma sub_from_delimited (P : ascii -> bool) (Q : chars -> Prop)
    (r : regex) (repl : chars) (w0 : ascii) (wt w' : chars) :
  safe_gen P w0 r ->
  (forall prev b, endp P prev = false -> Q b ->
     exists Y, sub_from r repl 0 prev (w0 :: wt ++ b) = w' ++ Y /\ Q Y) ->
  forall n a prev b,
    length a <= n -> endp P (last a) = false -> (a = [] -> endp P prev = false) ->
    Q b ->
    exists X Y, sub_from r repl 0 prev (a ++ w0 :: wt ++ b) = X ++ w' ++ Y /\
                last X = last a /\ Q Y.
Proof.
  intros Hsafe Hw. induction n as [|n IH]; intros a prev b Hlen Hend Hprev Hb.
  { destruct a; [|simpl in Hlen; lia].
    destruct (Hw prev b (Hprev eq_refl) Hb) as (Y & HY & HwY). by exists [], Y. }
  destruct a as [|c a].
  { destruct (Hw prev b (Hprev eq_refl) Hb) as (Y & HY & HwY). by exists [], Y. }
  simpl in Hlen. rewrite <- app_comm_cons, sub_from_cons.
  destruct (match_at r prev (c :: a ++ w0 :: wt ++ b)) as [[n1 caps]|] eqn:E.
  - destruct (Hsafe _ _ _ _ E) as ([Hn1 _] & Hword & Hnow).
    assert (n1 < S (length a)) as Hlt.
    { destruct (decide (n1 < S (length a))) as [|Hge]; [done|]. exfalso.
      destruct (decide (n1 = S (length a))) as [->|Hne].
      - simpl in Hword. rewrite Nat.sub_0_r in Hword.
        rewrite app_comm_cons, lookup_app_l in Hword by (simpl; lia).
        rewrite last_lookup in Hend. simpl in Hend.
        congruence.
      - apply (Hnow (S (length a))); [lia|].
        rewrite app_comm_cons, lookup_app_r by (simpl; lia).
        simpl. by rewrite Nat.sub_diag. }
    destruct n1 as [|n2]; [lia|].
    replace (a ++ w0 :: wt ++ b) with (take n2 a ++ (drop n2 a ++ w0 :: wt ++ b))
      by (by rewrite app_assoc, take_drop).
    rewrite sub_from_skip by (rewrite length_take; lia).
    assert (last (drop n2 a) = last (c :: a)) as Hlast.
    { rewrite last_drop_lt by lia. rewrite last_cons.
      destruct (last a) eqn:Hl; [done|]. apply last_None in Hl. subst a. simpl in Hlt. lia. }
    destruct (IH (drop n2 a) (lastc (Some c) (take n2 a)) b) as (X & Y & HX & HlX & HY).
    + rewrite length_drop. lia.
    + by rewrite Hlast.
    + intros Hnil. apply (f_equal length) in Hnil. rewrite length_drop in Hnil.
      simpl in Hnil. lia.
    + done.
    + exists (repl ++ X), Y. rewrite HX, <- app_assoc. split; [done|]. split; [|done].
      rewrite last_app, HlX, Hlast.
      rewrite last_cons. by destruct (last a).
  - destruct (IH a (Some c) b) as (X & Y & HX & HlX & HY).
    + lia.
    + rewrite last_cons in Hend. by destruct (last a).
    + intros ->. exact Hend.
    + done.
    + exists (c :: X), Y. rewrite HX. split; [done|]. split; [|done].
      by rewrite !last_cons, HlX.
Qed.

(** The scan of [a ++ w ++ b], where [w] begins with [w0] and stands as a
    whole word: no match that begins in [a] reaches [w]. *)
Lemma sub_from_isolated (r : regex) (repl : chars) (w0 : ascii) (wt w' : chars) :
  safe_for w0 r ->
  (forall prev b, word_before prev = false -> word_after b = false ->
     exists Y, sub_from r repl 0 prev (w0 :: wt ++ b) = w' ++ Y /\ word_after Y = false) ->
  forall n a prev b,
    length a <= n -> word_end a = false -> (a = [] -> word_before prev = false) ->
    word_after b = false ->
    exists X Y, sub_from r repl 0 prev (a ++ w0 :: wt ++ b) = X ++ w' ++ Y /\
                last X = last a /\ word_after Y = false.
Proof.
  intros Hsafe Hw.
  apply (sub_from_delimited is_word (fun b => word_after b = false)); [exact Hsafe|exact Hw].
Qed.

(** What follows a word in the scan does not begin with a word character. *)
Lemma sub_from_after_word (r : regex) (repl : chars) (w0 : ascii) (prev : option ascii)
    (b : chars) :
  safe_for w0 r -> ends_word r = true ->
  first_word r = true \/ (exists c t, repl = c :: t /\ is_word c = false) ->
  word_after b = false ->
  word_after (sub_from r repl 0 prev b) = false.
Proof.
  intros Hsafe Hends Hfirst Hb. destruct b as [|d b]; simpl.
  - destruct (match_at r prev []) as [[n caps]|] eqn:E; [|done].
    destruct (Hsafe _ _ _ _ E) as ([? Hn] & _). simpl in Hn. lia.
  - destruct (match_at r prev (d :: b)) as [[n caps]|] eqn:E; [|done].
    destruct Hfirst as [Hfirst|(c & t & -> & Hc)].
    + apply match_at_first in E; [|done].
      apply (first_word_spec r d Hfirst) in E. simpl in Hb. congruence.
    + by destruct n.
Qed.

(** Inside a word, a pattern that begins with a word boundary has no
    match. *)
Lemma sub_from_inside_word (r : regex) (repl : chars) (b : chars) :
  starts_anchored r = true ->
  forall wt p, forallb is_word wt = true -> is_word p = true ->
    sub_from r repl 0 (Some p) (wt ++ b) = wt ++ sub_from r repl 0 (lastc (Some p) wt) b.
Proof.
  intros Hanch. induction wt as [|c wt IH]; intros p Hwt Hp; [done|].
  simpl in Hwt. apply andb_true_iff in Hwt as [Hc Hwt].
  rewrite <- app_comm_cons, sub_from_cons, match_at_anchored by done.
  rewrite IH by done. by rewrite lastc_cons.
Qed.

(** ** Literal patterns *)

Lemma starts_with_app (l s : chars) :
  starts_with l s = true -> s = l ++ drop (length l) s.
Proof.
  revert s. induction l as [|c l IH]; intros s H; [done|].
  destruct s as [|d s]; [done|]. simpl in H.
  apply andb_true_iff in H as [Hc Hl]. apply eqc_eq in Hc as ->.
  simpl. f_equal. by apply IH.
Qed.

Lemma rmatch_Str (l : chars) :
  forall (R : Type) (prev : option ascii) (s : chars) (caps : captures)
         (k : option ascii -> chars -> captures -> option R),
    rmatch (Str_ l) prev s caps k =
    if starts_with l s then k (lastc prev l) (drop (length l) s) caps else None.
Proof.
  induction l as [|c l IH]; intros R prev s caps k; [done|].
  destruct l as [|c' l].
  - simpl. destruct s as [|d s]; [done|].
    unfold eqc. rewrite andb_true_r, (Ascii.eqb_sym c d).
    destruct (Ascii.eqb_spec d c) as [->|]; done.
  - change (Str_ (c :: c' :: l)) with (Seq (Lit c) (Str_ (c' :: l))).
    cbn [rmatch]. destruct s as [|d s]; [done|].
    change (starts_with (c :: c' :: l) (d :: s))
      with (eqc c d && starts_with (c' :: l) s).
    unfold eqc at 1 2. rewrite (Ascii.eqb_sym c d).
    destruct (Ascii.eqb_spec d c) as [->|]; [|reflexivity].
    rewrite IH. cbn [andb]. destruct (starts_with (c' :: l) s); [|reflexivity].
    by rewrite (lastc_cons prev c).
Qed.

(** A match of a whole-word literal is the literal. *)
Lemma match_at_word (w : string) (prev : option ascii) (s : chars) :
  match_at (Seqs [WordB; Str w; WordB]) prev s =
  if xorb (word_before prev) (word_after s) && starts_with (L w) s
     && xorb (word_before (lastc prev (L w))) (word_after (drop (length (L w)) s))
  then Some (length s - length (drop (length (L w)) s), [])
  else None.
Proof.
  unfold match_at, Str. cbn [Seqs rmatch]. rewrite rmatch_Str.
  destruct (xorb (word_before prev) (word_after s)); [|done].
  destruct (starts_with (L w) s); [|done]. cbn [andb rmatch].
  by destruct (xorb _ _).
Qed.

Lemma safe_for_word (w0 : ascii) (w : string) :
  L w <> [] -> word_before (last (L w)) = true -> w0 ∉ List.tl (L w) ->
  safe_for w0 (Seqs [WordB; Str w; WordB]).
Proof.
  intros Hne Hlast Htail prev s n caps H. rewrite match_at_word in H.
  destruct (_ && _) eqn:Hb; [|done]. injection H as <- _.
  apply andb_true_iff in Hb as [Hb _]. apply andb_true_iff in Hb as [_ Hb].
  apply starts_with_app in Hb. set (l := L w) in *. set (rest := drop _ s) in *.
  rewrite Hb, length_app.
  assert (0 < length l) by (destruct l; simpl; [done|lia]).
  replace (length l + length rest - length rest) with (length l) by lia.
  split; [lia|]. split.
  - rewrite lookup_app_l by lia. by rewrite Nat.sub_1_r, <- last_lookup.
  - intros j Hj Hlook. rewrite lookup_app_l in Hlook by lia.
    apply Htail. destruct l as [|c l]; [done|]. destruct j as [|j]; [lia|].
    simpl in *. apply list_elem_of_lookup. eauto.
Qed.

(** ** A rule that leaves a whole word alone *)

Lemma isolated_intro (w s a b : chars) :
  s = a ++ w ++ b -> word_end a = false -> word_after b = false -> isolated w s.
Proof. intros. by exists a, b. Qed.

Lemma sub_at_word (r : regex) (repl : chars) (w0 : ascii) (wt : chars) :
  safe_for w0 r -> ends_word r = true -> starts_anchored r = true ->
  first_word r = true \/ (exists c t, repl = c :: t /\ is_word c = false) ->
  is_word w0 = true -> forallb is_word wt = true ->
  (forall prev b, word_before prev = false -> match_at r prev (w0 :: wt ++ b) = None) ->
  forall prev b, word_before prev = false -> word_after b = false ->
    exists Y, sub_from r repl 0 prev (w0 :: wt ++ b) = (w0 :: wt) ++ Y /\
              word_after Y = false.
Proof.
  intros Hsafe Hends Hanch Hfirst Hw0 Hwt Hno prev b Hprev Hb.
  exists (sub_from r repl 0 (lastc (Some w0) wt) b). split.
  - rewrite sub_from_cons, (Hno prev b Hprev). by rewrite sub_from_inside_word.
  - by apply sub_from_after_word with w0.
Qed.

Lemma sub_keeps_word (r : regex) (repl : string) (w0 : ascii) (wt s : chars) :
  safe_for w0 r -> ends_word r = true -> starts_anchored r = true ->
  first_word r = true \/ (exists c t, L repl = c :: t /\ is_word c = false) ->
  is_word w0 = true -> forallb is_word wt = true ->
  (forall prev b, word_before prev = false -> match_at r prev (w0 :: wt ++ b) = None) ->
  isolated (w0 :: wt) s -> isolated (w0 :: wt) (sub r repl s).
Proof.
  intros Hsafe Hends Hanch Hfirst Hw0 Hwt Hno (a & b & -> & Ha & Hb).
  destruct (sub_from_isolated r (L repl) w0 wt (w0 :: wt) Hsafe
              (sub_at_word r (L repl) w0 wt Hsafe Hends Hanch Hfirst Hw0 Hwt Hno)
              (length a) a None b) as (X & Y & HX & HlX & HY); try done.
  exists X, Y. split; [exact HX|]. split; [|done].
  unfold word_end in *. by rewrite HlX.
Qed.

(** No match begins at a word when the pattern cannot begin with its first
    letter. *)
Lemma no_match_at_word (r : regex) (w0 : ascii) (wt : chars) :
  ends_word r = true -> firstc r w0 = false ->
  forall prev b, word_before prev = false -> match_at r prev (w0 :: wt ++ b) = None.
Proof.
  intros Hends Hfirst prev b _.
  destruct (match_at r prev (w0 :: wt ++ b)) as [[n caps]|] eqn:E; [|done].
  apply match_at_first in E; [|done]. congruence.
Qed.

Lemma sub_keeps_word_analysis (r : regex) (repl : string) (w0 : ascii) (wt s : chars) :
  ends_word r && starts_anchored r && negb (alpha r w0)
  && (first_word r || match L repl with c :: _ => negb (is_word c) | [] => false end)
  && is_word w0 && forallb is_word wt = true ->
  isolated (w0 :: wt) s -> isolated (w0 :: wt) (sub r repl s).
Proof.
  intros H.
  apply andb_true_iff in H as [H Hwt]. apply andb_true_iff in H as [H Hw0].
  apply andb_true_iff in H as [H Hfirst]. apply andb_true_iff in H as [H Halpha].
  apply andb_true_iff in H as [Hends Hanch].
  apply negb_true_iff in Halpha.
  apply sub_keeps_word; try done.
  - by apply safe_for_analysis.
  - apply orb_true_iff in Hfirst as [?|Hfirst]; [by left|right].
    destruct (L repl) as [|c t]; [done|]. exists c, t. split; [done|].
    by apply negb_true_iff.
  - apply no_match_at_word; [done|]. by apply firstc_alpha.
Qed.

(** The rule for [NULL] cannot be analysed by its alphabet, which holds the
    letter [N]; its matches are the literal. *)
Lemma sub_NULL_keeps_None (s : chars) :
  isolated w_None s -> isolated w_None (sub re_NULL "None" s).
Proof.
  apply (sub_keeps_word re_NULL "None" "N" (L "one")).
  - apply (safe_for_word "N" "NULL"); [done|done|].
    intros Hin. apply list_elem_of_In in Hin. simpl in Hin.
    destruct Hin as [?|[?|[?|[]]]]; discriminate.
  - done.
  - done.
  - by left.
  - done.
  - done.
  - intros prev b _. unfold re_NULL. rewrite match_at_word.
    replace (starts_with (L "NULL") (w_None ++ b)) with false by done.
    by rewrite andb_false_r.
Qed.

(** The rule for [void] replaces the word where it stands. *)
Lemma sub_void_at_void (prev : option ascii) (b : chars) :
  word_before prev = false -> word_after b = false ->
  exists Y, sub_from re_void (L "None") 0 prev ("v"%char :: L "oid" ++ b) = w_None ++ Y /\
            word_after Y = false.
Proof.
  intros Hprev Hb. exists (sub_from re_void (L "None") 0 (Some "d"%char) b). split.
  - rewrite sub_from_cons. unfold re_void. rewrite match_at_word.
    replace (word_after ("v"%char :: L "oid" ++ b)) with true by done.
    replace (starts_with (L "void") ("v"%char :: L "oid" ++ b)) with true by done.
    replace (lastc prev (L "void")) with (Some "d"%char) by done.
    replace (drop (length (L "void")) ("v"%char :: L "oid" ++ b)) with b by done.
    rewrite Hprev, Hb. cbn [xorb andb word_before].
    replace (is_word "d") with true by done. cbn [xorb].
    replace (length ("v"%char :: L "oid" ++ b) - length b) with 4
      by (simpl; lia).
    reflexivity.
  - apply sub_from_after_word with "v"%char; try done.
    + apply (safe_for_word "v" "void"); [done|done|].
      intros Hin. apply list_elem_of_In in Hin. simpl in Hin.
      destruct Hin as [?|[?|[?|[]]]]; discriminate.
    + by left.
Qed.

Lemma sub_void_makes_None (s : chars) :
  isolated w_void s -> isolated w_None (sub re_void "None" s).
Proof.
  intros (a & b & -> & Ha & Hb).
  assert (safe_for "v" re_void) as Hsafe.
  { apply (safe_for_word "v" "void"); [done|done|].
    intros Hin. apply list_elem_of_In in Hin. simpl in Hin.
    destruct Hin as [?|[?|[?|[]]]]; discriminate. }
  destruct (sub_from_isolated re_void (L "None") "v" (L "oid") w_None Hsafe
              sub_void_at_void (length a) a None b) as (X & Y & HX & HlX & HY); try done.
  exists X, Y. split; [exact HX|]. split; [|done].
  unfold word_end in *. by rewrite HlX.
Qed.

(** ** Trimming keeps a word *)

Lemma is_space_not_word (c : ascii) : is_space c = true -> is_word c = false.
Proof.
  intros Hs. destruct (is_word c) eqn:Hw; [|done]. exfalso.
  revert Hs Hw. generalize (in_all_ascii c).
  assert (forallb (fun c => negb (is_space c && is_word c)) all_ascii = true) as Hall
    by (vm_compute; reflexivity).
  rewrite forallb_forall in Hall. intros Hin Hs Hw. specialize (Hall c Hin).
  by rewrite Hs, Hw in Hall.
Qed.

Lemma lstrip_app_word (a rest : chars) :
  word_after rest = true ->
  exists a', lstrip (a ++ rest) = a' ++ rest /\ (a' = [] \/ last a' = last a).
Proof.
  intros Hrest. induction a as [|c a IH]; simpl.
  - exists []. split; [|by left]. destruct rest as [|d rest]; [done|]. simpl in *.
    destruct (is_space d) eqn:Hd; [|done]. apply is_space_not_word in Hd. congruence.
  - destruct (is_space c).
    + destruct IH as (a' & -> & [->|Hl]).
      * exists []. split; [done|by left].
      * destruct (last a) as [z|] eqn:Hla.
        -- exists a'. split; [done|]. right. by rewrite Hl, last_cons, Hla.
        -- apply last_None in Hl. subst a'. exists []. split; [done|by left].
    + exists (c :: a). split; [done|by right].
Qed.

Lemma word_after_rev_last (l : chars) : word_after (rev l) = word_before (last l).
Proof.
  destruct (last l) as [c|] eqn:Hl.
  - apply last_Some in Hl as [l' ->]. by rewrite rev_unit.
  - apply last_None in Hl. by subst.
Qed.

Lemma word_before_last_rev (l : chars) : word_before (last (rev l)) = word_after l.
Proof. rewrite <- word_after_rev_last. by rewrite rev_involutive. Qed.

Lemma strip_keeps (w : chars) (s : chars) :
  word_after w = true -> word_before (last w) = true ->
  isolated w s -> isolated w (strip s).
Proof.
  intros Hw1 Hw2 (a & b & -> & Ha & Hb). unfold strip, rstrip.
  destruct (lstrip_app_word a (w ++ b)) as (a' & -> & Ha').
  { destruct w; [done|]. done. }
  rewrite !rev_app_distr, <- app_assoc.
  destruct (lstrip_app_word (rev b) (rev w ++ rev a')) as (b' & -> & Hb').
  { destruct (rev w) as [|c rw] eqn:Hrw.
    - apply (f_equal (@rev ascii)) in Hrw. rewrite rev_involutive in Hrw. by subst w.
    - simpl. rewrite <- Hw2. rewrite <- (rev_involutive w), Hrw.
      simpl. by rewrite last_snoc. }
  rewrite !rev_app_distr, !rev_involutive, <- app_assoc.
  exists a', (rev b'). split; [done|]. split.
  - unfold word_end in *. destruct Ha' as [->|Heq]; [done|by rewrite Heq].
  - rewrite word_after_rev_last. destruct Hb' as [->|Heq]; [done|].
    by rewrite Heq, word_before_last_rev.
Qed.

(** ** Literal replacement around a character that the text replaced does
    not hold *)

Lemma avoids_cons (o : ascii) (old : chars) (c : ascii) :
  avoids (o :: old) c = true -> eqc o c = false /\ avoids old c = true.
Proof.
  unfold avoids. simpl. rewrite negb_orb, andb_true_iff. intros [Hc Ho]. split; [|done].
  apply negb_true_iff in Hc. unfold eqc in *. by rewrite Ascii.eqb_sym.
Qed.

Lemma starts_with_sep (old : chars) (c : ascii) (rest : chars) :
  avoids old c = true ->
  forall p, starts_with old (p ++ c :: rest) = starts_with old p.
Proof.
  induction old as [|o old IH]; intros Hav p; [done|].
  apply avoids_cons in Hav as [Hoc Hav].
  destruct p as [|x p]; simpl.
  - by rewrite Hoc.
  - by rewrite IH.
Qed.

Lemma starts_with_length (old p : chars) :
  starts_with old p = true -> length old <= length p.
Proof.
  revert p. induction old as [|o old IH]; intros p; simpl; [lia|].
  destruct p as [|x p]; [done|]. intros H. apply andb_true_iff in H as [_ H].
  apply IH in H. simpl. lia.
Qed.

Lemma replace_from_sep (old new : chars) (c : ascii) (rest : chars) :
  old <> [] -> avoids old c = true ->
  forall a k, k <= length a ->
    replace_from old new k (a ++ c :: rest)
    = replace_from old new k a ++ c :: replace_from old new 0 rest.
Proof.
  intros Hold Hav. induction a as [|x a IH]; intros k Hk.
  - simpl in Hk. assert (k = 0) as -> by lia.
    cbn [app replace_from].
    pose proof (starts_with_sep old c rest Hav []) as Hst. cbn [app] in Hst. rewrite Hst.
    destruct old; [done|]. reflexivity.
  - destruct k as [|k].
    + rewrite <- app_comm_cons. cbn [replace_from].
      rewrite app_comm_cons, (starts_with_sep old c rest Hav (x :: a)).
      destruct (starts_with old (x :: a)) eqn:Hst.
      * apply starts_with_length in Hst. simpl in Hst.
        rewrite IH by (destruct old; [done|simpl in *; lia]).
        by rewrite app_assoc.
      * by rewrite IH by lia.
    + simpl in Hk. simpl. apply IH. lia.
Qed.

Lemma replace_word (old new w b : chars) :
  old <> [] -> forallb (avoids old) w = true ->
  replace old new (w ++ b) = w ++ replace old new b.
Proof.
  intros Hold. induction w as [|c w IH]; intros Hw; [done|].
  simpl in Hw. apply andb_true_iff in Hw as [Hc Hw].
  unfold replace in *.
  rewrite <- app_comm_cons.
  pose proof (replace_from_sep old new c (w ++ b) Hold Hc [] 0) as Hr.
  cbn [app] in Hr. rewrite Hr by done.
  simpl. by rewrite IH.
Qed.

Lemma avoids_space (old : chars) (c : ascii) :
  forallb nonspace old = true -> is_space c = true -> avoids old c = true.
Proof.
  intros Hold Hc. unfold avoids. apply negb_true_iff.
  destruct (existsb (eqc c) old) eqn:He; [|done]. exfalso.
  apply existsb_exists in He as (o & Ho & Heq). apply eqc_eq in Heq. subst o.
  rewrite forallb_forall in Hold. specialize (Hold c Ho). unfold nonspace in Hold.
  by rewrite Hc in Hold.
Qed.

(** Replacing a text that holds no white space and no letter of [w] leaves
    [w] between white space. *)
Lemma replace_spaced (old new w s : chars) :
  old <> [] -> forallb nonspace old = true -> forallb (avoids old) w = true ->
  w <> [] ->
  spaced w s -> spaced w (replace old new s).
Proof.
  intros Hold Hsp Hw Hne (a & b & -> & Ha & Hb).
  exists (replace old new a), (replace old new b). split; [|split].
  - destruct w as [|c w]; [done|]. simpl in Hw. apply andb_true_iff in Hw as [Hc Hw].
    unfold replace at 1. rewrite <- app_comm_cons.
    rewrite (replace_from_sep old new c (w ++ b) Hold Hc a 0) by lia.
    fold (replace old new a). fold (replace old new (w ++ b)).
    by rewrite replace_word.
  - unfold space_end in *. destruct (last a) as [c|] eqn:Hl.
    + apply last_Some in Hl as [a' ->]. unfold replace.
      rewrite (replace_from_sep old new c [] Hold (avoids_space old c Hsp Ha) a' 0) by lia.
      simpl. by rewrite last_snoc.
    + apply last_None in Hl. by subst a.
  - destruct b as [|c b]; [done|]. simpl in Hb. unfold replace.
    pose proof (replace_from_sep old new c b Hold (avoids_space old c Hsp Hb) [] 0) as Hr.
    cbn [app] in Hr. by rewrite Hr.
Qed.

(** ** Rules that leave a word between white space *)

Lemma space_end_endp (a : chars) : space_end a = true -> endp nonspace (last a) = false.
Proof.
  unfold space_end, endp, nonspace. destruct (last a); [|done].
  intros ->. done.
Qed.

(** A rule whose matches begin and end in characters that are not white
    space, and hold no first letter of the word, leaves a word between
    white space where it is. *)
Lemma sub_spaced (r : regex) (repl : string) (w0 : ascii) (wt s : chars) :
  ends_in nonspace r && starts_anchored r && negb (alpha r w0) && first_word r
  && is_word w0 && forallb is_word wt = true ->
  spaced (w0 :: wt) s -> spaced (w0 :: wt) (sub r repl s).
Proof.
  intros H (a & b & -> & Ha & Hb).
  apply andb_true_iff in H as [H Hwt]. apply andb_true_iff in H as [H Hw0].
  apply andb_true_iff in H as [H Hfirst]. apply andb_true_iff in H as [H Halpha].
  apply andb_true_iff in H as [Hends Hanch].
  apply negb_true_iff in Halpha.
  pose proof (safe_gen_analysis nonspace w0 r Hends Halpha) as Hsafe.
  destruct (sub_from_delimited nonspace (fun b => space_start b = true)
              r (L repl) w0 wt (w0 :: wt) Hsafe) with (n := length a) (a := a)
              (prev := @None ascii) (b := b) as (X & Y & HX & HlX & HY);
    [|done|by apply space_end_endp|done|done|].
  - intros prev b' _ Hb'. exists (sub_from r (L repl) 0 (lastc (Some w0) wt) b'). split.
    + rewrite sub_from_cons.
      destruct (match_at r prev (w0 :: wt ++ b')) as [[n caps]|] eqn:E.
      { apply (match_at_first_in nonspace) in E; [|done].
        by rewrite (firstc_alpha r w0 Halpha) in E. }
      by rewrite sub_from_inside_word.
    + destruct b' as [|c b']; simpl.
      * destruct (match_at r _ []) as [[n caps]|] eqn:E; [|done].
        destruct (Hsafe _ _ _ _ E) as ([? Hn] & _). simpl in Hn. lia.
      * simpl in Hb'. destruct (match_at r _ (c :: b')) as [[n caps]|] eqn:E; [|done].
        apply (match_at_first_in nonspace) in E; [|done].
        apply (first_word_spec r c Hfirst) in E.
        apply is_space_not_word in Hb'. congruence.
  - exists X, Y. split; [exact HX|]. split; [|done].
    unfold space_end in *. by rewrite HlX.
Qed.

Lemma spaced_isolated (w s : chars) : spaced w s -> isolated w s.
Proof.
  intros (a & b & -> & Ha & Hb). exists a, b. split; [done|]. split.
  - unfold word_end, space_end in *. destruct (last a) as [c|]; [|done].
    by apply is_space_not_word.
  - destruct b as [|c b]; [done|]. by apply is_space_not_word.
Qed.

(** The rule for [volatile] cannot be analysed by its alphabet, which holds
    the letter [v]; its matches are the literal. *)
Lemma sub_volatile_keeps_void (s : chars) :
  isolated w_void s -> isolated w_void (sub re_volatile "" s).
Proof.
  apply (sub_keeps_word re_volatile "" "v" (L "oid")).
  - apply (safe_for_word "v" "volatile"); [done|done|].
    intros Hin. apply list_elem_of_In in Hin. simpl in Hin.
    repeat (destruct Hin as [?|Hin]; [discriminate|]). done.
  - done.
  - done.
  - by left.
  - done.
  - done.
  - intros prev b _. unfold re_volatile. rewrite match_at_word.
    replace (starts_with (L "volatile") ("v"%char :: L "oid" ++ b)) with false by done.
    by rewrite andb_false_r.
Qed.

(** ** The word [void] through the rules before the [void] rule *)

Lemma simple_parse_head_keeps_void (s : chars) :
  spaced w_void s -> isolated w_void (simple_parse_head s).
Proof.
  intros Hs. unfold simple_parse_head. cbv zeta.
  apply sub_volatile_keeps_void.
  apply (sub_keeps_word_analysis re_const "" "v" (L "oid")); [vm_compute; reflexivity|].
  apply strip_keeps; [done|done|].
  apply spaced_isolated. unfold repl.
  do 6 (apply replace_spaced; [done|done|done|done|]).
  by apply (sub_spaced re_char_ptr "str" "v" (L "oid")); [vm_compute; reflexivity|].
Qed.

(** ** The word [None] through the rules after the [void] rule *)

Local Ltac keep_None :=
  first [ apply sub_NULL_keeps_None
        | apply (sub_keeps_word_analysis _ _ "N" (L "one")); [vm_compute; reflexivity|] ].

Lemma simple_parse_tail_keeps_None (s : chars) :
  isolated w_None s -> isolated w_None (simple_parse_tail s).
Proof.
  intros Hs. unfold simple_parse_tail.
  apply strip_keeps; [done|done|].
  do 14 keep_None. exact Hs.
Qed.

(** C10, as amended. The token translator has a rule that rewrites the word
    [void] to [None]: whenever [void] stands in the input between white
    space or the ends of the text, or, more generally, stands as a whole
    word in the text that the earlier rules (lines 559-563) leave, the
    output holds [None] as a whole word. *)
Theorem C10_void_to_None_amended (s : string) :
  spaced (L "void") (L s) \/ isolated (L "void") (simple_parse_head (L s)) ->
  isolated (L "None") (L (simple_parse s)).
Proof.
  intros Hvoid.
  assert (isolated w_void (simple_parse_head (L s))) as Hhead.
  { destruct Hvoid as [Hsp|Hiso]; [by apply simple_parse_head_keeps_void|exact Hiso]. }
  unfold simple_parse, simple_parse_chars. rewrite L_S.
  destruct (L s) as [|c t] eqn:Hs.
  - destruct Hhead as (a & b & Heq & _). destruct a; discriminate.
  - apply simple_parse_tail_keeps_None. by apply sub_void_makes_None.
Qed.

Lemma C10_void_to_None_amended_witness :
  spaced (L "void") (L "const void *") /\
  simple_parse "const void *" = "None" /\
  isolated (L "None") (L (simple_parse "const void *")).
Proof.
  assert (spaced (L "void") (L "const void *")) as Hsp.
  { exists (L "const "), (L " *"). split; [reflexivity|]. split; reflexivity. }
  split; [exact Hsp|]. split; [vm_compute; reflexivity|].
  apply (C10_void_to_None_amended "const void *"). left. exact Hsp.
Defined.

(** C10 as stated fails: in [void*p] the word [void] stands alone, but the
    removal of the star joins it to the next word before the rule for
    [void] is tried, and the output still holds [void] and no [None]. *)
Lemma C10_counterexample :
  isolated (L "void") (L "void*p") /\
  simple_parse "void*p" = "voidp" /\
  str_in "None" (simple_parse "void*p") = false /\
  str_in "void" (simple_parse "void*p") = true.
Proof.
  split; [|split; [|split]]; try (vm_compute; reflexivity).
  exists [], (L "*p"). split; [reflexivity|]. split; reflexivity.
Qed.

(** ** Scopes as their constructor builds them *)

Lemma Element_ind_children (P : Element -> Prop) :
  (forall tg a txt cs tl, Forall P cs -> P (mkElement tg a txt cs tl)) ->
  forall e, P e.
Proof.
  intros Hstep. fix IH 1. intros [tg a txt cs tl]. apply Hstep.
  induction cs as [|c cs IHcs]; constructor; [apply IH|exact IHcs].
Qed.

Lemma checked_inv (ast_parse : string -> result (list string))
    {A : Type} `{PyClass A} (P : A -> Prop) (self self' : A) :
  (forall i fix_i s, fixN i = Some fix_i -> P s -> P (fix_i s)) ->
  P self -> checked ast_parse self = Ok self' -> P self'.
Proof.
  intros Hfix HP. unfold checked, check.
  destruct (check_from _ _ _ _ _) as [s printed|] eqn:Hcheck; [|done].
  intros Heq. injection Heq as <-.
  by eapply (check_from_preserves ast_parse P) in Hcheck.
Qed.

Lemma Variable_init_unmarked (ast_parse : string -> result (list string))
    (xml : Element) (container : option ParsedElement) (v : Variable_) :
  Variable_init ast_parse xml container = Ok v -> var_overloaded v = false.
Proof.
  unfold Variable_init. intros Hinit.
  destruct (find_text "name" xml) as [nm|]; [simpl in Hinit|done].
  apply (checked_inv ast_parse (fun v => var_overloaded v = false)) in Hinit; [done| |done].
  intros i fix_i inst Hi Hs.
  destruct i as [|[|[|[|i]]]]; simpl in Hi; try discriminate; by injection Hi as <-.
Qed.

Lemma Enum_init_unmarked (ast_parse : string -> result (list string))
    (xml : Element) (container : option ParsedElement) (e : Enum) :
  Enum_init ast_parse xml container = Ok e -> enum_overloaded e = false.
Proof.
  unfold Enum_init. intros Hinit.
  destruct (find_text "name" xml) as [nm|]; [simpl in Hinit|done].
  destruct (List.find _ (attrib xml)) as [[? ?]|]; [simpl in Hinit|done].
  destruct (mapM _ _) as [values|]; [simpl in Hinit|done].
  apply (checked_inv ast_parse (fun e => enum_overloaded e = false)) in Hinit; [done| |done].
  intros i fix_i inst Hi. done.
Qed.

Lemma do_member_unmarked (ast_parse : string -> result (list string))
    (container : option ParsedElement) (member : Element) (col col' : Collected)
    (ms : list Member) :
  do_member ast_parse container member col = Ok (ms, col') ->
  Forall (fun m => unmarked m = true) ms.
Proof.
  unfold do_member. intros H.
  destruct (attrib_item (attrib member) "prot") as [prot|]; [simpl in H|done].
  destruct (String.eqb prot "private"); [injection H as <- _; constructor|].
  destruct (attrib_item (attrib member) "kind") as [kind|]; [simpl in H|done].
  destruct (String.eqb kind "variable").
  { destruct (Variable_init _ _ _) as [v|] eqn:Hv; [simpl in H|done].
    injection H as <- _. constructor; [|constructor].
    unfold unmarked. simpl. by rewrite (Variable_init_unmarked _ _ _ _ Hv). }
  destruct (String.eqb kind "function").
  { destruct (Function_init _ _ _) as [f|] eqn:Hf; [simpl in H|done].
    injection H as <- _. constructor; [|constructor].
    by apply Function_init_unmarked in Hf. }
  destruct (String.eqb kind "typedef").
  { destruct (Variable_init _ _ _) as [v|] eqn:Hv; [simpl in H|done].
    destruct (match find "templateparamlist" member with Some _ => _ | None => _ end)
      as [ts|]; [simpl in H|done].
    injection H as <- _. constructor; [|constructor].
    unfold unmarked. simpl. by rewrite (Variable_init_unmarked _ _ _ _ Hv). }
  destruct (String.eqb kind "enum").
  { destruct (Enum_init _ _ _) as [e|] eqn:He; [simpl in H|done].
    injection H as <- _. constructor; [|constructor].
    unfold unmarked. simpl. by rewrite (Enum_init_unmarked _ _ _ _ He). }
  destruct (String.eqb kind "friend"); injection H as <- _; constructor.
Qed.

Lemma do_iter_unmarked (ast_parse : string -> result (list string))
    (container : option ParsedElement) (root : Element) :
  forall col col' ms,
    do_iter ast_parse container root col = Ok (ms, col') ->
    Forall (fun m => unmarked m = true) ms.
Proof.
  induction root as [tg a txt cs tl IH] using Element_ind_children.
  simpl. induction IH as [|member cs Hmember _ IHcs]; intros col col' ms H.
  { injection H as <- _. constructor. }
  match type of H with (?step ≫= _) = _ => destruct step as [[ms1 col1]|] eqn:Hstep end;
    [simpl in H|done].
  match type of H with (?rest ≫= _) = _ => destruct rest as [[ms2 col2]|] eqn:Hrest end;
    [simpl in H|done].
  injection H as <- _. apply Forall_app. split; [|by eapply IHcs].
  clear Hrest IHcs.
  destruct (String.eqb (tag member) "sectiondef"); [by eapply Hmember|].
  destruct (String.eqb (tag member) "header").
  { destruct (text member); [|done]. injection Hstep as <- _. by repeat constructor. }
  destruct (String.eqb (tag member) "memberdef"); [by eapply do_member_unmarked|].
  repeat match type of Hstep with
         | (if ?b then _ else _) = _ => destruct b
         end; injection Hstep as <- _; by repeat constructor.
Qed.

(** The members of a scope that was built are those that [do_iter] yielded,
    none of them marked, indexed by [index_members]. *)
Lemma Class_init_members (ast_parse : string -> result (list string))
    (xml : Element) (container : option ParsedElement) (cls : Class_) :
  Class_init ast_parse xml container = Ok cls ->
  exists members templates,
    Forall (fun m => unmarked m = true) members /\
    cls_members cls = sc_members (index_members (cls_name cls) members templates).
Proof.
  unfold Class_init, Class_new. intros H.
  destruct (attrib_item (attrib xml) "kind") as [kind|]; [simpl in H|done].
  destruct (match find "templateparamlist" xml with Some _ => _ | None => _ end)
    as [generic|]; [simpl in H|done].
  destruct (do_iter _ _ _ _) as [[members col]|] eqn:Hiter; [simpl in H|done].
  apply do_iter_unmarked in Hiter.
  exists members, (col_templates col). split; [done|].
  unfold checked, check in H. simpl in H.
  match type of H with
  | context [attempt ?p ?s] => destruct (attempt p s) as [v [out [u|e]]]
  end.
  - by injection H as <-.
  - unfold surface_failure in H. by destruct (read_qualname _) as [? []].
Qed.

(** ** Blank text *)

Lemma lstrip_nil (l : chars) : lstrip l = [] -> Forall (fun c => is_space c = true) l.
Proof.
  induction l as [|c l IH]; simpl; [constructor|].
  destruct (is_space c) eqn:Hc; [|done]. intros Hl. constructor; auto.
Qed.

Lemma lstrip_blank (l : chars) :
  Forall (fun c => is_space c = true) (lstrip l) -> Forall (fun c => is_space c = true) l.
Proof.
  induction l as [|c l IH]; simpl; [done|].
  destruct (is_space c) eqn:Hc; [|done]. intros Hl. constructor; auto.
Qed.

Lemma strip_nil (s : chars) : strip s = [] -> Forall (fun c => is_space c = true) s.
Proof.
  unfold strip, rstrip. intros H.
  apply (f_equal (@rev ascii)) in H. rewrite rev_involutive in H. simpl in H.
  apply lstrip_nil in H. apply lstrip_blank.
  apply Forall_rev in H. by rewrite rev_involutive in H.
Qed.

Lemma blank_strip (s : chars) : Forall (fun c => is_space c = true) s -> strip s = [].
Proof.
  intros H. unfold strip.
  assert (lstrip s = []) as ->; [|done].
  induction H as [|c s Hc _ IH]; simpl; [done|]. by rewrite Hc.
Qed.

(** No pattern that begins with a word boundary matches in blank text. *)
Lemma sub_from_blank (r : regex) (repl : chars) (s : chars) :
  Forall (fun c => is_space c = true) s ->
  forall prev, word_before prev = false ->
    sub_from (Seq WordB r) repl 0 prev s = s.
Proof.
  induction 1 as [|c s Hc _ IH]; intros prev Hprev.
  - simpl. unfold match_at. simpl. by rewrite Hprev.
  - rewrite sub_from_cons. unfold match_at. cbn [rmatch word_after].
    rewrite Hprev, (is_space_not_word c Hc). cbn [xorb].
    f_equal. apply IH. simpl. by apply is_space_not_word.
Qed.

Lemma replace_blank (old new : chars) (o : ascii) (old' : chars) (s : chars) :
  old = o :: old' -> is_space o = false ->
  Forall (fun c => is_space c = true) s -> replace old new s = s.
Proof.
  intros -> Ho H. unfold replace. induction H as [|c s Hc _ IH]; simpl; [done|].
  destruct (eqc o c) eqn:Heq.
  - apply Ascii.eqb_eq in Heq. congruence.
  - simpl. by rewrite IH.
Qed.

(** The translation of blank text is empty. *)
Lemma simple_parse_blank (s : chars) : strip s = [] -> simple_parse_chars s = [].
Proof.
  intros Hs. pose proof (strip_nil s Hs) as Hblank.
  destruct s as [|c s]; [done|].
  assert (sub re_char_ptr "str" (c :: s) = c :: s) as Hptr.
  { unfold sub, re_sub.
    change re_char_ptr with
      (Seq WordB (Seqs [Opt (Seq (Str "const") (Plus sp)); Str "char"; Plus sp; Lit "*"%char])).
    by apply sub_from_blank. }
  unfold simple_parse_chars, simple_parse_head. cbv zeta. rewrite Hptr.
  unfold repl.
  rewrite (replace_blank (L "::") _ ":" [":"%char]) by done.
  rewrite (replace_blank (L "<") _ "<" []) by done.
  rewrite (replace_blank (L ">") _ ">" []) by done.
  rewrite (replace_blank (L "&") _ "&" []) by done.
  rewrite (replace_blank (L "*") _ "*" []) by done.
  rewrite (replace_blank (L "...") _ "." ["."%char; "."%char]) by done.
  rewrite Hs. reflexivity.
Qed.

(** An empty type expression has no parts, no [refid] and no [target]. *)
Lemma Type_init_empty (xml : option Element) :
  Type_is_empty (Type_init xml) = true ->
  parts (Type_init xml) = [] /\ refid (Type_init xml) = "" /\
  target (Type_init xml) = None.
Proof.
  destruct xml as [[tg a txt cs tl]|]; [|done].
  unfold Type_is_empty. simpl.
  destruct a; [|done]. destruct cs; [|done]. simpl. intros Htxt.
  assert (simple_parse_opt txt = "") as ->; [|done].
  destruct txt as [t|]; [|done]. simpl.
  apply negb_true_iff, nonempty_false in Htxt.
  unfold simple_parse. rewrite simple_parse_blank; [done|].
  unfold str_strip in Htxt. apply (f_equal L) in Htxt. by rewrite L_S in Htxt.
Qed.

(** On an empty type expression that the constructor built, leaving it
    alone is what the two lookups would do as well, unless the ID registry
    has an entry under the empty id. *)
Lemma Type_resolve_constructed_empty
    (INSTANCES NAMESPACE : gmap string ParsedElement) (xml : option Element) :
  Type_is_empty (Type_init xml) = true ->
  INSTANCES !! "" = None ->
  resolve_by_spec INSTANCES NAMESPACE (Type_init xml)
  = Type_resolve INSTANCES NAMESPACE (Type_init xml).
Proof.
  intros Hemp HI. rewrite Type_resolve_unfold, Hemp.
  destruct (Type_init_empty xml Hemp) as (Hp & Hr & Ht).
  destruct (Type_init xml) as [x o ps tg]. cbn [parts target] in Hp, Ht. subst ps tg.
  cbn [resolve_by_spec map]. by rewrite Hr, HI.
Qed.

(** * Further properties *)

(** ** Trimming *)

Lemma lstrip_start (s : chars) : nonspace_start (lstrip s) = true.
Proof.
  induction s as [|c s IH]; simpl; [done|].
  destruct (is_space c) eqn:Hc; [exact IH|]. simpl. by rewrite Hc.
Qed.

Lemma lstrip_id (s : chars) : nonspace_start s = true -> lstrip s = s.
Proof.
  destruct s as [|c s]; simpl; [done|]. intros Hc. apply negb_true_iff in Hc. by rewrite Hc.
Qed.

Lemma lstrip_snoc (l : chars) (c : ascii) :
  is_space c = false -> lstrip (l ++ [c]) = lstrip l ++ [c].
Proof.
  intros Hc. induction l as [|d l IH]; simpl; [by rewrite Hc|].
  destruct (is_space d); [exact IH|done].
Qed.

Lemma rstrip_start (s : chars) : nonspace_start s = true -> nonspace_start (rstrip s) = true.
Proof.
  destruct s as [|c s]; [done|]. simpl. intros Hc. apply negb_true_iff in Hc.
  unfold rstrip. simpl. rewrite lstrip_snoc by done. rewrite rev_unit. simpl. by rewrite Hc.
Qed.

Lemma rstrip_rstrip (s : chars) : rstrip (rstrip s) = rstrip s.
Proof.
  unfold rstrip. rewrite rev_involutive. f_equal. apply lstrip_id, lstrip_start.
Qed.

Lemma strip_strip (s : chars) : strip (strip s) = strip s.
Proof.
  unfold strip. rewrite (lstrip_id (rstrip (lstrip s))).
  - apply rstrip_rstrip.
  - apply rstrip_start, lstrip_start.
Qed.

Lemma lstrip_Forall (P : ascii -> Prop) (s : chars) : Forall P s -> Forall P (lstrip s).
Proof.
  induction 1 as [|c s Hc Hs IH]; simpl; [done|].
  destruct (is_space c); [exact IH|by constructor].
Qed.

Lemma strip_Forall (P : ascii -> Prop) (s : chars) : Forall P s -> Forall P (strip s).
Proof.
  intros Hs. unfold strip, rstrip.
  apply Forall_rev, lstrip_Forall, Forall_rev, lstrip_Forall, Hs.
Qed.

(** ** The characters of a rewritten text *)

Lemma sub_from_Forall (P : ascii -> Prop) (r : regex) (repl : chars) :
  Forall P repl ->
  forall s skip prev, Forall P s -> Forall P (sub_from r repl skip prev s).
Proof.
  intros Hrepl. induction s as [|c s IH]; intros skip prev Hs.
  - destruct skip; simpl; [|done]. by destruct (match_at r prev []).
  - apply Forall_cons in Hs as [Hc Hs]. destruct skip as [|n]; simpl; [|by apply IH].
    destruct (match_at r prev (c :: s)) as [[[|n] caps]|].
    + apply Forall_app. split; [done|]. constructor; [done|by apply IH].
    + apply Forall_app. split; [done|by apply IH].
    + constructor; [done|by apply IH].
Qed.

Lemma replace_from_Forall (P : ascii -> Prop) (old new : chars) :
  Forall P new ->
  forall s skip, Forall P s -> Forall P (replace_from old new skip s).
Proof.
  intros Hnew. induction s as [|c s IH]; intros skip Hs; [done|].
  apply Forall_cons in Hs as [Hc Hs]. destruct skip as [|n]; [|by apply IH].
  cbn [replace_from]. destruct (starts_with old (c :: s)).
  - apply Forall_app. split; [done|by apply IH].
  - constructor; [done|by apply IH].
Qed.

(** Replacing a character by a text that does not hold it removes it. *)
Lemma replace_removes (c0 : ascii) (new : chars) (s : chars) :
  Forall (fun c => c <> c0) new ->
  Forall (fun c => c <> c0) (replace [c0] new s).
Proof.
  intros Hnew. unfold replace. induction s as [|c s IH]; [done|].
  cbn [replace_from starts_with length]. rewrite andb_true_r.
  destruct (eqc c0 c) eqn:Heq.
  - apply Forall_app. split; [done|exact IH].
  - constructor; [|exact IH]. intros ->. unfold eqc in Heq. by rewrite Ascii.eqb_refl in Heq.
Qed.

Local Ltac keep_away :=
  repeat first
    [ apply strip_Forall
    | apply replace_removes; by repeat constructor
    | apply sub_from_Forall; [by repeat constructor|]
    | apply replace_from_Forall; [by repeat constructor|] ].

Lemma simple_parse_tail_Forall (c0 : ascii) (s : chars) :
  c0 ∈ rewritten_chars ->
  Forall (fun c => c <> c0) s -> Forall (fun c => c <> c0) (simple_parse_tail s).
Proof.
  intros Hin Hs. unfold simple_parse_tail, sub, re_sub. cbv zeta.
  apply list_elem_of_In in Hin. simpl in Hin.
  destruct Hin as [<-|[<-|[<-|[<-|[]]]]]; keep_away; exact Hs.
Qed.

Lemma simple_parse_chars_avoids (c0 : ascii) (s : chars) :
  c0 ∈ rewritten_chars -> Forall (fun c => c <> c0) (simple_parse_chars s).
Proof.
  intros Hin. destruct s as [|d s]; [done|]. unfold simple_parse_chars.
  apply simple_parse_tail_Forall; [done|].
  unfold simple_parse_head, sub, re_sub, repl. cbv zeta.
  apply list_elem_of_In in Hin. simpl in Hin.
  destruct Hin as [<-|[<-|[<-|[<-|[]]]]]; by keep_away.
Qed.

(** X1. A text of white space only translates to the empty text. *)
Theorem X1_simple_parse_blank (s : string) :
  str_strip s = "" -> simple_parse s = "".
Proof.
  intros Hs. unfold simple_parse. rewrite simple_parse_blank; [done|].
  unfold str_strip in Hs. apply (f_equal L) in Hs. by rewrite L_S in Hs.
Qed.

Lemma X1_simple_parse_blank_witness :
  let s := String " " (String "009" (String "010" " ")) in
  str_strip s = "" /\ simple_parse s = "".
Proof.
  split; [vm_compute; reflexivity|].
  apply X1_simple_parse_blank. vm_compute. reflexivity.
Defined.

(** X2. The translation of any text has no white space at its ends:
    trimming it again changes nothing. *)
Theorem X2_simple_parse_trimmed (s : string) :
  str_strip (simple_parse s) = simple_parse s.
Proof.
  unfold str_strip, simple_parse. rewrite L_S. f_equal.
  unfold simple_parse_chars. destruct (L s); [done|].
  unfold simple_parse_tail. cbv zeta. apply strip_strip.
Qed.

(** X3. The translation of any text holds none of the characters [<], [>],
    [&] and [*]. *)
Theorem X3_simple_parse_no_brackets (s : string) :
  Forall (fun c => c ∉ rewritten_chars) (L (simple_parse s)).
Proof.
  unfold simple_parse. rewrite L_S. apply Forall_forall. intros c Hc Hin.
  pose proof (simple_parse_chars_avoids c (L s) Hin) as Hall.
  rewrite Forall_forall in Hall. by apply (Hall c Hc).
Qed.
(** ** Type expressions as the constructor leaves them *)

Lemma Type_built_unfold (t : Type_) :
  Type_built t =
  negb (bool_decide (is_Some (target t)))
  && forallb (fun p => match p with
                       | PStr s => nonempty s
                       | PType t' => Type_bool t' && Type_built t'
                       end) (parts t).
Proof. by destruct t. Qed.

Lemma Type_of_built (xml : Element) : Type_built (Type_of xml) = true.
Proof.
  induction xml as [tg a txt cs tl IH] using Element_ind_children.
  cbn [Type_of]. rewrite Type_built_unfold. cbn [target parts]. simpl negb. cbn [andb].
  apply forallb_forall. intros p Hp. apply filter_In in Hp as [Hin Hb].
  destruct p as [s|t']; [exact Hb|]. simpl in Hb. rewrite Hb. simpl.
  destruct Hin as [Heq|Hin]; [discriminate|].
  apply in_flat_map in Hin as (c & Hc & Hin).
  destruct Hin as [Heq|[Heq|[]]]; [|discriminate]. injection Heq as <-.
  rewrite Forall_forall in IH. apply IH. by apply list_elem_of_In.
Qed.

Lemma concat_cons_nonempty (x : string) (xs : list string) :
  x <> "" -> String.concat "" (x :: xs) <> "".
Proof.
  intros Hx. destruct x as [|c x]; [done|]. destruct xs; simpl; [done|discriminate].
Qed.

Lemma Type_built_str (t : Type_) : Type_built t = true -> Type_str t <> "".
Proof.
  induction t as [x o ps g IH] using Type_ind_parts. intros Hb.
  rewrite Type_built_unfold in Hb. cbn [target parts] in Hb.
  apply andb_true_iff in Hb as [Hg Hps].
  rewrite Type_str_unfold. cbn [override target parts].
  destruct (nonempty o) eqn:Ho; [by apply nonempty_true|].
  destruct g as [e|]; [done|].
  destruct ps as [|p ps]; [done|]. cbn [is_nil]. unfold join. cbn [map].
  apply concat_cons_nonempty.
  simpl in Hps. apply andb_true_iff in Hps as [Hp _].
  apply Forall_cons in IH as [IHp _].
  destruct p as [s|t']; simpl in *.
  - by apply nonempty_true.
  - apply andb_true_iff in Hp as [_ Hp]. by apply IHp.
Qed.

(** X4. A type expression, as its constructor leaves it, binds no target
    and holds only truthy parts at every level, and it never renders as the
    empty text: [type_parse] returns no empty text. *)
Theorem X4_type_parse_nonempty (xml : option Element) :
  Type_built (Type_init xml) = true /\ type_parse xml <> "".
Proof.
  assert (Type_built (Type_init xml) = true) as Hb.
  { destruct xml as [x|]; [apply Type_of_built|reflexivity]. }
  split; [exact Hb|]. by apply Type_built_str.
Qed.

(** ** Empty type expressions *)

Lemma Type_init_empty_override (xml : option Element) :
  Type_is_empty (Type_init xml) = true -> override (Type_init xml) = "".
Proof.
  intros Hemp. destruct (Type_init_empty xml Hemp) as (Hp & _ & _).
  destruct xml as [[tg a txt cs tl]|]; [|done].
  cbn [Type_init Type_of override parts] in *. by rewrite Hp.
Qed.

(** X5. A type expression built from no node, or from a node with no
    attribute, no child and no text but white space, is falsy and renders
    as [Any]; resolution leaves it as it is and the probe answers that it
    is not resolvable, whatever the registries hold. *)
Theorem X5_empty_type (INSTANCES NAMESPACE : gmap string ParsedElement)
    (xml : option Element) :
  Type_is_empty (Type_init xml) = true ->
  Type_bool (Type_init xml) = false /\
  Type_str (Type_init xml) = "Any" /\
  Type_resolve INSTANCES NAMESPACE (Type_init xml) = Type_init xml /\
  Type_is_resolvable INSTANCES NAMESPACE (Type_init xml) = Some (false, Type_init xml).
Proof.
  intros Hemp. destruct (Type_init_empty xml Hemp) as (Hp & _ & Ht).
  pose proof (Type_init_empty_override xml Hemp) as Ho.
  assert (Type_resolve INSTANCES NAMESPACE (Type_init xml) = Type_init xml) as Hres.
  { by rewrite Type_resolve_unfold, Hemp. }
  split; [|split; [|split]].
  - rewrite Type_bool_unfold. by rewrite Hp, Ho, Ht.
  - by rewrite Type_str_unfold, Ho, Ht, Hp.
  - exact Hres.
  - unfold Type_is_resolvable. rewrite Type_depth_unfold. rewrite probe_S.
    by rewrite Hres, Ht, Hp.
Qed.

Lemma X5_empty_type_witness :
  let xml := Some (mkElement "type" [] (Some "  ") [] None) in
  Type_is_empty (Type_init xml) = true /\
  Type_str (Type_init xml) = "Any".
Proof.
  split; [vm_compute; reflexivity|].
  apply (X5_empty_type ∅ ∅ (Some (mkElement "type" [] (Some "  ") [] None))).
  vm_compute. reflexivity.
Defined.

(** ** Resolution by the ID registry *)

Lemma attrib_get_nonempty (a : list (string * string)) (key v : string) :
  attrib_get a key "" = v -> v <> "" -> is_nil a = false.
Proof. destruct a; simpl; [congruence|done]. Qed.

(** X6. Once a declaration was entered into the ID registry under its
    non-empty [id], resolving a type expression whose node refers to that
    id binds its target to the declaration, the probe answers that it is
    resolvable, and a type expression without an override then renders as
    the declaration's qualified name. A declaration is truthy, and that is
    what is used of it. *)
Theorem X6_registered_id_resolves (INSTANCES NAMESPACE : gmap string ParsedElement)
    (decl : Element) (e : ParsedElement) (t : Type_) (x : Element) :
  ParsedElement_bool e = true ->
  attrib_get (attrib decl) "id" "" <> "" ->
  t_xml t = Some x ->
  attrib_get (attrib x) "refid" "" = attrib_get (attrib decl) "id" "" ->
  let I' := register_instance decl e INSTANCES in
  target (Type_resolve I' NAMESPACE t) = Some e /\
  Type_is_resolvable I' NAMESPACE t = Some (true, Type_resolve I' NAMESPACE t) /\
  (override t = "" -> Type_str (Type_resolve I' NAMESPACE t) = qualname e).
Proof.
  intros Hbool Hid Hx Href I'.
  assert (Type_is_empty t = false) as Hemp.
  { unfold Type_is_empty. rewrite Hx.
    by rewrite (attrib_get_nonempty _ _ _ Href Hid). }
  assert (I' !! attrib_get (attrib x) "refid" "" = Some e) as Hlook.
  { unfold I', register_instance. apply nonempty_true in Hid. rewrite Hid, Href.
    apply lookup_insert_eq. }
  assert (target (Type_resolve I' NAMESPACE t) = Some e) as Htg.
  { rewrite Type_resolve_unfold, Hemp, Hx. simpl. unfold bind_target.
    rewrite Hlook. cbn [target_bool]. by rewrite Hbool. }
  split; [exact Htg|]. split.
  - unfold Type_is_resolvable. rewrite Type_depth_unfold, probe_S. by rewrite Htg.
  - intros Ho. rewrite Type_str_unfold, override_resolve, Ho, Htg, Hbool. done.
Qed.

Lemma X6_registered_id_resolves_witness :
  let decl := mkElement "memberdef" [("kind", "enum"); ("id", "x1")] None [] None in
  let e := mkParsedElement "Enum" (Some "ogdf.Color") None (Some "Color") in
  Type_str (Type_resolve (register_instance decl e ∅) ∅ (Type_init (Some ex_ref_xml)))
  = "ogdf.Color".
Proof.
  apply (X6_registered_id_resolves ∅ ∅
           (mkElement "memberdef" [("kind", "enum"); ("id", "x1")] None [] None)
           (mkParsedElement "Enum" (Some "ogdf.Color") None (Some "Color"))
           (Type_init (Some ex_ref_xml)) ex_ref_xml); vm_compute; try reflexivity.
  discriminate.
Defined.

(** ** What resolution leaves alone *)

Lemma parts_resolve (INSTANCES NAMESPACE : gmap string ParsedElement) (t : Type_) :
  parts (Type_resolve INSTANCES NAMESPACE t) = parts t \/
  parts (Type_resolve INSTANCES NAMESPACE t)
  = map (Part_resolve INSTANCES NAMESPACE) (parts t).
Proof.
  rewrite Type_resolve_unfold. destruct (Type_is_empty t); [by left|].
  destruct (t_xml t); [by right|by left].
Qed.

(** X7. Resolution changes neither the node of a type expression, nor its
    override, nor whether it is empty, nor the number of its parts, nor any
    part that is a string; a type expression with an override renders after
    resolution as before. *)
Theorem X7_resolve_leaves_alone (INSTANCES NAMESPACE : gmap string ParsedElement)
    (t : Type_) :
  let t' := Type_resolve INSTANCES NAMESPACE t in
  t_xml t' = t_xml t /\ override t' = override t /\
  Type_is_empty t' = Type_is_empty t /\
  length (parts t') = length (parts t) /\
  (forall i s, parts t' !! i = Some (PStr s) <-> parts t !! i = Some (PStr s)) /\
  (nonempty (override t) = true -> Type_str t' = Type_str t).
Proof.
  intros t'. unfold t'.
  pose proof (t_xml_resolve INSTANCES NAMESPACE t) as Hx.
  pose proof (override_resolve INSTANCES NAMESPACE t) as Ho.
  split; [exact Hx|]. split; [exact Ho|]. split; [by apply Type_is_empty_xml|].
  destruct (parts_resolve INSTANCES NAMESPACE t) as [->| ->].
  - split; [done|]. split; [done|]. intros Hne. by rewrite !Type_str_unfold, Ho, Hne.
  - split; [by rewrite length_map|]. split.
    + intros i s.
      change (map (Part_resolve INSTANCES NAMESPACE) (parts t))
        with (Part_resolve INSTANCES NAMESPACE <$> parts t).
      rewrite list_lookup_fmap. destruct (parts t !! i) as [[s'|t0]|]; simpl; done.
    + intros Hne. by rewrite !Type_str_unfold, Ho, Hne.
Qed.
(** ** The summary line *)

Lemma L_app (a b : string) : L (a +:+ b) = L a ++ L b.
Proof. unfold L. induction a as [|c a IH]; simpl; [done|]. by rewrite IH. Qed.

Lemma join_Forall (P : ascii -> Prop) (sep : string) (l : list string) :
  Forall P (L sep) -> Forall (fun s => Forall P (L s)) l -> Forall P (L (join sep l)).
Proof.
  intros Hsep Hl. unfold join. induction Hl as [|s l Hs Hl IH]; [done|].
  destruct l as [|s' l]; [exact Hs|].
  change (String.concat sep (s :: s' :: l)) with (s +:+ sep +:+ String.concat sep (s' :: l)).
  rewrite !L_app. by repeat (apply Forall_app; split).
Qed.

Lemma splitlines_go_lines (s : chars) :
  forall cur after_cr,
    Forall (fun c => splitlines_brk c = false) cur ->
    Forall (Forall (fun c => splitlines_brk c = false)) (splitlines_go cur after_cr s).
Proof.
  induction s as [|c s IH]; intros cur after_cr Hcur; simpl.
  - destruct cur; [done|]. repeat constructor. by apply Forall_rev.
  - destruct (eqc c "010" && after_cr); [by apply IH|].
    destruct (splitlines_brk c) eqn:Hc.
    + constructor; [by apply Forall_rev|by apply IH].
    + apply IH. by constructor.
Qed.

(** X8. The summary that the base constructor stores holds no line break:
    none of the characters at which [splitlines] splits. *)
Theorem X8_brief_single_line (xml : Element) (container : option ParsedElement)
    (b : string) :
  base_brief (ParsedElement_init xml container) = Some b ->
  Forall (fun c => splitlines_brk c = false) (L b).
Proof.
  simpl. unfold brief_of. destruct (find "briefdescription" xml) as [e|]; [|done].
  intros Hb. injection Hb as <-.
  apply join_Forall; [by repeat constructor|].
  apply Forall_fmap. unfold splitlines. apply Forall_fmap.
  eapply Forall_impl; [apply (splitlines_go_lines _ [] false); constructor|].
  intros l Hl. simpl. unfold str_strip. rewrite !L_S. by apply strip_Forall.
Qed.

Lemma X8_brief_single_line_witness :
  let xml := mkElement "memberdef" [] None
               [mkElement "briefdescription" [] None
                  [mkElement "para" [] (Some (String "010" "Returns the" +:+ nl +:+ "  degree. "))
                     [] (Some nl)] None] None in
  base_brief (ParsedElement_init xml None) = Some "Returns the degree." /\
  Forall (fun c => splitlines_brk c = false) (L "Returns the degree.").
Proof.
  split; [vm_compute; reflexivity|].
  apply (X8_brief_single_line
           (mkElement "memberdef" [] None
              [mkElement "briefdescription" [] None
                 [mkElement "para" [] (Some (String "010" "Returns the" +:+ nl +:+ "  degree. "))
                    [] (Some nl)] None] None) None).
  vm_compute. reflexivity.
Defined.

(** ** The repairs that the loop applies *)

Section CheckRepairs.
Variable ast_parse : string -> result (list string).
Context {A : Type} `{PyClass A}.

Lemma attempt_accepted (self : A) :
  accepted ast_parse self <->
  exists v out u, attempt ast_parse self = (v, (out, Ok u)).
Proof.
  split.
  - intros (val & ws & Hval & Hparse). unfold attempt. rewrite Hval, Hparse.
    unfold report_warnings. destruct ws as [|w ws]; [by eauto|].
    destruct (read_qualname_rendered self val Hval) as [out ->]. eauto.
  - intros (v & out & u & Hatt). pose proof (attempt_spec ast_parse self) as Hspec.
    by rewrite Hatt in Hspec.
Qed.

Lemma surface_failure_Failed (self : A) (i : nat) (e : exn) (v : option string)
    (stderr : list string) (self' : A) (out : list string) :
  surface_failure self i e v stderr <> Passed self' out.
Proof. unfold surface_failure. by destruct (read_qualname self) as [? []]. Qed.

Lemma apply_fixes_bound (k : nat) :
  forall i (self s : A), 1 <= k -> apply_fixes i k self = Some s -> i + k <= S max_fix.
Proof.
  induction k as [|k IH]; intros i self s Hk Hs; [lia|].
  simpl in Hs. destruct (fixN i) as [fix_i|] eqn:Hfix; [|done].
  assert (i <= max_fix) as Hi.
  { destruct (decide (i <= max_fix)); [done|]. rewrite fixN_bound in Hfix by lia. done. }
  destruct k as [|k]; [lia|].
  apply IH in Hs; lia.
Qed.

(** The loop is left by [break] with [self'] exactly when [self'] is [self]
    after the first [k] repairs still to come, for the least [k] that gives
    an instance that renders and parses. *)
Lemma check_from_repairs (fuel : nat) :
  forall (i : nat) (self : A) (stderr : list string) (self' : A),
    fuel + i = S max_fix ->
    (exists out, check_from ast_parse fuel i self stderr = Passed self' out) <->
    (exists k, apply_fixes i k self = Some self' /\ accepted ast_parse self' /\
               forall j, j < k ->
                 exists sj, apply_fixes i j self = Some sj /\ ~ accepted ast_parse sj).
Proof.
  induction fuel as [|fuel IH]; intros i self stderr self' Hfuel.
  - simpl. destruct (attempt ast_parse self) as [v [out [u|e]]] eqn:Hatt.
    + assert (accepted ast_parse self) as Hacc by (apply attempt_accepted; eauto).
      split.
      * intros (o & Ho). injection Ho as <- _. exists 0. repeat split; [done|]. lia.
      * intros (k & Hk & _ & Hleast). destruct k as [|k]; [injection Hk as <-; eauto|].
        destruct (Hleast 0) as (sj & Hsj & Hno); [lia|]. injection Hsj as <-. done.
    + assert (~ accepted ast_parse self) as Hno.
      { intros Hacc. apply attempt_accepted in Hacc as (? & ? & ? & Heq).
        rewrite Hatt in Heq. done. }
      split.
      * intros (o & Ho). by apply surface_failure_Failed in Ho.
      * intros (k & Hk & Hacc & _). destruct k as [|k]; [by injection Hk as <-|].
        simpl in Hk. rewrite fixN_bound in Hk by lia. done.
  - simpl. destruct (attempt ast_parse self) as [v [out [u|e]]] eqn:Hatt.
    + assert (accepted ast_parse self) as Hacc by (apply attempt_accepted; eauto).
      split.
      * intros (o & Ho). injection Ho as <- _. exists 0. repeat split; [done|]. lia.
      * intros (k & Hk & _ & Hleast). destruct k as [|k]; [injection Hk as <-; eauto|].
        destruct (Hleast 0) as (sj & Hsj & Hno); [lia|]. injection Hsj as <-. done.
    + assert (~ accepted ast_parse self) as Hno.
      { intros Hacc. apply attempt_accepted in Hacc as (? & ? & ? & Heq).
        rewrite Hatt in Heq. done. }
      destruct (fixN i) as [fix_i|] eqn:Hfix.
      * rewrite (IH (S i) (fix_i self) (stderr ++ out) self') by lia.
        split.
        -- intros (k & Hk & Hacc & Hleast). exists (S k). simpl. rewrite Hfix.
           repeat split; [done|done|].
           intros [|j] Hj; [by exists self|].
           destruct (Hleast j) as (sj & Hsj & Hnj); [lia|].
           exists sj. simpl. by rewrite Hfix.
        -- intros (k & Hk & Hacc & Hleast). destruct k as [|k]; [by injection Hk as <-|].
           simpl in Hk. rewrite Hfix in Hk. exists k. repeat split; [done|done|].
           intros j Hj. destruct (Hleast (S j)) as (sj & Hsj & Hnj); [lia|].
           simpl in Hsj. rewrite Hfix in Hsj. by exists sj.
      * split.
        -- intros (o & Ho). by apply surface_failure_Failed in Ho.
        -- intros (k & Hk & Hacc & _). destruct k as [|k]; [by injection Hk as <-|].
           simpl in Hk. by rewrite Hfix in Hk.
Qed.

Lemma checked_repairs (self self' : A) :
  checked ast_parse self = Ok self' <->
  exists k, k <= max_fix /\ apply_fixes 1 k self = Some self' /\
            accepted ast_parse self' /\
            forall j, j < k ->
              exists sj, apply_fixes 1 j self = Some sj /\ ~ accepted ast_parse sj.
Proof.
  assert (checked ast_parse self = Ok self' <->
          exists out, check ast_parse self = Passed self' out) as ->.
  { unfold checked. destruct (check ast_parse self) as [s o|s i e o].
    - split; [intros [= <-]; eauto|]. by intros (o' & [= <- _]).
    - split; [done|]. by intros (o' & ?). }
  unfold check. rewrite check_from_repairs by lia.
  split.
  - intros (k & Hk & Hacc & Hleast). exists k. repeat split; try done.
    destruct k as [|k]; [lia|]. apply apply_fixes_bound in Hk; lia.
  - intros (k & _ & Hk & Hacc & Hleast). by exists k.
Qed.

Lemma checked_accepted (self self' : A) :
  checked ast_parse self = Ok self' -> accepted ast_parse self'.
Proof. intros Hc. apply checked_repairs in Hc as (k & _ & _ & Hacc & _). exact Hacc. Qed.

End CheckRepairs.

(** X9. For an instance of any class, [check] returns normally exactly when
    some number [k] of the repairs [fix1], [fix2], ..., applied in this
    order, gives an instance that renders and parses; it then leaves the
    instance after the least such number of repairs, and no repair beyond
    those the class defines is ever applied. *)
Theorem X9_check_applies_least_repairs
    (ast_parse : string -> result (list string))
    {A : Type} `{PyClass A} (self self' : A) :
  checked ast_parse self = Ok self' <->
  exists k, k <= max_fix /\ apply_fixes 1 k self = Some self' /\
            accepted ast_parse self' /\
            forall j, j < k ->
              exists sj, apply_fixes 1 j self = Some sj /\ ~ accepted ast_parse sj.
Proof. apply checked_repairs. Qed.
(** ** What the repairs change *)

Lemma Param_fix_name (i : nat) (fix_i : Param -> Param) (p : Param) :
  fixN i = Some fix_i ->
  fix_i p = mkParam (param_base p) (param_name (fix_i p)) (param_type p) (param_default p).
Proof. destruct i as [|[|i]]; simpl; intros Hi; try discriminate. by injection Hi as <-. Qed.

Lemma Template_fix_name (i : nat) (fix_i : Template -> Template) (t : Template) :
  fixN i = Some fix_i ->
  fix_i t = mkTemplate (templ_base t) (templ_name (fix_i t)) (templ_ignore t).
Proof. destruct i as [|[|i]]; simpl; intros Hi; try discriminate. by injection Hi as <-. Qed.

Lemma Function_fix_name (i : nat) (fix_i : Function -> Function) (f : Function) :
  fixN i = Some fix_i -> fix_i f = fn_set_name f (fn_name (fix_i f)).
Proof.
  destruct f as [b n r ps ts o].
  destruct i as [|[|[|[|[|[|i]]]]]]; simpl; intros Hi; try discriminate;
    injection Hi as <-;
    unfold Function_fix1, Function_fix2, Function_fix3, Function_fix4, Function_fix5;
    repeat (destruct (partition _ _) as [[? ?] ?]);
    repeat match goal with |- context [if ?b then _ else _] => destruct b end;
    reflexivity.
Qed.

Lemma Variable_fix_name (i : nat) (fix_i : Variable_ -> Variable_) (v : Variable_) :
  fixN i = Some fix_i -> fix_i v = var_set_name v (var_name (fix_i v)).
Proof.
  destruct v as [b n t x o].
  destruct i as [|[|[|[|i]]]]; simpl; intros Hi; try discriminate; by injection Hi as <-.
Qed.

(** X10. Every repair strategy of every class changes the name of the
    instance and nothing else. *)
Theorem X10_repairs_change_names_only :
  (forall i fix_i (p : Param), fixN i = Some fix_i ->
     fix_i p = mkParam (param_base p) (param_name (fix_i p)) (param_type p)
                       (param_default p)) /\
  (forall i fix_i (t : Template), fixN i = Some fix_i ->
     fix_i t = mkTemplate (templ_base t) (templ_name (fix_i t)) (templ_ignore t)) /\
  (forall i fix_i (f : Function), fixN i = Some fix_i ->
     fix_i f = fn_set_name f (fn_name (fix_i f))) /\
  (forall i fix_i (v : Variable_), fixN i = Some fix_i ->
     fix_i v = var_set_name v (var_name (fix_i v))) /\
  (forall i, @fixN Enum _ i = None) /\
  (forall i, @fixN Class_ _ i = None).
Proof.
  split; [exact Param_fix_name|]. split; [exact Template_fix_name|].
  split; [exact Function_fix_name|]. split; [exact Variable_fix_name|]. done.
Qed.

(** ** Constructors, taken apart *)

Section ConstructorFacts.
Variable ast_parse : string -> result (list string).

Lemma checked_no_fix {A : Type} `{PyClass A} (self self' : A) :
  max_fix = 0 -> checked ast_parse self = Ok self' -> self' = self.
Proof.
  intros Hmax Hc. apply checked_repairs in Hc as (k & Hk & Hfix & _).
  assert (k = 0) as -> by lia. by injection Hfix as <-.
Qed.

Lemma Function_init_inv (xml : Element) (container : option ParsedElement) (f : Function) :
  Function_init ast_parse xml container = Ok f ->
  exists nm params templ,
    find_text "name" xml = Ok nm /\
    mapM (fun p => Param_init ast_parse p container) (iterfind "param" xml) = Ok params /\
    checked ast_parse (mkFunction (ParsedElement_init xml container) nm
                         (Type_init (find "type" xml)) params templ false) = Ok f.
Proof.
  unfold Function_init. intros Hinit.
  destruct (find_text "name" xml) as [nm|]; [simpl in Hinit|done].
  destruct (mapM _ (iterfind "param" xml)) as [params|]; [simpl in Hinit|done].
  destruct (match find "templateparamlist" xml with Some _ => _ | None => _ end)
    as [templ|]; [simpl in Hinit|done].
  by exists nm, params, templ.
Qed.

Lemma Variable_init_inv (xml : Element) (container : option ParsedElement) (v : Variable_) :
  Variable_init ast_parse xml container = Ok v ->
  exists nm,
    find_text "name" xml = Ok nm /\
    checked ast_parse (mkVariable (ParsedElement_init xml container) nm
                         (PType (Type_init (find "type" xml))) (PStr "...") false) = Ok v.
Proof.
  unfold Variable_init. intros Hinit.
  destruct (find_text "name" xml) as [nm|]; [simpl in Hinit|done]. by exists nm.
Qed.

Lemma Enum_init_inv (xml : Element) (container : option ParsedElement) (e : Enum) :
  Enum_init ast_parse xml container = Ok e ->
  exists nm strong values,
    find_text "name" xml = Ok nm /\
    mapM (fun ev => v ← Variable_init ast_parse ev
                          (Some (mkParsedElement "Enum"
                                   (Some (type_parse (find "compoundname" xml)))
                                   None (Some (str_strip nm))));
                    Ok (var_set_value v (PStr "enum.auto()")))
         (iterfind "enumvalue" xml) = Ok values /\
    e = mkEnum (ParsedElement_init xml container) (type_parse (find "compoundname" xml))
               (str_strip nm) strong values false /\
    accepted ast_parse e.
Proof.
  unfold Enum_init. intros Hinit.
  destruct (find_text "name" xml) as [nm|]; [simpl in Hinit|done].
  destruct (List.find _ (attrib xml)) as [[? v]|]; [simpl in Hinit|done].
  destruct (mapM _ _) as [values|] eqn:Hvalues; [simpl in Hinit|done].
  exists nm, (String.eqb v "yes"), values. split; [done|]. split; [exact Hvalues|].
  pose proof (checked_accepted _ _ _ Hinit) as Hacc.
  apply checked_no_fix in Hinit; [|done]. by subst e.
Qed.

Lemma Function_init_frame (xml : Element) (container : option ParsedElement) (f : Function) :
  Function_init ast_parse xml container = Ok f ->
  fn_base f = ParsedElement_init xml container /\
  fn_returnt f = Type_init (find "type" xml) /\
  fn_overloaded f = false /\
  accepted ast_parse f.
Proof.
  intros Hinit. apply Function_init_inv in Hinit as (nm & params & templ & _ & _ & Hc).
  split; [|split; [|split]]; [| | |by eapply checked_accepted].
  - apply (checked_inv ast_parse (fun f => fn_base f = ParsedElement_init xml container))
      in Hc; [done| |done].
    intros i fix_i s Hi Hs. by rewrite (Function_fix_name i fix_i s Hi).
  - apply (checked_inv ast_parse (fun f => fn_returnt f = Type_init (find "type" xml)))
      in Hc; [done| |done].
    intros i fix_i s Hi Hs. by rewrite (Function_fix_name i fix_i s Hi).
  - apply (checked_inv ast_parse (fun f => fn_overloaded f = false)) in Hc; [done| |done].
    intros i fix_i s Hi Hs. by rewrite (Function_fix_name i fix_i s Hi).
Qed.

Lemma Variable_init_frame (xml : Element) (container : option ParsedElement)
    (v : Variable_) :
  Variable_init ast_parse xml container = Ok v ->
  var_base v = ParsedElement_init xml container /\
  var_type v = PType (Type_init (find "type" xml)) /\
  var_value v = PStr "..." /\
  accepted ast_parse v.
Proof.
  intros Hinit. apply Variable_init_inv in Hinit as (nm & _ & Hc).
  split; [|split; [|split]]; [| | |by eapply checked_accepted].
  - apply (checked_inv ast_parse (fun v => var_base v = ParsedElement_init xml container))
      in Hc; [done| |done].
    intros i fix_i s Hi Hs. by rewrite (Variable_fix_name i fix_i s Hi).
  - apply (checked_inv ast_parse
             (fun v => var_type v = PType (Type_init (find "type" xml)))) in Hc; [done| |done].
    intros i fix_i s Hi Hs. by rewrite (Variable_fix_name i fix_i s Hi).
  - apply (checked_inv ast_parse (fun v => var_value v = PStr "...")) in Hc; [done| |done].
    intros i fix_i s Hi Hs. by rewrite (Variable_fix_name i fix_i s Hi).
Qed.

Lemma Class_init_inv (xml : Element) (container : option ParsedElement) (c : Class_) :
  Class_init ast_parse xml container = Ok c ->
  exists u1 u2, Class_new ast_parse xml container = Ok (c, u1, u2) /\ accepted ast_parse c.
Proof.
  unfold Class_init. intros Hinit.
  destruct (Class_new ast_parse xml container) as [[[c0 u1] u2]|]; [simpl in Hinit|done].
  pose proof (checked_accepted _ _ _ Hinit) as Hacc.
  apply checked_no_fix in Hinit; [|done]. subst c. by exists u1, u2.
Qed.

Lemma Class_new_base (xml : Element) (container : option ParsedElement) (c : Class_)
    (u1 u2 : list string) :
  Class_new ast_parse xml container = Ok (c, u1, u2) ->
  cls_base c = ParsedElement_init xml container.
Proof.
  unfold Class_new. intros H.
  destruct (attrib_item (attrib xml) "kind") as [kind|]; [simpl in H|done].
  destruct (match find "templateparamlist" xml with Some _ => _ | None => _ end)
    as [generic|]; [simpl in H|done].
  destruct (do_iter _ _ _ _) as [[members col]|]; [simpl in H|done].
  by injection H as <- _ _.
Qed.

End ConstructorFacts.

(** X11. A function, a variable, an enumeration or a scope is constructed
    only from a node that has a [briefdescription] child: from any other
    node, construction raises. *)
Theorem X11_brief_required (ast_parse : string -> result (list string))
    (xml : Element) (container : option ParsedElement) :
  find "briefdescription" xml = None ->
  (exists e, Function_init ast_parse xml container = Raise e) /\
  (exists e, Variable_init ast_parse xml container = Raise e) /\
  (exists e, Enum_init ast_parse xml container = Raise e) /\
  (exists e, Class_init ast_parse xml container = Raise e).
Proof.
  intros Hnone.
  assert (base_brief (ParsedElement_init xml container) = None) as Hb.
  { simpl. unfold brief_of. by rewrite Hnone. }
  split; [|split; [|split]].
  - destruct (Function_init ast_parse xml container) as [f|e] eqn:Hinit; [|by exists e].
    apply Function_init_frame in Hinit as (Hbase & _ & _ & (val & ws & Hval & _)).
    simpl in Hval. unfold Function_str, get_brief in Hval. by rewrite Hbase, Hb in Hval.
  - destruct (Variable_init ast_parse xml container) as [v|e] eqn:Hinit; [|by exists e].
    apply Variable_init_frame in Hinit as (Hbase & _ & _ & (val & ws & Hval & _)).
    simpl in Hval. unfold Variable_str, get_brief in Hval. by rewrite Hbase, Hb in Hval.
  - destruct (Enum_init ast_parse xml container) as [en|e] eqn:Hinit; [|by exists e].
    apply Enum_init_inv in Hinit as (nm & strong & values & _ & _ & -> & (val & ws & Hval & _)).
    simpl in Hval. unfold Enum_str, get_brief in Hval. simpl in Hval.
    unfold brief_of in Hval. by rewrite Hnone in Hval.
  - destruct (Class_init ast_parse xml container) as [c|e] eqn:Hinit; [|by exists e].
    apply Class_init_inv in Hinit as (u1 & u2 & Hnew & (val & ws & Hval & _)).
    apply Class_new_base in Hnew.
    simpl in Hval. unfold Class_str, get_brief in Hval. by rewrite Hnew, Hb in Hval.
Qed.

Lemma X11_brief_required_witness :
  let xml := mkElement "memberdef" [("kind", "function")] None
               [mkElement "name" [] (Some "degree") [] None] None in
  find "briefdescription" xml = None /\
  exists e, Function_init sample_parse xml None = Raise e.
Proof.
  split; [reflexivity|].
  apply (X11_brief_required sample_parse
           (mkElement "memberdef" [("kind", "function")] None
              [mkElement "name" [] (Some "degree") [] None] None) None).
  reflexivity.
Defined.
(** ** The first repair of a function *)

Lemma attrib_get_keys (l : list (string * string)) (n : string) (P : string -> bool) :
  forallb (fun kv => P (fst kv)) l = true -> P n = false -> attrib_get l n n = n.
Proof.
  intros Hl Hn. induction l as [|[k v] l IH]; [done|].
  simpl in *. apply andb_true_iff in Hl as [Hk Hl].
  destruct (String.eqb_spec k n) as [->|_]; [congruence|by apply IH].
Qed.

Lemma attrib_get_values (l : list (string * string)) (n : string) (Q : string -> bool) :
  forallb (fun kv => Q (snd kv)) l = true ->
  attrib_get l n n = n \/ Q (attrib_get l n n) = true.
Proof.
  intros Hl. induction l as [|[k v] l IH]; [by left|].
  simpl in *. apply andb_true_iff in Hl as [Hv Hl].
  destruct (String.eqb k n); [by right|by apply IH].
Qed.

(** X12. The first repair of a function leaves a function alone whose name
    does not start with [operator]; and whenever it changes a name, the new
    name starts and ends with two underscores. *)
Theorem X12_fix1_operators_only (f : Function) :
  (startswith (fn_name f) "operator" = false -> Function_fix1 f = f) /\
  (fn_name (Function_fix1 f) <> fn_name f -> dunder (fn_name (Function_fix1 f)) = true).
Proof.
  destruct f as [b n r ps ts o]. unfold Function_fix1, fn_set_name. cbn [fn_name fn_params
    fn_base fn_returnt fn_templ fn_overloaded].
  split.
  - intros Hn.
    repeat (match goal with
            | |- context [String.eqb n ?k] =>
                destruct (String.eqb_spec n k) as [->|_]; [discriminate Hn|]
            end; cbn [andb]).
    by rewrite (attrib_get_keys renames n (fun k => startswith k "operator")).
  - set (n5 := if String.eqb _ "operator--" && _ then _ else _).
    intros Hne.
    destruct (attrib_get_values renames n5 dunder) as [Heq|Hd]; [done| |exact Hd].
    rewrite Heq in *. subst n5.
    repeat match type of Hne with
           | context [if ?c then _ else _] => destruct c
           end; done.
Qed.

Lemma X12_fix1_operators_only_witness :
  Function_fix1 (ex_fn "degree") = ex_fn "degree" /\
  dunder (fn_name (Function_fix1 (ex_fn "operator=="))) = true.
Proof.
  split.
  - apply (X12_fix1_operators_only (ex_fn "degree")). reflexivity.
  - apply (X12_fix1_operators_only (ex_fn "operator==")). vm_compute. discriminate.
Defined.

(** ** The repairs that strip a name *)

Lemma sub_from_Cls (f : ascii -> bool) (s : chars) :
  forall prev, sub_from (Cls f) [] 0 prev s = List.filter (fun c => negb (f c)) s.
Proof.
  induction s as [|c s IH]; intros prev; [done|].
  rewrite sub_from_cons. unfold match_at. cbn [rmatch List.filter].
  destruct (f c); cbn [negb].
  - replace (length (c :: s) - length s) with 1 by (simpl; lia). simpl. apply IH.
  - f_equal. apply IH.
Qed.

Lemma strip_non_alpha_cons (c : ascii) (n : string) :
  strip_non_alpha (String c n) = S_ (List.filter is_alpha (L n)).
Proof.
  unfold strip_non_alpha, re_sub. rewrite sub_from_Cls. simpl. f_equal.
  apply filter_ext. intros a. by rewrite negb_involutive.
Qed.

(** X13. The fourth and fifth repair of a function, one after the other,
    leave of its name the ASCII letters, in their order; the three repairs
    of a variable leave an underscore followed by the ASCII letters of its
    name. *)
Theorem X13_name_stripped_to_letters (f : Function) (v : Variable_) :
  fn_name (Function_fix5 (Function_fix4 f)) = S_ (List.filter is_alpha (L (fn_name f))) /\
  var_name (Variable_fix3 (Variable_fix2 (Variable_fix1 v)))
  = String "_" (S_ (List.filter is_alpha (L (var_name v)))) /\
  forallb is_alpha (List.filter is_alpha (L (var_name v))) = true.
Proof.
  split; [|split].
  - unfold Function_fix5, Function_fix4, fn_set_name. cbn [fn_name].
    apply (strip_non_alpha_cons "_").
  - unfold Variable_fix3, Variable_fix2, Variable_fix1, var_set_name.
    cbn [var_name]. change ("_" +:+ var_name v) with (String "_" (var_name v)).
    by rewrite (strip_non_alpha_cons "_").
  - apply forallb_forall. intros c Hc. by apply filter_In in Hc as [_ Hc].
Qed.

(** ** Declarations and their scope *)

(** X14. A function or a variable, as its constructor leaves it, has no
    container, whatever container the constructor was given: its qualified
    name is its own name (the placeholder for an empty name), and under
    that key the resolution pass enters it into the qualified-name
    registry. *)
Theorem X14_declarations_unqualified (ast_parse : string -> result (list string))
    (xml : Element) (scope : option ParsedElement)
    (INSTANCES NAMESPACE : gmap string ParsedElement) :
  (forall f, Function_init ast_parse xml scope = Ok f ->
     container (element f) = None /\
     qualname (element f) = name_or_placeholder (Some (fn_name f)) /\
     (Function_resolve INSTANCES NAMESPACE f).2 !! name_or_placeholder (Some (fn_name f))
     = Some (element f)) /\
  (forall v, Variable_init ast_parse xml scope = Ok v ->
     container (element v) = None /\
     qualname (element v) = name_or_placeholder (Some (var_name v)) /\
     (Variable_resolve INSTANCES NAMESPACE v).2 !! name_or_placeholder (Some (var_name v))
     = Some (element v)).
Proof.
  split.
  - intros f Hinit. apply Function_init_frame in Hinit as (Hbase & _).
    assert (container (element f) = None) as Hc by (simpl; by rewrite Hbase).
    assert (qualname (element f) = name_or_placeholder (Some (fn_name f))) as Hq.
    { simpl in *. by rewrite Hc. }
    split; [exact Hc|]. split; [exact Hq|].
    unfold Function_resolve. cbn [snd]. rewrite <- Hq. apply lookup_insert_eq.
  - intros v Hinit. apply Variable_init_frame in Hinit as (Hbase & _).
    assert (container (element v) = None) as Hc by (simpl; by rewrite Hbase).
    assert (qualname (element v) = name_or_placeholder (Some (var_name v))) as Hq.
    { simpl in *. by rewrite Hc. }
    split; [exact Hc|]. split; [exact Hq|].
    unfold Variable_resolve. cbn [snd]. rewrite <- Hq. apply lookup_insert_eq.
Qed.

(** ** Enumerations *)

Lemma mapM_Ok {A B : Type} (f : A -> result B) (l : list A) (l' : list B) :
  mapM f l = Ok l' -> Forall2 (fun x y => f x = Ok y) l l'.
Proof.
  revert l'. induction l as [|x l IH]; intros l' H; simpl in H.
  - injection H as <-. constructor.
  - destruct (f x) as [y|] eqn:Hy; [simpl in H|done].
    destruct (mapM f l) as [ys|]; [simpl in H|done].
    injection H as <-. constructor; [done|by apply IH].
Qed.

(** X15. An enumeration built from a node that has no [compoundname] child
    has the qualified name [Any], and the resolution pass enters it into
    the qualified-name registry under that key. *)
Theorem X15_enum_without_compoundname (ast_parse : string -> result (list string))
    (xml : Element) (scope : option ParsedElement) (e : Enum)
    (NAMESPACE : gmap string ParsedElement) :
  find "compoundname" xml = None ->
  Enum_init ast_parse xml scope = Ok e ->
  qualname (element e) = "Any" /\
  (Enum_resolve NAMESPACE e).2 !! "Any" = Some (element e).
Proof.
  intros Hnone Hinit.
  apply Enum_init_inv in Hinit as (nm & strong & values & _ & _ & -> & _).
  rewrite Hnone. split; [reflexivity|]. unfold Enum_resolve. cbn [snd]. apply lookup_insert_eq.
Qed.

Lemma X15_enum_without_compoundname_witness :
  let xml := mkElement "memberdef" [("kind", "enum"); ("strong", "no")] None
               [mkElement "name" [] (Some "Color") [] None;
                mkElement "briefdescription" [] None [] None] None in
  exists e, Enum_init sample_parse xml None = Ok e /\ qualname (element e) = "Any".
Proof.
  intros xml. eexists. split; [vm_compute; reflexivity|].
  match goal with
  | |- qualname (element ?e) = _ =>
      refine (proj1 (X15_enum_without_compoundname sample_parse xml None e ∅ _ _))
  end; [reflexivity|vm_compute; reflexivity].
Defined.

(** X16. A constructed enumeration has one value for each [enumvalue]
    child of its node, in their order: a variable with the value
    [enum.auto()], with the type that the child gives, with no container
    and not marked as overloaded. *)
Theorem X16_enum_values (ast_parse : string -> result (list string))
    (xml : Element) (scope : option ParsedElement) (e : Enum) :
  Enum_init ast_parse xml scope = Ok e ->
  Forall2 (fun ev v =>
             var_value v = PStr "enum.auto()" /\
             var_type v = PType (Type_init (find "type" ev)) /\
             var_overloaded v = false /\
             container (element v) = None)
          (iterfind "enumvalue" xml) (enum_values e).
Proof.
  intros Hinit.
  apply Enum_init_inv in Hinit as (nm & strong & values & _ & Hvalues & -> & _).
  cbn [enum_values]. apply mapM_Ok in Hvalues.
  eapply Forall2_impl; [exact Hvalues|]. intros ev v' Hv. cbn beta in Hv.
  destruct (Variable_init ast_parse ev _) as [v|] eqn:Hinit; [simpl in Hv|done].
  injection Hv as <-.
  pose proof (Variable_init_unmarked _ _ _ _ Hinit) as Hun.
  apply Variable_init_frame in Hinit as (Hbase & Hty & _ & _).
  repeat split; try done. simpl. by rewrite Hbase.
Qed.

Lemma X16_enum_values_witness :
  let xml := mkElement "memberdef" [("kind", "enum"); ("strong", "yes")] None
               [mkElement "name" [] (Some "Color") [] None;
                mkElement "briefdescription" [] None [] None;
                mkElement "enumvalue" [] None
                  [mkElement "name" [] (Some "Red") [] None;
                   mkElement "briefdescription" [] None [] None] None] None in
  exists e,
    Enum_init sample_parse xml None = Ok e /\
    Forall2 (fun ev v =>
               var_value v = PStr "enum.auto()" /\
               var_type v = PType (Type_init (find "type" ev)) /\
               var_overloaded v = false /\
               container (element v) = None)
            (iterfind "enumvalue" xml) (enum_values e).
Proof.
  intros xml. eexists. split; [vm_compute; reflexivity|].
  apply (X16_enum_values sample_parse xml None). vm_compute. reflexivity.
Defined.
(** ** Scopes: names *)

Lemma after_last_go_spec (sep : ascii) (s : chars) :
  forall cur,
    Forall (fun c => c <> sep) cur ->
    Forall (fun c => c <> sep) (after_last_go sep cur s) /\
    exists p, rev cur ++ s = p ++ after_last_go sep cur s /\
              (p = [] \/ last p = Some sep).
Proof.
  induction s as [|c s IH]; intros cur Hcur; simpl.
  - split; [by apply Forall_rev|]. exists []. split; [by rewrite app_nil_r|by left].
  - destruct (eqc c sep) eqn:Hc.
    + apply eqc_eq in Hc. subst c.
      destruct (IH [] (Forall_nil_2 _)) as (Hno & p & Hp & Hlast). split; [exact Hno|].
      simpl in Hp. exists (rev cur ++ sep :: p). split.
      * rewrite <- app_assoc. simpl. by rewrite <- Hp.
      * right. rewrite last_app. simpl. rewrite last_cons.
        destruct Hlast as [-> | Hl]; [done|by rewrite Hl].
    + assert (c <> sep) as Hne.
      { intros ->. unfold eqc in Hc. by rewrite Ascii.eqb_refl in Hc. }
      destruct (IH (c :: cur)) as (Hno & p & Hp & Hlast); [by constructor|].
      split; [exact Hno|]. exists p. split; [|exact Hlast].
      simpl in Hp. by rewrite <- app_assoc in Hp.
Qed.

Lemma partition_before (sep : ascii) (s : chars) :
  Forall (fun c => c <> sep) (partition sep s).1.1.
Proof.
  induction s as [|c s IH]; simpl; [done|].
  destruct (eqc c sep) eqn:Hc; [done|].
  destruct (partition sep s) as [[a f] b]. simpl in *. constructor; [|exact IH].
  intros ->. unfold eqc in Hc. by rewrite Ascii.eqb_refl in Hc.
Qed.

Lemma contains_single (c : ascii) (s : chars) :
  contains [c] s = false -> Forall (fun d => d <> c) s.
Proof.
  induction s as [|d s IH]; simpl; [done|].
  rewrite andb_true_r. intros H. apply orb_false_iff in H as [Hd Hs].
  constructor; [|by apply IH]. intros ->. unfold eqc in Hd. by rewrite Ascii.eqb_refl in Hd.
Qed.

Section ClassFacts.
Variable ast_parse : string -> result (list string).

Lemma Class_new_inv (xml : Element) (container : option ParsedElement) (c : Class_)
    (u1 u2 : list string) :
  Class_new ast_parse xml container = Ok (c, u1, u2) ->
  let qn0 := type_parse (find "compoundname" xml) in
  let qn := if str_in "[" qn0 then S_ (before_first "["%char (L qn0)) else qn0 in
  let nm := S_ (after_last "."%char (L qn)) in
  exists kind generic members col mc,
    attrib_item (attrib xml) "kind" = Ok kind /\
    do_iter ast_parse mc xml (mkCollected (templates_update [] generic) [] [])
    = Ok (members, col) /\
    c = mkClass (ParsedElement_init xml container) qn nm
          ((fun t => Type_init (Some t)) <$> iterfind "basecompoundref" xml) kind
          (sc_templates (index_members nm members (col_templates col))) generic
          (sc_members (index_members nm members (col_templates col)))
          (sc_namespace (index_members nm members (col_templates col)))
          (sc_subtypes (index_members nm members (col_templates col))).
Proof.
  intros H qn0 qn nm. unfold Class_new in H.
  destruct (attrib_item (attrib xml) "kind") as [kind|]; [simpl in H|done].
  destruct (match find "templateparamlist" xml with Some _ => _ | None => _ end)
    as [generic|]; [simpl in H|done].
  destruct (do_iter _ _ _ _) as [[members col]|] eqn:Hiter; [simpl in H|done].
  injection H as <- _ _. by eexists kind, generic, members, col, _.
Qed.

(** X17. The qualified name of a constructed scope holds no opening
    bracket; its name holds no dot and is the end of the qualified name,
    where it follows a dot or is the whole of it. *)
Theorem X17_scope_names (xml : Element) (container : option ParsedElement) (c : Class_) :
  Class_init ast_parse xml container = Ok c ->
  Forall (fun ch => ch <> "["%char) (L (cls_qualname c)) /\
  Forall (fun ch => ch <> "."%char) (L (cls_name c)) /\
  exists p, L (cls_qualname c) = p ++ L (cls_name c) /\ (p = [] \/ last p = Some "."%char).
Proof.
  intros Hinit. apply Class_init_inv in Hinit as (u1 & u2 & Hnew & _).
  apply Class_new_inv in Hnew as (kind & generic & members & col & mc & _ & _ & ->).
  cbn [cls_qualname cls_name]. rewrite !L_S.
  set (qn0 := type_parse (find "compoundname" xml)).
  set (qn := if str_in "[" qn0 then _ else _).
  destruct (after_last_go_spec "." (L qn) [] (Forall_nil_2 _)) as (Hno & p & Hp & Hlast).
  split; [|split; [exact Hno|by exists p]].
  unfold qn. destruct (str_in "[" qn0) eqn:Hin.
  - rewrite L_S. apply partition_before.
  - by apply contains_single.
Qed.

(** X18. In a constructed scope, every member function is named
    [__init__] or has a name other than that of the scope: a function named
    like the scope was renamed. *)
Theorem X18_constructors_renamed (xml : Element) (container : option ParsedElement)
    (c : Class_) (i : nat) (f : Function) :
  Class_init ast_parse xml container = Ok c ->
  cls_members c !! i = Some (MFunction f) ->
  fn_name f = "__init__" \/ fn_name f <> cls_name c.
Proof.
  intros Hinit Hi. apply Class_init_inv in Hinit as (u1 & u2 & Hnew & _).
  apply Class_new_inv in Hnew as (kind & generic & members & col & mc & _ & _ & ->).
  cbn [cls_members cls_name] in *.
  set (nm := S_ (after_last "." _)) in *.
  destruct (index_members_spec nm members (col_templates col)) as (marked & Hlook & _).
  rewrite Hlook in Hi. rewrite list_lookup_fmap in Hi.
  destruct (members !! i) as [m|]; [simpl in Hi|done].
  injection Hi as Hi.
  assert (member_name (rename_init nm m) = Some (fn_name f)) as Hm.
  { rewrite <- (member_name_if_marked (marked i)), Hi. done. }
  destruct m as [v|f0|e|s|t]; simpl in Hi, Hm;
    try (destruct (marked i); discriminate).
  destruct (String.eqb_spec (fn_name f0) nm) as [Heq|Hne]; simpl in Hm.
  - left. by injection Hm as <-.
  - right. injection Hm as Hm. congruence.
Qed.

End ClassFacts.

Lemma X17_scope_names_witness :
  exists c,
    Class_init sample_parse ex_class_xml None = Ok c /\
    cls_qualname c = "ogdf.Graph" /\ cls_name c = "Graph" /\
    exists p, L (cls_qualname c) = p ++ L (cls_name c) /\ (p = [] \/ last p = Some "."%char).
Proof.
  eexists. split; [vm_compute; reflexivity|]. split; [reflexivity|]. split; [reflexivity|].
  match goal with
  | |- context [cls_name ?c] =>
      refine (proj2 (proj2 (X17_scope_names sample_parse ex_class_xml None c _)))
  end.
  vm_compute. reflexivity.
Defined.

Lemma X18_constructors_renamed_witness :
  exists c f,
    Class_init sample_parse ex_class_xml None = Ok c /\
    cls_members c !! 0 = Some (MFunction f) /\
    (fn_name f = "__init__" \/ fn_name f <> cls_name c).
Proof.
  eexists. eexists. split; [vm_compute; reflexivity|]. split; [vm_compute; reflexivity|].
  match goal with
  | |- fn_name ?f = _ \/ fn_name _ <> cls_name ?c =>
      refine (X18_constructors_renamed sample_parse ex_class_xml None c 0 f _ _)
  end; vm_compute; reflexivity.
Defined.

(** ** The members that [do_iter] yields *)

Lemma bind_Ok {A B : Type} (x : A) (f : A -> result B) : (Ok x ≫= f) = f x.
Proof. reflexivity. Qed.

Section DoIterFacts.
Variable ast_parse : string -> result (list string).

Lemma do_iter_cons (container : option ParsedElement) (tg : string)
    (a : list (string * string)) (txt : option string) (member : Element)
    (cs : list Element) (tl : option string) (col : Collected) :
  do_iter ast_parse container (mkElement tg a txt (member :: cs) tl) col =
  r ← do_child ast_parse container member col;
  let '(ms, col1) := r in
  r' ← do_iter ast_parse container (mkElement tg a txt cs tl) col1;
  let '(ms', col') := r' in
  Ok (ms ++ ms', col').
Proof. reflexivity. Qed.

Lemma do_iter_nil (container : option ParsedElement) (tg : string)
    (a : list (string * string)) (txt : option string) (tl : option string)
    (col : Collected) :
  do_iter ast_parse container (mkElement tg a txt [] tl) col = Ok ([], col).
Proof. reflexivity. Qed.

Lemma do_iter_children (container : option ParsedElement) (root root' : Element)
    (col : Collected) :
  children root = children root' ->
  do_iter ast_parse container root col = do_iter ast_parse container root' col.
Proof. destruct root, root'. simpl. by intros ->. Qed.

Lemma do_iter_app (container : option ParsedElement) (tg : string)
    (a : list (string * string)) (txt : option string) (tl : option string)
    (cs1 cs2 : list Element) :
  forall col,
    do_iter ast_parse container (mkElement tg a txt (cs1 ++ cs2) tl) col =
    r ← do_iter ast_parse container (mkElement tg a txt cs1 tl) col;
    let '(ms, col1) := r in
    r' ← do_iter ast_parse container (mkElement tg a txt cs2 tl) col1;
    let '(ms', col') := r' in
    Ok (ms ++ ms', col').
Proof.
  induction cs1 as [|m cs1 IH]; intros col.
  - cbn [app]. rewrite do_iter_nil, bind_Ok.
    destruct (do_iter ast_parse container (mkElement tg a txt cs2 tl) col) as [[? ?]|];
      reflexivity.
  - rewrite <- app_comm_cons, !do_iter_cons.
    destruct (do_child ast_parse container m col) as [[ms0 col0]|]; [|reflexivity].
    rewrite !bind_Ok. cbn beta iota. rewrite IH.
    destruct (do_iter ast_parse container (mkElement tg a txt cs1 tl) col0)
      as [[ms1 col1]|]; [|reflexivity].
    rewrite !bind_Ok. cbn beta iota.
    destruct (do_iter ast_parse container (mkElement tg a txt cs2 tl) col1)
      as [[ms2 col2]|]; [|reflexivity].
    rewrite !bind_Ok. cbn beta iota. by rewrite app_assoc.
Qed.

(** X19. [do_iter] yields the members of a [sectiondef] child in the place
    of the child: the result, and what is collected meanwhile, are those of
    the node with the children of the section in the place of the
    section. *)
Theorem X19_sections_are_transparent (container : option ParsedElement) (tg : string)
    (a : list (string * string)) (txt tl : option string)
    (cs1 cs2 : list Element) (section : Element) (col : Collected) :
  tag section = "sectiondef" ->
  do_iter ast_parse container (mkElement tg a txt (cs1 ++ section :: cs2) tl) col
  = do_iter ast_parse container (mkElement tg a txt (cs1 ++ children section ++ cs2) tl) col.
Proof.
  intros Htag. rewrite !do_iter_app.
  destruct (do_iter ast_parse container (mkElement tg a txt cs1 tl) col)
    as [[ms1 col1]|]; [|reflexivity].
  rewrite !bind_Ok. cbn beta iota.
  rewrite do_iter_cons, (do_iter_app _ _ _ _ _ (children section) cs2).
  unfold do_child at 1. rewrite Htag.
  change (String.eqb "sectiondef" "sectiondef") with true. cbv iota.
  by rewrite (do_iter_children container section (mkElement tg a txt (children section) tl)).
Qed.

(** What [do_iter] keeps of the collected state, and of the members. *)
Lemma do_iter_inv (QC : Collected -> Prop) (QM : Member -> Prop)
    (container : option ParsedElement) :
  (forall member col ms col',
     do_member ast_parse container member col = Ok (ms, col') ->
     QC col -> QC col' /\ Forall QM ms) ->
  (forall s, QM (MHeader s)) -> (forall t, QM (MType t)) ->
  (forall col x, QC col ->
     QC (mkCollected (col_templates col) (col_unknown_member_defs col)
           (set_add (col_unknown_other_defs col) x))) ->
  forall root col col' ms,
    do_iter ast_parse container root col = Ok (ms, col') ->
    QC col -> QC col' /\ Forall QM ms.
Proof.
  intros Hmember Hheader Htype Hother.
  induction root as [tg a txt cs tl IH] using Element_ind_children.
  induction IH as [|member cs Hm _ IHcs]; intros col col' ms H HQ.
  { rewrite do_iter_nil in H. injection H as <- <-. by split. }
  rewrite do_iter_cons in H.
  destruct (do_child ast_parse container member col) as [[ms1 col1]|] eqn:Hstep;
    [|done].
  rewrite bind_Ok in H. cbn beta iota in H.
  destruct (do_iter ast_parse container (mkElement tg a txt cs tl) col1)
    as [[ms2 col2]|] eqn:Hrest; [|done].
  rewrite bind_Ok in H. cbn beta iota in H.
  injection H as <- <-.
  assert (QC col1 /\ Forall QM ms1) as [HQ1 HM1].
  { unfold do_child in Hstep.
    destruct (String.eqb (tag member) "sectiondef"); [by eapply Hm|].
    destruct (String.eqb (tag member) "header").
    { destruct (text member); [|done]. injection Hstep as <- <-. by repeat constructor. }
    destruct (String.eqb (tag member) "memberdef"); [by eapply Hmember|].
    repeat match type of Hstep with
           | (if ?b then _ else _) = _ => destruct b
           end; injection Hstep as <- <-; split; by repeat constructor || by apply Hother. }
  destruct (IHcs col1 col2 ms2 Hrest HQ1) as [HQ2 HM2].
  split; [done|by apply Forall_app].
Qed.

End DoIterFacts.
Lemma X19_sections_are_transparent_witness :
  let col := mkCollected [] [] [] in
  do_iter sample_parse None ex_class_xml col
  = do_iter sample_parse None
      (mkElement "compounddef" [("kind", "class"); ("id", "classogdf_1_1Graph")] None
         [mkElement "compoundname" [] (Some "ogdf::Graph") [] None;
          ex_brief;
          ex_method_xml "public" "Graph";
          ex_method_xml "public" "degree";
          ex_method_xml "private" "secret"] None) col.
Proof.
  apply (X19_sections_are_transparent sample_parse None "compounddef"
           [("kind", "class"); ("id", "classogdf_1_1Graph")] None None
           [mkElement "compoundname" [] (Some "ogdf::Graph") [] None; ex_brief] []
           (mkElement "sectiondef" [("kind", "public-func")] None
              [ex_method_xml "public" "Graph";
               ex_method_xml "public" "degree";
               ex_method_xml "private" "secret"] None)).
  reflexivity.
Defined.

(** ** The set of template parameters of a scope *)

Lemma templates_add_distinct (s : list Template) (x : Template) :
  distinct_renderings s -> distinct_renderings (templates_add s x).
Proof.
  unfold distinct_renderings, templates_add. intros Hs.
  destruct (existsb _ s) eqn:Hex; [done|].
  rewrite fmap_app. apply NoDup_app. split; [done|]. split; [|apply NoDup_singleton].
  intros r Hr Hin. apply list_elem_of_singleton in Hin. subst r.
  apply list_elem_of_fmap in Hr as (y & Hy & Hyin).
  assert (existsb (fun y => String.eqb (Template_str y) (Template_str x)) s = true) as Habs.
  { apply existsb_exists. exists y. split; [by apply list_elem_of_In|].
    rewrite Hy. apply String.eqb_refl. }
  congruence.
Qed.

Lemma templates_update_distinct (xs : list Template) :
  forall s, distinct_renderings s -> distinct_renderings (templates_update s xs).
Proof.
  unfold templates_update. induction xs as [|x xs IH]; intros s Hs; [done|].
  simpl. apply IH. by apply templates_add_distinct.
Qed.

Section TemplateFacts.
Variable ast_parse : string -> result (list string).

Lemma do_member_templates (container : option ParsedElement) (member : Element)
    (col col' : Collected) (ms : list Member) :
  do_member ast_parse container member col = Ok (ms, col') ->
  distinct_renderings (col_templates col) ->
  distinct_renderings (col_templates col') /\ Forall (fun _ => True) ms.
Proof.
  unfold do_member. intros H Hd. split; [|by apply Forall_true].
  destruct (attrib_item (attrib member) "prot") as [prot|]; [simpl in H|done].
  destruct (String.eqb prot "private"); [by injection H as _ <-|].
  destruct (attrib_item (attrib member) "kind") as [kind|]; [simpl in H|done].
  destruct (String.eqb kind "variable").
  { destruct (Variable_init _ _ _); [simpl in H|done]. by injection H as _ <-. }
  destruct (String.eqb kind "function").
  { destruct (Function_init _ _ _); [simpl in H|done]. by injection H as _ <-. }
  destruct (String.eqb kind "typedef").
  { destruct (Variable_init _ _ _); [simpl in H|done].
    destruct (find "templateparamlist" member).
    - destruct (mapM _ _) as [ts|]; [simpl in H|done]. injection H as _ <-.
      simpl. by apply templates_update_distinct.
    - simpl in H. by injection H as _ <-. }
  destruct (String.eqb kind "enum").
  { destruct (Enum_init _ _ _); [simpl in H|done]. by injection H as _ <-. }
  destruct (String.eqb kind "friend"); by injection H as _ <-.
Qed.

Lemma index_member_templates (nm : string) (st : Scope) (m : Member) :
  distinct_renderings (sc_templates st) ->
  distinct_renderings (sc_templates (index_member nm st m)).
Proof.
  intros Hd. unfold index_member. cbn [sc_templates].
  destruct m; try done. by apply templates_update_distinct.
Qed.

Lemma index_members_templates (nm : string) (ms : list Member) (ts : list Template) :
  distinct_renderings ts -> distinct_renderings (sc_templates (index_members nm ms ts)).
Proof.
  intros Hd. unfold index_members. cbn [sc_templates].
  assert (forall st, distinct_renderings (sc_templates st) ->
            distinct_renderings (sc_templates (foldl (index_member nm) st ms))) as Hfold.
  { induction ms as [|m ms IH]; intros st Hst; [done|].
    simpl. apply IH. by apply index_member_templates. }
  by apply Hfold.
Qed.

(** X20. The template parameters that a constructed scope has collected,
    from its own list, from its member functions and from its typedefs, have
    distinct renderings: the scope renders each of them once. *)
Theorem X20_scope_templates_distinct (xml : Element) (container : option ParsedElement)
    (c : Class_) :
  Class_init ast_parse xml container = Ok c ->
  NoDup (Template_str <$> cls_templates c).
Proof.
  intros Hinit. apply Class_init_inv in Hinit as (u1 & u2 & Hnew & _).
  apply Class_new_inv in Hnew as (kind & generic & members & col & mc & _ & Hiter & ->).
  cbn [cls_templates]. apply index_members_templates.
  apply (do_iter_inv ast_parse (fun col => distinct_renderings (col_templates col))
           (fun _ => True) mc) in Hiter as [Hd _]; try done.
  - intros member col0 ms col' Hm Hd. by eapply do_member_templates.
  - apply templates_update_distinct. apply NoDup_nil_2.
Qed.

End TemplateFacts.
Lemma X20_scope_templates_distinct_witness :
  exists c,
    Class_init sample_parse ex_generic_xml None = Ok c /\
    (Template_str <$> cls_templates c) = ["T = TypeVar('T')"] /\
    NoDup (Template_str <$> cls_templates c).
Proof.
  eexists. split; [vm_compute; reflexivity|]. split; [vm_compute; reflexivity|].
  match goal with
  | |- context [cls_templates ?c] =>
      refine (X20_scope_templates_distinct sample_parse ex_generic_xml None c _)
  end.
  vm_compute. reflexivity.
Defined.

(** ** The resolution pass on a scope *)

Section ClassResolveFacts.
Variable INSTANCES : gmap string ParsedElement.

Lemma Member_resolve_spec (N : gmap string ParsedElement) (m : Member) :
  let r := Member_resolve INSTANCES N m in
  member_name r.1 = member_name m /\
  member_overloaded r.1 = member_overloaded m /\
  (forall k, is_Some (N !! k) -> is_Some (r.2 !! k)) /\
  (forall e, member_element m = Some e -> r.2 !! qualname e = Some e).
Proof.
  destruct m as [v|f|e|s|t]; simpl.
  - repeat split; try done.
    + intros k Hk. apply lookup_insert_is_Some'. by right.
    + intros e [= <-]. destruct v. apply lookup_insert_eq.
  - repeat split; try done.
    + intros k Hk. apply lookup_insert_is_Some'. by right.
    + intros e [= <-]. destruct f. apply lookup_insert_eq.
  - repeat split; try done.
    + intros k Hk. apply lookup_insert_is_Some'. by right.
    + intros e0 [= <-]. apply lookup_insert_eq.
  - done.
  - done.
Qed.

Lemma Members_resolve_spec (ms : list Member) :
  forall N,
    let r := Members_resolve INSTANCES N ms in
    member_name <$> r.1 = member_name <$> ms /\
    member_overloaded <$> r.1 = member_overloaded <$> ms /\
    (forall k, is_Some (N !! k) -> is_Some (r.2 !! k)) /\
    (forall i m e, ms !! i = Some m -> member_element m = Some e ->
       is_Some (r.2 !! qualname e)).
Proof.
  induction ms as [|m ms IH]; intros N; [by repeat split|].
  cbn [Members_resolve].
  pose proof (Member_resolve_spec N m) as Hm.
  destruct (Member_resolve INSTANCES N m) as [m' N1]. cbn [fst snd] in Hm.
  destruct Hm as (Hname & Hover & Hdom & Hreg).
  pose proof (IH N1) as Hms.
  destruct (Members_resolve INSTANCES N1 ms) as [ms' N2]. cbn [fst snd] in Hms |- *.
  destruct Hms as (Hnames & Hovers & Hdoms & Hregs).
  split; [by rewrite !fmap_cons, Hname, Hnames|].
  split; [by rewrite !fmap_cons, Hover, Hovers|].
  split; [intros k Hk; by apply Hdoms, Hdom|].
  intros [|i] m0 e Hi He.
  - injection Hi as <-. apply Hdoms. by rewrite (Hreg e He).
  - by eapply Hregs.
Qed.

(** X21. The resolution pass on a scope enters the scope into the
    qualified-name registry under its qualified name, and its member
    functions, variables and enumerations under theirs; it removes no key
    from the registry. *)
Theorem X21_class_resolve_registers (N : gmap string ParsedElement) (c : Class_) :
  let r := Class_resolve INSTANCES N c in
  r.2 !! cls_qualname c = Some (element r.1) /\
  (forall k, is_Some (N !! k) -> is_Some (r.2 !! k)) /\
  (forall i m e, cls_members c !! i = Some m -> member_element m = Some e ->
     is_Some (r.2 !! qualname e)).
Proof.
  unfold Class_resolve.
  pose proof (Members_resolve_spec (cls_members c) N) as Hms.
  destruct (Members_resolve INSTANCES N (cls_members c)) as [ms' N1].
  cbn [fst snd] in Hms |- *. destruct Hms as (_ & _ & Hdom & Hreg).
  split; [apply lookup_insert_eq|]. split.
  - intros k Hk. apply lookup_insert_is_Some'. right. by apply Hdom.
  - intros i m e Hi He. apply lookup_insert_is_Some'. right. by eapply Hreg.
Qed.

(** X22. The resolution pass changes neither the names of a scope, nor its
    kind, its template parameters, its name index and subtypes, nor the
    number of its bases and members, nor the name or the overload mark of
    any member. *)
Theorem X22_class_resolve_keeps (N : gmap string ParsedElement) (c : Class_) :
  let c' := (Class_resolve INSTANCES N c).1 in
  cls_qualname c' = cls_qualname c /\ cls_name c' = cls_name c /\
  cls_kind c' = cls_kind c /\ cls_templates c' = cls_templates c /\
  cls_generic c' = cls_generic c /\ cls_namespace c' = cls_namespace c /\
  cls_subtypes c' = cls_subtypes c /\
  length (cls_bases c') = length (cls_bases c) /\
  member_name <$> cls_members c' = member_name <$> cls_members c /\
  member_overloaded <$> cls_members c' = member_overloaded <$> cls_members c.
Proof.
  unfold Class_resolve.
  pose proof (Members_resolve_spec (cls_members c) N) as Hms.
  destruct (Members_resolve INSTANCES N (cls_members c)) as [ms' N1].
  cbn [fst snd] in Hms |- *. destruct Hms as (Hnames & Hovers & _ & _).
  cbn [cls_qualname cls_name cls_kind cls_templates cls_generic cls_namespace cls_subtypes
       cls_bases cls_members].
  repeat split; try done. by rewrite length_fmap.
Qed.

End ClassResolveFacts.
(** ** Default values *)

Lemma starts_with_pair (a x : ascii) (l : chars) :
  starts_with [a; a] (x :: l) = eqc a x && match l with y :: _ => eqc a y | [] => false end.
Proof. simpl. destruct l as [|y l]; [done|]. by rewrite andb_true_r. Qed.

Lemma eqc_refl (a : ascii) : eqc a a = true.
Proof. apply Ascii.eqb_refl. Qed.

Lemma eqc_false (a b : ascii) : eqc a b = false <-> a <> b.
Proof. unfold eqc. by rewrite Ascii.eqb_neq. Qed.

(** After every pair of [a] was replaced by a pair of another character,
    no pair of [a] is left. *)
Lemma replace_pair_gone (a b : ascii) :
  a <> b ->
  forall n s, length s <= n ->
    contains [a; a] (replace [a; a] [b; b] s) = false /\
    (head s <> Some a -> head (replace [a; a] [b; b] s) <> Some a).
Proof.
  intros Hab. apply eqc_false in Hab. unfold replace.
  induction n as [|n IH]; intros s Hn.
  { destruct s; [done|simpl in Hn; lia]. }
  destruct s as [|c s]; [done|].
  cbn [replace_from]. rewrite starts_with_pair.
  destruct (eqc a c) eqn:Hc; cbn [andb].
  - apply eqc_eq in Hc. subst c.
    destruct s as [|d s].
    + simpl. rewrite eqc_refl. done.
    + destruct (eqc a d) eqn:Hd.
      * apply eqc_eq in Hd. subst d. cbn [app length Nat.sub replace_from].
        destruct (IH s) as [Hno _]; [simpl in Hn; lia|].
        split; [|by intros _ [= ->]; rewrite eqc_refl in Hab].
        cbn [contains]. rewrite !starts_with_pair, Hab. cbn [andb orb]. exact Hno.
      * destruct (IH (d :: s)) as [Hno Hhead]; [simpl in Hn |- *; lia|].
        split; [|done].
        cbn [contains]. rewrite starts_with_pair, eqc_refl, Hno, orb_false_r. cbn [andb].
        assert (head (replace_from [a; a] [b; b] 0 (d :: s)) <> Some a) as Hh.
        { apply Hhead. simpl. intros [= ->]. by rewrite eqc_refl in Hd. }
        destruct (replace_from [a; a] [b; b] 0 (d :: s)) as [|y l]; [done|].
        apply eqc_false. intros ->. by apply Hh.
  - destruct (IH s) as [Hno _]; [simpl in Hn; lia|].
    split.
    + cbn [contains]. rewrite starts_with_pair, Hc. cbn [andb orb]. exact Hno.
    + simpl. intros _ [= ->]. by rewrite eqc_refl in Hc.
Qed.

(** X23. No default value that [parse_default] returns holds two opening
    brackets in a row without holding a closing bracket: the test of line
    550 fails on every result. *)
Theorem X23_parse_default_brackets (xml : Element) :
  str_in "[[" (parse_default xml) && negb (str_in "]" (parse_default xml)) = false.
Proof.
  unfold parse_default. set (val := join "" (simple_parse <$> itertext xml)).
  destruct (str_in "[[" val && negb (str_in "]" val)) eqn:Hcond; [|exact Hcond].
  unfold str_in at 1, str_replace. rewrite L_S.
  destruct (replace_pair_gone "[" "<" ltac:(discriminate) (length (L val)) (L val)) as [Hno _];
    [lia|].
  change (L "[[") with ["["%char; "["%char]. change (L "<<") with ["<"%char; "<"%char].
  by rewrite Hno.
Qed.

(** ** The overload marker in a rendering *)

(** X24. A function that is marked as overloaded renders as the line
    [@overload] followed by its rendering without the mark; it fails to
    render in the same cases. *)
Theorem X24_overload_marker (f : Function) :
  Function_str (fn_set_overloaded f true)
  = (s ← Function_str (fn_set_overloaded f false); Ok ("@overload" +:+ nl +:+ s)).
Proof.
  unfold Function_str, fn_set_overloaded. cbn [fn_overloaded fn_name fn_params fn_returnt
    fn_base app].
  destruct (get_brief "Function" (fn_base f)) as [brief|e]; [|reflexivity].
  rewrite !bind_Ok. cbn beta. destruct (nonempty brief); reflexivity.
Qed.
(** ** Parameters and template parameters *)

Section OneRepair.
Variable ast_parse : string -> result (list string).

Lemma checked_one_fix {A : Type} `{PyClass A} (fix1 : A -> A) (self self' : A) :
  max_fix = 1 -> fixN 1 = Some fix1 ->
  checked ast_parse self = Ok self' ->
  (self' = self /\ accepted ast_parse self) \/
  (self' = fix1 self /\ ~ accepted ast_parse self /\ accepted ast_parse (fix1 self)).
Proof.
  intros Hmax Hfix Hc. apply checked_repairs in Hc as (k & Hk & Hfixes & Hacc & Hleast).
  destruct k as [|[|k]]; [| |lia].
  - injection Hfixes as <-. by left.
  - simpl in Hfixes. rewrite Hfix in Hfixes. injection Hfixes as <-. right.
    destruct (Hleast 0) as (s0 & Hs0 & Hno); [lia|]. injection Hs0 as <-. done.
Qed.

(** X25. A parameter, and a template parameter, is constructed as read
    from its node when that renders and parses; and otherwise with one
    underscore before its name, when that does. Construction succeeds in no
    other case. *)
Theorem X25_one_underscore (xml : Element) (container : option ParsedElement) :
  (forall p, Param_init ast_parse xml container = Ok p <->
     exists p0, Param_new xml container = Ok p0 /\
       (p = p0 /\ accepted ast_parse p0 \/
        p = Param_fix1 p0 /\ ~ accepted ast_parse p0 /\ accepted ast_parse (Param_fix1 p0))) /\
  (forall t, Template_init ast_parse xml container = Ok t <->
     exists t0, Template_new xml container = Ok t0 /\
       (t = t0 /\ accepted ast_parse t0 \/
        t = Template_fix1 t0 /\ ~ accepted ast_parse t0 /\
        accepted ast_parse (Template_fix1 t0))).
Proof.
  split.
  - intros p. unfold Param_init. split.
    + intros H. destruct (Param_new xml container) as [p0|]; [|done].
      rewrite bind_Ok in H. exists p0. split; [done|].
      by apply (checked_one_fix Param_fix1) in H.
    + intros (p0 & -> & Hp). rewrite bind_Ok. apply checked_repairs.
      destruct Hp as [[-> Hacc]|(-> & Hno & Hacc)].
      * exists 0. repeat split; [simpl; lia|done|]. lia.
      * exists 1. repeat split; [done|done|]. intros j Hj. assert (j = 0) as -> by lia.
        by exists p0.
  - intros t. unfold Template_init. split.
    + intros H. destruct (Template_new xml container) as [t0|]; [|done].
      rewrite bind_Ok in H. exists t0. split; [done|].
      by apply (checked_one_fix Template_fix1) in H.
    + intros (t0 & -> & Ht). rewrite bind_Ok. apply checked_repairs.
      destruct Ht as [[-> Hacc]|(-> & Hno & Hacc)].
      * exists 0. repeat split; [simpl; lia|done|]. lia.
      * exists 1. repeat split; [done|done|]. intros j Hj. assert (j = 0) as -> by lia.
        by exists t0.
Qed.

Lemma rstrip_cons (c : ascii) (s : chars) :
  is_space c = false -> rstrip (c :: s) = c :: rstrip s.
Proof.
  intros Hc. unfold rstrip. simpl. rewrite lstrip_snoc by done. by rewrite rev_unit.
Qed.

Lemma strip_cons (c : ascii) (s : chars) :
  is_space c = false -> strip s = s -> strip (c :: s) = c :: s.
Proof.
  intros Hc Hs. unfold strip. simpl. rewrite Hc, rstrip_cons by done. f_equal.
  rewrite <- Hs at 1. unfold strip. rewrite rstrip_rstrip. exact Hs.
Qed.

Lemma Template_new_trimmed (xml : Element) (container : option ParsedElement)
    (t : Template) :
  Template_new xml container = Ok t ->
  str_strip (templ_name t) = templ_name t /\
  templ_ignore t = str_in "enable_if" (templ_name t).
Proof.
  unfold Template_new. intros H.
  match type of H with (?e ≫= _) = _ => destruct e as [nm|] end; [|done].
  rewrite bind_Ok in H. injection H as <-. cbn [templ_name templ_ignore].
  split; [|done]. unfold str_strip. rewrite L_S. by rewrite strip_strip.
Qed.

(** X26. The name of a constructed template parameter has no white space
    at its ends. *)
Theorem X26_template_name_trimmed (xml : Element) (container : option ParsedElement)
    (t : Template) :
  Template_init ast_parse xml container = Ok t ->
  str_strip (templ_name t) = templ_name t.
Proof.
  unfold Template_init. intros H.
  destruct (Template_new xml container) as [t0|] eqn:Hnew; [|done].
  rewrite bind_Ok in H. apply Template_new_trimmed in Hnew as [Htrim _].
  destruct (@checked_one_fix Template Template_class Template_fix1 t0 t eq_refl eq_refl H) as [[-> _]|(-> & _)];
    [exact Htrim|].
  unfold Template_fix1. cbn [templ_name]. unfold str_strip in *.
  change (L ("_" +:+ templ_name t0)) with ("_"%char :: L (templ_name t0)).
  rewrite strip_cons; [by rewrite <- (S_L (templ_name t0)) at 2|done|].
  apply (f_equal L) in Htrim. by rewrite L_S in Htrim.
Qed.

End OneRepair.

Lemma X26_template_name_trimmed_witness :
  let xml := mkElement "param" [] None
               [mkElement "type" [] (Some "typename  T ") [] None] None in
  exists t, Template_init sample_parse xml None = Ok t /\
            templ_name t = "T" /\ str_strip (templ_name t) = templ_name t.
Proof.
  intros xml. eexists. split; [vm_compute; reflexivity|]. split; [reflexivity|].
  match goal with
  | |- context [templ_name ?t] =>
      refine (X26_template_name_trimmed sample_parse xml None t _)
  end.
  vm_compute. reflexivity.
Defined.
(** ** The name index of a scope *)

Section NamespaceFacts.
Variable ast_parse : string -> result (list string).

(** X27. The name index of a constructed scope has one entry for each name
    that a member carries: its keys are distinct, and the entry of a name
    lists the positions of the members of that name, each once. *)
Theorem X27_namespace_index (xml : Element) (container : option ParsedElement)
    (c : Class_) :
  Class_init ast_parse xml container = Ok c ->
  NoDup (cls_namespace c).*1 /\
  (forall i m k, cls_members c !! i = Some m -> member_name m = Some k ->
     k ∈ (cls_namespace c).*1) /\
  (forall k l, (k, l) ∈ cls_namespace c ->
     NoDup l /\
     forall i, i ∈ l <-> exists m, cls_members c !! i = Some m /\ member_name m = Some k).
Proof.
  intros Hinit. apply Class_init_inv in Hinit as (u1 & u2 & Hnew & _).
  apply Class_new_inv in Hnew as (kind & generic & members & col & mc & _ & _ & ->).
  cbn [cls_namespace cls_members].
  set (nm := S_ (after_last "." _)).
  destruct (index_members_spec nm members (col_templates col)) as (marked & Hlook & _).
  unfold index_members in *. cbn [sc_namespace sc_members] in *.
  destruct (index_loop_spec nm members (mkScope [] [] [] (col_templates col)))
    as ((Hkeys & Hpos & Hall) & Hmem).
  { repeat split; [constructor|intros k l Hin; by apply elem_of_nil in Hin|].
    intros i m k Hi. cbn [sc_members] in Hi. by rewrite lookup_nil in Hi. }
  cbn [sc_members app] in Hmem. rewrite Hmem in Hpos, Hall.
  set (ns := sc_namespace _) in *.
  assert (forall i k,
            (exists m, foldl mark_group (sc_members (foldl (index_member nm)
                         (mkScope [] [] [] (col_templates col)) members)) ns !! i = Some m /\
                       member_name m = Some k) <->
            (exists m, map (rename_init nm) members !! i = Some m /\
                       member_name m = Some k)) as Hsame.
  { intros i k. rewrite Hlook.
    change (rename_init nm <$> members) with (map (rename_init nm) members).
    split.
    - intros (m & Hm & Hk). destruct (map (rename_init nm) members !! i) as [m0|]; [|done].
      injection Hm as <-. exists m0. split; [done|].
      by rewrite member_name_if_marked in Hk.
    - intros (m & Hm & Hk). rewrite Hm. eexists. split; [done|].
      by rewrite member_name_if_marked. }
  split; [exact Hkeys|]. split.
  - intros i m k Hi Hk.
    destruct (proj1 (Hsame i k)) as (m0 & Hm0 & Hk0); [by exists m|].
    by eapply Hall.
  - intros k l Hin. rewrite (Hpos k l Hin). split; [apply NoDup_positions_from|].
    intros i. rewrite elem_of_positions_from, Hsame. split.
    + intros (j & m & -> & Hm & Hk). exists m. split; [done|by apply has_name_eq].
    + intros (m & Hm & Hk). exists i, m. repeat split; [done|by apply has_name_eq].
Qed.

End NamespaceFacts.

Lemma X27_namespace_index_witness :
  exists c,
    Class_init sample_parse ex_class_xml None = Ok c /\
    cls_namespace c = [("__init__", [0]); ("degree", [1])] /\
    NoDup (cls_namespace c).*1.
Proof.
  eexists. split; [vm_compute; reflexivity|]. split; [vm_compute; reflexivity|].
  match goal with
  | |- context [cls_namespace ?c] =>
      refine (proj1 (X27_namespace_index sample_parse ex_class_xml None c _))
  end.
  vm_compute. reflexivity.
Defined.
(** ** The text of a type expression *)

Lemma L_inj (a b : string) : L a = L b -> a = b.
Proof. intros H. apply (f_equal S_) in H. by rewrite !S_L in H. Qed.

Lemma L_join_empty (l : list string) : L (join "" l) = mjoin (L <$> l).
Proof.
  unfold join. induction l as [|x l IH]; [done|].
  destruct l as [|y l].
  - simpl. by rewrite app_nil_r.
  - change (String.concat "" (x :: y :: l)) with (x +:+ "" +:+ String.concat "" (y :: l)).
    rewrite !L_app, IH. done.
Qed.

(** What a part adds to the text of its type expression: nothing when the
    filter of line 485 drops it. *)
Lemma mjoin_filter_parts (ps : list Part) :
  mjoin ((fun p => L (Part_str p)) <$> List.filter Part_bool ps)
  = mjoin ((fun p => if Part_bool p then L (Part_str p) else []) <$> ps).
Proof.
  induction ps as [|p ps IH]; [done|]. cbn [List.filter].
  destruct (Part_bool p) eqn:Hb; rewrite ?fmap_cons; cbn [mjoin list_join]; rewrite Hb;
    [f_equal|]; exact IH.
Qed.

Lemma no_override_unfold (t : Type_) :
  no_override t =
  negb (nonempty (override t))
  && forallb (fun p => match p with PStr _ => true | PType t' => no_override t' end) (parts t).
Proof. by destruct t. Qed.

Lemma Type_of_fields (xml : Element) :
  target (Type_of xml) = None /\ t_xml (Type_of xml) = Some xml /\
  parts (Type_of xml)
  = List.filter Part_bool
      (PStr (simple_parse_opt (text xml))
       :: flat_map (fun c => [PType (Type_of c); PStr (simple_parse_opt (tail c))])
                   (children xml)).
Proof. by destruct xml. Qed.

Lemma simple_parse_opt_text (o : option string) :
  mjoin (L <$> (simple_parse <$> option_list o)) = L (simple_parse_opt o).
Proof. destruct o; simpl; [by rewrite app_nil_r|done]. Qed.

Lemma Type_of_text (xml : Element) :
  no_override (Type_of xml) = true ->
  mjoin ((fun p => L (Part_str p)) <$> parts (Type_of xml))
  = mjoin (L <$> (simple_parse <$> itertext xml)).
Proof.
  induction xml as [tg a txt cs tl IH] using Element_ind_children. intros Hno.
  destruct (Type_of_fields (mkElement tg a txt cs tl)) as (_ & _ & Hparts).
  rewrite no_override_unfold, Hparts in Hno. apply andb_true_iff in Hno as [_ Hno].
  rewrite Hparts, mjoin_filter_parts. cbn [text children] in *.
  cbn [itertext]. rewrite !fmap_app, join_app, simple_parse_opt_text.
  rewrite fmap_cons. cbn [mjoin list_join]. f_equal.
  { cbn [Part_bool Part_str]. destruct (nonempty _) eqn:Hne; [done|].
    apply nonempty_false in Hne. by rewrite Hne. }
  assert (forall c, c ∈ cs -> Part_bool (PType (Type_of c)) = true ->
            no_override (Type_of c) = true) as Hchild.
  { intros c Hc Hb. rewrite forallb_forall in Hno.
    apply (Hno (PType (Type_of c))). apply filter_In. split; [|exact Hb].
    right. apply in_flat_map. exists c. split; [by apply list_elem_of_In|by left]. }
  clear Hno Hparts.
  induction cs as [|c cs IHcs]; [done|].
  apply Forall_cons in IH as [IHc IH].
  cbn [flat_map app]. rewrite !fmap_cons, !fmap_app. cbn [mjoin list_join].
  rewrite ?fmap_app, !join_app.
  rewrite simple_parse_opt_text, <- !app_assoc. f_equal; [|f_equal].
  - destruct (Part_bool (PType (Type_of c))) eqn:Hb.
    + assert (no_override (Type_of c) = true) as Hnc by (apply Hchild; [left|done]).
      rewrite <- (IHc Hnc). cbn [Part_str]. rewrite Type_str_unfold.
      destruct (Type_of_fields c) as (Htg & _ & _). rewrite Htg.
      rewrite no_override_unfold in Hnc. apply andb_true_iff in Hnc as [Ho _].
      apply negb_true_iff in Ho. rewrite Ho.
      cbn [Part_bool] in Hb. rewrite Type_bool_unfold in Hb. rewrite Ho, Htg in Hb.
      destruct (parts (Type_of c)) as [|p ps] eqn:Hps; [done|].
      cbn [is_nil]. rewrite L_join_empty.
      change (map Part_str (p :: ps)) with (Part_str <$> (p :: ps)).
      by rewrite <- list_fmap_compose.
    + cbn [Part_bool] in Hb. rewrite Type_bool_unfold in Hb.
      apply orb_false_iff in Hb as [Hb _]. apply orb_false_iff in Hb as [Hp Ho].
      rewrite <- IHc.
      * destruct (parts (Type_of c)); done.
      * rewrite no_override_unfold, Ho. destruct (parts (Type_of c)); done.
  - cbn [Part_bool Part_str]. destruct (nonempty _) eqn:Hne; [done|].
    apply nonempty_false in Hne. by rewrite Hne.
  - apply IHcs; [exact IH|]. intros c' Hc'. apply Hchild. by right.
Qed.

(** X28. A type expression in which no idiom is recognised, at any level,
    renders as its text nodes, each translated, in the order of the
    document; it renders as [Any], and is falsy, exactly when that text is
    empty. *)
Theorem X28_type_text (xml : Element) :
  no_override (Type_of xml) = true ->
  let s := join "" (simple_parse <$> itertext xml) in
  Type_str (Type_of xml) = (if nonempty s then s else "Any") /\
  Type_bool (Type_of xml) = nonempty s.
Proof.
  intros Hno s. pose proof (Type_of_text xml Hno) as Htext.
  rewrite <- L_join_empty in Htext. fold s in Htext.
  destruct (Type_of_fields xml) as (Htg & _ & _).
  pose proof Hno as Ho. rewrite no_override_unfold in Ho.
  apply andb_true_iff in Ho as [Ho _]. apply negb_true_iff in Ho.
  rewrite Type_str_unfold, Type_bool_unfold. rewrite Ho, Htg. cbn [target_bool].
  destruct (parts (Type_of xml)) as [|p ps] eqn:Hps.
  - simpl in Htext. assert (s = "") as -> by (apply L_inj; by rewrite <- Htext). done.
  - cbn [is_nil negb orb].
    assert (join "" (map Part_str (p :: ps)) = s) as Hs.
    { apply L_inj. rewrite L_join_empty, <- Htext.
      change (map Part_str (p :: ps)) with (Part_str <$> (p :: ps)).
      by rewrite <- list_fmap_compose. }
    rewrite Hs.
    assert (s <> "") as Hne.
    { rewrite <- Hs. pose proof (Type_built_str (Type_of xml) (Type_of_built xml)) as Hb.
      by rewrite Type_str_unfold, Ho, Htg, Hps in Hb. }
    apply nonempty_true in Hne. by rewrite Hne.
Qed.

Lemma X28_type_text_witness :
  let xml := mkElement "type" [] (Some "const ")
               [mkElement "ref" [("refid", "x1")] (Some "ogdf::Graph") [] (Some " &")] None in
  no_override (Type_of xml) = true /\
  join "" (simple_parse <$> itertext xml) = "ogdf.Graph" /\
  Type_str (Type_of xml) = "ogdf.Graph".
Proof.
  intros xml. split; [vm_compute; reflexivity|]. split; [vm_compute; reflexivity|].
  apply (X28_type_text xml). vm_compute. reflexivity.
Defined.

(** * The token translator applied twice *)

(** ** The matcher and what a pattern matches *)

Lemma next_word_app (m rest : chars) :
  next_word m (word_after rest) = word_after (m ++ rest).
Proof. by destruct m. Qed.

(** A match that the matcher finds is one of the pattern. *)
Lemma rmatch_sound (r : regex) :
  forall (R : Type) (prev : option ascii) (s : chars) (caps : captures)
         (k : option ascii -> chars -> captures -> option R) (x : R),
    rmatch r prev s caps k = Some x ->
    exists m s' caps',
      s = m ++ s' /\ k (lastc prev m) s' caps' = Some x /\
      Matches r prev m (word_after s').
Proof.
  induction r as [|c|f|r1 IH1 r2 IH2|r1 IH1 r2 IH2|r1 IH1|name r1 IH1| |];
    intros R prev s caps k x H; simpl in H.
  - exists [], s, caps. repeat split; try done. constructor.
  - destruct s as [|y s]; [done|]. destruct (eqc y c) eqn:Hy; [|done].
    apply eqc_eq in Hy as ->. exists [c], s, caps. repeat split; try done. constructor.
  - destruct s as [|y s]; [done|]. destruct (f y) eqn:Hy; [|done].
    exists [y], s, caps. repeat split; try done. by constructor.
  - apply IH1 in H as (m1 & s1 & caps1 & -> & H & H1).
    apply IH2 in H as (m2 & s2 & caps2 & -> & H & H2).
    exists (m1 ++ m2), s2, caps2. rewrite lastc_app, app_assoc.
    split; [done|]. split; [done|].
    constructor; [|done]. by rewrite next_word_app.
  - destruct (rmatch r1 prev s caps k) as [x1|] eqn:E1.
    + injection H as ->. apply IH1 in E1 as (m & s' & caps' & -> & H & Hp).
      exists m, s', caps'. repeat split; try done. by apply M_AltL.
    + apply IH2 in H as (m & s' & caps' & -> & H & Hp).
      exists m, s', caps'. repeat split; try done. by apply M_AltR.
  - revert H. generalize (length s) at 1. intros n. revert prev s caps.
    induction n as [|n IHn]; intros prev s caps H.
    + exists [], s, caps. repeat split; try done. constructor.
    + destruct (rmatch r1 prev s caps _) as [x1|] eqn:E1.
      * injection H as ->. apply IH1 in E1 as (m1 & s1 & caps1 & -> & H & Hp1).
        destruct (length s1 <? length (m1 ++ s1)) eqn:Hlt; [|done].
        apply IHn in H as (m2 & s2 & caps2 & -> & H & Hp2).
        exists (m1 ++ m2), s2, caps2. rewrite lastc_app, app_assoc.
        split; [done|]. split; [done|].
        apply M_StarS; [|by rewrite next_word_app|done].
        intros ->. apply Nat.ltb_lt in Hlt. simpl in Hlt. lia.
      * exists [], s, caps. repeat split; try done. constructor.
  - apply IH1 in H as (m & s' & caps' & -> & H & Hp).
    eexists m, s', _. split; [done|]. split; [exact H|]. by constructor.
  - destruct (xorb _ _) eqn:Hx; [|done].
    exists [], s, caps. repeat split; try done. by constructor.
  - destruct prev; [done|].
    exists [], s, caps. repeat split; try done. constructor.
Qed.

Lemma match_at_sound (r : regex) (prev : option ascii) (s : chars) (n : nat)
    (caps : captures) :
  match_at r prev s = Some (n, caps) ->
  exists m s', s = m ++ s' /\ n = length m /\ Matches r prev m (word_after s').
Proof.
  unfold match_at. intros H.
  apply rmatch_sound in H as (m & s' & caps' & -> & H & Hp).
  exists m, s'. split; [done|]. split; [|done].
  injection H as <- _. rewrite length_app. lia.
Qed.

Lemma rmatch_Star {R : Type} (r1 : regex) (prev : option ascii) (s : chars)
    (caps : captures) (k : option ascii -> chars -> captures -> option R) :
  rmatch (Star r1) prev s caps k = star_loop r1 k (length s) prev s caps.
Proof. reflexivity. Qed.

(** The matcher finds a match wherever the pattern has one that the
    continuation accepts. *)
Lemma rmatch_complete_gen (r : regex) (prev : option ascii) (m : chars) (nw : bool) :
  Matches r prev m nw ->
  forall (R : Type) (s' : chars) (caps : captures)
         (k : option ascii -> chars -> captures -> option R),
    nw = word_after s' ->
    (forall caps', is_Some (k (lastc prev m) s' caps')) ->
    is_Some (rmatch r prev (m ++ s') caps k) /\
    (forall r1 n, r = Star r1 -> length (m ++ s') <= n ->
       is_Some (star_loop r1 k n prev (m ++ s') caps)).
Proof.
  induction 1 as [prev nw|c prev nw|f c prev nw Hf|r1 r2 prev m1 m2 nw H1 IH1 H2 IH2
                 |r1 r2 prev m nw H1 IH1|r1 r2 prev m nw H2 IH2|r prev nw
                 |r prev m1 m2 nw Hne H1 IH1 H2 IH2|name r prev m nw H1 IH1
                 |prev nw Hx|nw];
    intros R s' caps k Hnw Hk.
  - split; [|done]. simpl. apply Hk.
  - split; [|done]. simpl. unfold eqc. rewrite Ascii.eqb_refl. apply Hk.
  - split; [|done]. simpl. rewrite Hf. apply Hk.
  - split; [|done]. cbn [rmatch]. rewrite <- app_assoc. apply IH1.
    + subst nw. apply next_word_app.
    + intros caps'. rewrite lastc_app in Hk. by apply IH2.
  - split; [|done]. cbn [rmatch].
    destruct (IH1 R s' caps k Hnw Hk) as [[x Hx] _]. by rewrite Hx.
  - split; [|done]. cbn [rmatch].
    destruct (rmatch r1 prev (m ++ s') caps k) eqn:E; [done|].
    by apply IH2.
  - assert (forall n, is_Some (star_loop r k n prev ([] ++ s') caps)) as Hloop.
    { intros [|n]; simpl; [apply Hk|].
      match goal with |- is_Some (match ?e with _ => _ end) => destruct e end;
        [done|apply Hk]. }
    split; [rewrite rmatch_Star; apply Hloop|].
    intros r1 n Hr _. injection Hr as <-. apply Hloop.
  - assert (forall n, length ((m1 ++ m2) ++ s') <= n ->
              is_Some (star_loop r k n prev ((m1 ++ m2) ++ s') caps)) as Hloop.
    { intros n Hn. destruct n as [|n].
      { destruct m1; [done|]. simpl in Hn. lia. }
      cbn [star_loop].
      match goal with |- is_Some (match ?e with _ => _ end) => assert (is_Some e) as [x ->] end;
        [|done].
      rewrite <- app_assoc. apply IH1; [subst nw; apply next_word_app|].
      intros caps'.
      assert ((length (m2 ++ s') <? length (m1 ++ m2 ++ s')) = true) as ->.
      { apply Nat.ltb_lt. rewrite (length_app m1). destruct m1; [done|]. simpl. lia. }
      rewrite lastc_app in Hk.
      apply (IH2 R s' caps' k Hnw Hk); [done|].
      rewrite <- app_assoc, (length_app m1) in Hn. destruct m1; [done|]. simpl in Hn. lia. }
    split; [rewrite rmatch_Star; by apply Hloop|].
    intros r1 n Hr Hn. injection Hr as <-. by apply Hloop.
  - split; [|done]. cbn [rmatch]. apply IH1; [done|]. intros caps'. apply Hk.
  - split; [|done]. simpl. subst nw. rewrite Hx. apply Hk.
  - split; [|done]. simpl. apply Hk.
Qed.

Lemma match_at_complete (r : regex) (prev : option ascii) (m rest : chars) :
  Matches r prev m (word_after rest) -> is_Some (match_at r prev (m ++ rest)).
Proof.
  intros H. unfold match_at.
  by apply (rmatch_complete_gen r prev m _ H).
Qed.

(** What a pattern matches depends on the character before only through
    its being a word character, unless the pattern tests for the start of
    the text. *)
Lemma Matches_prev (r : regex) (prev : option ascii) (m : chars) (nw : bool) :
  Matches r prev m nw ->
  forall prev', bol_free r = true -> word_before prev' = word_before prev ->
    Matches r prev' m nw.
Proof.
  induction 1 as [prev nw|c prev nw|f c prev nw Hf|r1 r2 prev m1 m2 nw H1 IH1 H2 IH2
                 |r1 r2 prev m nw H1 IH1|r1 r2 prev m nw H2 IH2|r prev nw
                 |r prev m1 m2 nw Hne H1 IH1 H2 IH2|name r prev m nw H1 IH1
                 |prev nw Hx|nw];
    intros prev' Hb Hw; cbn [bol_free] in Hb; try (constructor; done).
  - apply andb_true_iff in Hb as [Hb1 Hb2]. constructor; [by apply IH1|].
    apply IH2; [done|]. destruct m1 as [|c m1]; [done|].
    by rewrite !(lastc_nonempty _ (c :: m1)).
  - apply andb_true_iff in Hb as [Hb1 Hb2]. apply M_AltL. by apply IH1.
  - apply andb_true_iff in Hb as [Hb1 Hb2]. apply M_AltR. by apply IH2.
  - apply M_StarS; [done|by apply IH1|].
    apply IH2; [done|]. destruct m1 as [|c m1]; [done|].
    by rewrite !(lastc_nonempty _ (c :: m1)).
  - constructor. by apply IH1.
  - constructor. by rewrite Hw.
  - done.
Qed.

(** After a match of a pattern that ends with a word boundary there is
    one. *)
Lemma Matches_ends_anchored (r : regex) (prev : option ascii) (m : chars) (nw : bool) :
  Matches r prev m nw -> ends_anchored r = true ->
  xorb (word_before (lastc prev m)) nw = true.
Proof.
  induction 1 as [prev nw|c prev nw|f c prev nw Hf|r1 r2 prev m1 m2 nw H1 IH1 H2 IH2
                 |r1 r2 prev m nw H1 IH1|r1 r2 prev m nw H2 IH2|r prev nw
                 |r prev m1 m2 nw Hne H1 IH1 H2 IH2|name r prev m nw H1 IH1
                 |prev nw Hx|nw];
    intros Ha; cbn [ends_anchored] in Ha; try done.
  - rewrite lastc_app. by apply IH2.
  - apply andb_true_iff in Ha as [Ha1 Ha2]. by apply IH1.
  - apply andb_true_iff in Ha as [Ha1 Ha2]. by apply IH2.
  - by apply IH1.
Qed.

(** ** The words of a text *)

Lemma runs_from_split (a : chars) :
  forall cur, runs_from cur a = runs_done cur a ++ [run_open cur a].
Proof.
  induction a as [|c a IH]; intros cur; simpl; [done|].
  destruct (is_word c); by rewrite IH.
Qed.

Lemma runs_from_app (a b : chars) :
  forall cur, runs_from cur (a ++ b) = runs_done cur a ++ runs_from (run_open cur a) b.
Proof.
  induction a as [|c a IH]; intros cur; simpl; [done|].
  destruct (is_word c); by rewrite IH.
Qed.

Lemma runs_done_word (w : chars) :
  Forall (fun c => is_word c = true) w ->
  forall cur, runs_done cur w = [] /\ run_open cur w = cur ++ w.
Proof.
  induction 1 as [|c w Hc _ IH]; intros cur; simpl.
  - by rewrite app_nil_r.
  - rewrite Hc. destruct (IH (cur ++ [c])) as [-> ->]. by rewrite <- app_assoc.
Qed.

Lemma runs_from_boundary (cur s : chars) :
  word_after s = false -> exists l, runs_from cur s = cur :: l.
Proof.
  destruct s as [|c s]; simpl; [by exists []|].
  intros ->. by eexists.
Qed.

(** A run of word characters between two other characters is among the
    words. *)
Lemma runs_from_isolated (w rest : chars) (a : chars) :
  Forall (fun c => is_word c = true) w -> word_after rest = false ->
  forall cur, word_before (last a) = false -> (a = [] -> cur = []) ->
    w ∈ runs_from cur (a ++ w ++ rest).
Proof.
  intros Hw Hrest. induction a as [|c a IH]; intros cur Hlast Hcur.
  - rewrite (Hcur eq_refl). simpl. rewrite runs_from_app.
    destruct (runs_done_word w Hw []) as [-> ->]. simpl.
    destruct (runs_from_boundary w rest Hrest) as [l ->]. by left.
  - simpl. destruct a as [|d a].
    + simpl in Hlast. rewrite Hlast. right. apply (IH []); done.
    + destruct (is_word c); [|right]; apply IH; try done.
Qed.

(** ** A match of a rule's pattern *)

Lemma match_at_facts (r : regex) (prev : option ascii) (s : chars) (n : nat)
    (caps : captures) :
  ends_word r = true -> ends_anchored r = true ->
  match_at r prev s = Some (n, caps) ->
  exists c m rest,
    s = (c :: m) ++ rest /\ n = S (length m) /\ firstc r c = true /\
    word_before (last (c :: m)) = true /\ word_after rest = false /\
    Matches r prev (c :: m) false.
Proof.
  intros Hends Hend2 E.
  pose proof (match_at_inv _ _ _ _ _ E) as (m & rest & -> & -> & _ & Hf & He & _).
  destruct (He Hends) as [Hne Hw].
  apply match_at_sound in E as (m' & rest' & Heq & Hlen & HM).
  assert (m' = m /\ rest' = rest) as [-> ->].
  { apply app_inj_1 in Heq as [-> ->]; done. }
  pose proof (Matches_ends_anchored _ _ _ _ HM Hend2) as Hx.
  rewrite Hw in Hx. simpl in Hx. apply negb_true_iff in Hx.
  destruct m as [|c m]; [done|].
  exists c, m, rest. rewrite lastc_nonempty in Hw by done.
  repeat split; try done. by rewrite Hx in HM.
Qed.

Lemma sub_from_match (r : regex) (repl : chars) (prev : option ascii) (c : ascii)
    (m rest : chars) (caps : captures) :
  match_at r prev (c :: m ++ rest) = Some (S (length m), caps) ->
  sub_from r repl 0 prev (c :: m ++ rest)
  = repl ++ sub_from r repl 0 (last (c :: m)) rest.
Proof.
  intros E. rewrite sub_from_cons, E.
  rewrite (sub_from_skip r repl m rest (Some c) (length m)) by done.
  f_equal. f_equal. unfold lastc. rewrite last_cons. by destruct (last m).
Qed.

(** ** The words of a text after a rule

    The rule replaces the matches of [r] by [repl]. A match begins and ends
    at a word boundary, and [repl] begins with a word character only when
    every match does: no word is split or joined. *)
Section Scan.
Variables (r : regex) (repl : chars) (P Q : chars -> Prop).
Hypothesis Hends : ends_word r = true.
Hypothesis Hanch : starts_anchored r = true.
Hypothesis Hend2 : ends_anchored r = true.
Hypothesis Hfirst : first_word r = true \/ exists c t, repl = c :: t /\ is_word c = false.
Hypothesis Hrepl : Forall Q (runs_from [] repl).
Hypothesis HQnil : Q [].
Hypothesis Hsurv : forall w prev rest,
  w <> [] -> Forall (fun c => is_word c = true) w ->
  word_before prev = false -> word_after rest = false ->
  match_at r prev (w ++ rest) = None -> P w -> Q w.

(** The word that began with [cur], where no match began, goes into the
    result as it is when it is complete. *)
Definition surviving (cur s : chars) : Prop :=
  forall w' rest', s = w' ++ rest' -> Forall (fun c => is_word c = true) w' ->
    word_after rest' = false -> P (cur ++ w') -> Q (cur ++ w').

(** Where the scan stands: in step with the result, within a word or not,
    or just after a match. *)
Definition scan_state (prev : option ascii) (cur_in cur_out s : chars) : Prop :=
  (cur_in = cur_out /\
   match cur_out with
   | [] => word_before prev = false
   | _ => word_before prev = true /\ surviving cur_out s
   end) \/
  (word_after s = false /\ Q cur_out).

Lemma repl_words (cur X : chars) :
  Q cur -> (cur = [] \/ exists c t, repl = c :: t /\ is_word c = false) ->
  Forall Q (runs_from (run_open cur repl) X) ->
  Forall Q (runs_from cur (repl ++ X)).
Proof.
  intros Hcur Hcase HX. rewrite runs_from_app. apply Forall_app. split; [|done].
  pose proof Hrepl as Hr. rewrite runs_from_split in Hr. apply Forall_app in Hr as [Hd _].
  destruct Hcase as [->|(c & t & Heq & Hc)].
  { exact Hd. }
  rewrite Heq in Hd |- *. simpl in Hd |- *. rewrite Hc in Hd |- *.
  apply Forall_cons in Hd as [_ Hd]. by constructor.
Qed.

Lemma repl_open (cur : chars) :
  (cur = [] \/ exists c t, repl = c :: t /\ is_word c = false) ->
  Q (run_open cur repl).
Proof.
  intros Hcase. pose proof Hrepl as Hr.
  rewrite runs_from_split in Hr. apply Forall_app in Hr as [_ Ho].
  apply (proj1 (Forall_singleton _ _)) in Ho.
  destruct Hcase as [->|(c & t & Heq & Hc)]; [exact Ho|].
  rewrite Heq in Ho |- *. simpl in Ho |- *. by rewrite Hc in Ho |- *.
Qed.

Lemma scan_words :
  forall n s, length s <= n ->
  forall prev cur_in cur_out,
    scan_state prev cur_in cur_out s ->
    Forall P (runs_from cur_in s) ->
    Forall Q (runs_from cur_out (sub_from r repl 0 prev s)).
Proof.
  assert (forall prev cur_in cur_out,
            scan_state prev cur_in cur_out [] -> Forall P (runs_from cur_in []) ->
            Forall Q (runs_from cur_out (sub_from r repl 0 prev []))) as Hnil.
  { intros prev cur_in cur_out Hst HP. simpl.
    destruct (match_at r prev []) as [[k caps]|] eqn:E.
    { apply match_at_facts in E as (c & m & rest & Heq & _); done. }
    simpl. constructor; [|done].
    destruct Hst as [[-> Hst]|[_ HQ]]; [|done].
    destruct cur_out as [|c cur]; [done|]. destruct Hst as [_ Hs].
    rewrite <- (app_nil_r (c :: cur)). apply (Hs [] []); try done.
    apply (proj1 (Forall_singleton _ _)) in HP. by rewrite app_nil_r. }
  induction n as [|n IH]; intros s Hlen prev cur_in cur_out Hst HP.
  { destruct s; [|simpl in Hlen; lia]. by apply (Hnil prev cur_in cur_out). }
  destruct s as [|c s]; [by apply (Hnil prev cur_in cur_out)|].
  simpl in Hlen.
  destruct (match_at r prev (c :: s)) as [[k caps]|] eqn:E.
  - (* a match begins here *)
    pose proof E as E'.
    apply match_at_facts in E' as (c' & m & rest & Heq & -> & Hfc & Hlast & Hrest & HM);
      [|done|done].
    simpl in Heq. injection Heq as <- ->.
    rewrite (sub_from_match r repl prev c m rest caps E).
    rewrite app_comm_cons, runs_from_app in HP. apply Forall_app in HP as [HPd HPo].
    assert (Q cur_out /\ (cur_out = [] \/ exists c t, repl = c :: t /\ is_word c = false))
      as [HQc Hcase].
    { destruct (is_word c) eqn:Hc.
      - (* the match begins with a word character: no word is open *)
        assert (word_before prev = false) as Hprev.
        { destruct prev as [p|]; [|done]. simpl.
          destruct (is_word p) eqn:Hp; [|done].
          by rewrite (match_at_anchored r p c (m ++ rest)) in E. }
        destruct Hst as [[-> Hst]|[Hw _]]; [|simpl in Hw; congruence].
        destruct cur_out as [|d cur]; [by split; [|left]|].
        destruct Hst as [Hst _]. congruence.
      - (* the match begins with another character *)
        destruct Hfirst as [Hfw|Hnw].
        { apply (first_word_spec r c Hfw) in Hfc. congruence. }
        split; [|by right].
        destruct Hst as [[-> Hst]|[_ HQ]]; [|done].
        destruct cur_out as [|d cur]; [done|]. destruct Hst as [_ Hs].
        simpl in HPd. rewrite Hc in HPd. apply Forall_cons in HPd as [HPc _].
        rewrite <- (app_nil_r (d :: cur)).
        apply (Hs [] (c :: m ++ rest));
          first [done | by rewrite app_nil_r | by simpl; rewrite Hc]. }
    apply repl_words; [done|done|].
    assert (length rest <= n) as Hl by (rewrite length_app in Hlen; lia).
    apply (IH rest Hl (last (c :: m)) (run_open cur_in (c :: m)) (run_open cur_out repl));
      [|exact HPo].
    right. split; [done|]. by apply repl_open.
  - (* no match begins here *)
    rewrite sub_from_cons, E. simpl in HP |- *.
    destruct (is_word c) eqn:Hc.
    + assert (length s <= n) as Hl by lia.
      apply (IH s Hl (Some c) (cur_in ++ [c]) (cur_out ++ [c])); [|exact HP].
      destruct Hst as [[-> Hst]|[Hw _]]; [|simpl in Hw; congruence].
      left. split; [done|].
      destruct cur_out as [|d cur].
      * simpl. rewrite Hc. split; [done|].
        intros w' rest' -> Hw' Hr' HPw. simpl.
        apply (Hsurv (c :: w') prev rest'); try done. by constructor.
      * destruct Hst as [_ Hs]. simpl. rewrite Hc. split; [done|].
        intros w' rest' -> Hw' Hr' HPw.
        assert ((d :: cur ++ [c]) ++ w' = (d :: cur) ++ c :: w') as Heq
          by (simpl; by rewrite <- app_assoc).
        rewrite Heq in HPw |- *.
        apply (Hs (c :: w') rest'); try done. by constructor.
    + apply Forall_cons in HP as [HPc HP].
      constructor.
      * destruct Hst as [[-> Hst]|[_ HQ]]; [|done].
        destruct cur_out as [|d cur]; [done|]. destruct Hst as [_ Hs].
        rewrite <- (app_nil_r (d :: cur)).
        apply (Hs [] (c :: s)); first [done | by rewrite app_nil_r | by simpl; rewrite Hc].
      * assert (length s <= n) as Hl by lia.
        apply (IH s Hl (Some c) [] []); [|exact HP].
        left. split; [done|]. simpl. by rewrite Hc.
Qed.

Lemma sub_words (s : chars) :
  Forall P (word_runs s) -> Forall Q (word_runs (sub_from r repl 0 None s)).
Proof.
  intros HP. apply (scan_words (length s) s (Nat.le_refl _) None [] []); [|done].
  left. by split.
Qed.

End Scan.

(** ** What the matches of a pattern hold *)

Lemma Matches_alpha (r : regex) (prev : option ascii) (m : chars) (nw : bool) :
  Matches r prev m nw -> Forall (fun c => alpha r c = true) m.
Proof.
  induction 1; simpl; try done.
  - constructor; [|done]. unfold eqc. apply Ascii.eqb_refl.
  - by constructor.
  - apply Forall_app. split.
    + eapply Forall_impl; [exact IHMatches1|]. simpl. by intros c ->.
    + eapply Forall_impl; [exact IHMatches2|]. simpl. intros c ->. apply orb_true_r.
  - eapply Forall_impl; [exact IHMatches|]. simpl. by intros c ->.
  - eapply Forall_impl; [exact IHMatches|]. simpl. intros c ->. apply orb_true_r.
  - apply Forall_app. by split.
Qed.

Lemma word_alpha_spec (r : regex) (m : chars) :
  word_alpha r = true -> Forall (fun c => alpha r c = true) m ->
  Forall (fun c => is_word c = true) m.
Proof.
  unfold word_alpha. rewrite forallb_forall. intros Hall Hm.
  eapply Forall_impl; [exact Hm|]. simpl. intros c Hc.
  specialize (Hall c (in_all_ascii c)). by rewrite Hc in Hall.
Qed.

Lemma Matches_lang (r : regex) (prev : option ascii) (m : chars) (nw : bool) :
  Matches r prev m nw -> forall l, lang r = Some l -> In m l.
Proof.
  induction 1; intros l Hl; simpl in Hl; try (injection Hl as <-; by left); try done.
  - destruct (lang r1) as [l1|]; [|done]. destruct (lang r2) as [l2|]; [|done].
    injection Hl as <-. apply in_flat_map. exists m1. split; [by apply IHMatches1|].
    apply in_map. by apply IHMatches2.
  - destruct (lang r1) as [l1|]; [|done]. destruct (lang r2) as [l2|]; [|done].
    injection Hl as <-. apply in_or_app. left. by apply IHMatches.
  - destruct (lang r1) as [l1|]; [|done]. destruct (lang r2) as [l2|]; [|done].
    injection Hl as <-. apply in_or_app. right. by apply IHMatches.
  - by apply IHMatches.
Qed.

(** ** Words and where they stand *)

Lemma run_open_boundary (a : chars) :
  forall cur, word_before (last a) = false -> (a = [] -> cur = []) -> run_open cur a = [].
Proof.
  induction a as [|c a IH]; intros cur Hlast Hcur; [by apply Hcur|].
  simpl. destruct a as [|d a].
  - simpl in Hlast. by rewrite Hlast.
  - destruct (is_word c); by apply IH.
Qed.

Lemma match_word_in (a m rest : chars) :
  word_before (last a) = false -> word_after rest = false ->
  run_open [] m ∈ word_runs (a ++ m ++ rest).
Proof.
  intros Ha Hrest. unfold word_runs. rewrite runs_from_app.
  rewrite (run_open_boundary a []) by done.
  apply elem_of_app. right. rewrite runs_from_app. apply elem_of_app. right.
  destruct (runs_from_boundary (run_open [] m) rest Hrest) as [l ->]. by left.
Qed.

Lemma search_inv (r : regex) (s : chars) :
  forall prev, search r prev s = true ->
  exists a s' res, s = a ++ s' /\ match_at r (lastc prev a) s' = Some res.
Proof.
  induction s as [|c s IH]; intros prev H; simpl in H.
  - destruct (match_at r prev []) as [res|] eqn:E; [|done]. by exists [], [], res.
  - destruct (match_at r prev (c :: s)) as [res|] eqn:E.
    + by exists [], (c :: s), res.
    + apply IH in H as (a & s' & res & -> & Hm).
      exists (c :: a), s', res. split; [done|]. by rewrite lastc_cons.
Qed.

Lemma lastc_None (a : chars) : lastc None a = last a.
Proof. unfold lastc. by destruct (last a). Qed.

(** No match where no word is one that [bad] holds of. *)
Lemma absent_words (r : regex) (bad : chars -> bool) (t : chars) :
  ends_word r = true -> ends_anchored r = true -> starts_anchored r = true ->
  first_word r = true ->
  (forall prev c m, Matches r prev (c :: m) false -> word_before prev = false ->
     bad (run_open [] (c :: m)) = true) ->
  Forall (fun w => bad w = false) (word_runs t) ->
  search r None t = false.
Proof.
  intros Hends Hend2 Hanch Hfirst Hbad Hgood.
  destruct (search r None t) eqn:Hs; [|done]. exfalso.
  apply search_inv in Hs as (a & s' & [n caps] & -> & E). rewrite lastc_None in E.
  pose proof E as E'.
  apply match_at_facts in E' as (c & m & rest & -> & -> & Hfc & Hlast & Hrest & HM);
    [|done|done].
  assert (is_word c = true) as Hc by (by apply (first_word_spec r c Hfirst)).
  assert (word_before (last a) = false) as Hprev.
  { destruct (last a) as [p|] eqn:Hl; [|done]. simpl.
    destruct (is_word p) eqn:Hp; [|done]. simpl in E.
    by rewrite (match_at_anchored r p c (m ++ rest)) in E. }
  pose proof (match_word_in a (c :: m) rest Hprev Hrest) as Hin.
  rewrite Forall_forall in Hgood. specialize (Hgood _ Hin).
  rewrite (Hbad (last a) c m HM Hprev) in Hgood. done.
Qed.

(** ** Patterns that match whole words *)

Section WholeWord.
Variable r : regex.
Hypothesis Hends : ends_word r = true.
Hypothesis Hend2 : ends_anchored r = true.
Hypothesis Hbol : bol_free r = true.

(** A word that the pattern matches when it stands alone is matched where
    it stands between two other characters. *)
Lemma matched_word_Matches (w : chars) (prev : option ascii) :
  Forall (fun c => is_word c = true) w -> word_before prev = false ->
  matched_word r w = true -> Matches r prev w false.
Proof.
  intros Hw Hprev Hm. unfold matched_word in Hm.
  destruct (match_at r None w) as [[n caps]|] eqn:E; [|done].
  apply match_at_facts in E as (c & m & rest0 & Heq & _ & _ & _ & Hrest0 & HM);
    [|done|done].
  assert (rest0 = []) as ->.
  { destruct rest0 as [|d rest0]; [done|]. simpl in Hrest0.
    rewrite Heq in Hw. apply Forall_app in Hw as [_ Hw].
    apply Forall_cons in Hw as [Hd _]. congruence. }
  rewrite app_nil_r in Heq. subst w.
  by apply (Matches_prev r None (c :: m) false HM).
Qed.

Lemma matched_word_in_context (w : chars) (prev : option ascii) (rest : chars) :
  Forall (fun c => is_word c = true) w ->
  word_before prev = false -> word_after rest = false ->
  matched_word r w = true -> is_Some (match_at r prev (w ++ rest)).
Proof.
  intros Hw Hprev Hrest Hm. apply match_at_complete. rewrite Hrest.
  by apply matched_word_Matches.
Qed.

Hypothesis Halpha : word_alpha r = true.

(** A match is a word that the pattern matches when it stands alone. *)
Lemma match_is_matched_word (prev : option ascii) (c : ascii) (m : chars) :
  Matches r prev (c :: m) false -> word_before prev = false ->
  matched_word r (run_open [] (c :: m)) = true.
Proof.
  intros HM Hprev.
  pose proof (word_alpha_spec r _ Halpha (Matches_alpha _ _ _ _ HM)) as Hw.
  destruct (runs_done_word (c :: m) Hw []) as [_ ->]. simpl app.
  unfold matched_word.
  assert (is_Some (match_at r None ((c :: m) ++ []))) as [res Hres].
  { apply match_at_complete. simpl. by apply (Matches_prev r prev (c :: m) false HM). }
  rewrite app_nil_r in Hres. by rewrite Hres.
Qed.

End WholeWord.

(** ** A pattern with an optional text in front *)

Lemma Matches_WordB_inv (prev : option ascii) (m : chars) (nw : bool) :
  Matches WordB prev m nw -> m = [] /\ xorb (word_before prev) nw = true.
Proof. by inversion 1. Qed.

Lemma Matches_Seq_inv (r1 r2 : regex) (prev : option ascii) (m : chars) (nw : bool) :
  Matches (Seq r1 r2) prev m nw ->
  exists m1 m2, m = m1 ++ m2 /\ Matches r1 prev m1 (next_word m2 nw) /\
                Matches r2 (lastc prev m1) m2 nw.
Proof. inversion 1; subst. by exists m1, m2. Qed.

(** What the pattern without the optional text matches, the pattern with
    it matches too. *)
Lemma Matches_skip_opt (x body : regex) (prev : option ascii) (m : chars) (nw : bool) :
  Matches (Seq WordB body) prev m nw -> Matches (Seq WordB (Seq (Opt x) body)) prev m nw.
Proof.
  intros H. apply Matches_Seq_inv in H as (m1 & m2 & -> & H1 & H2).
  apply Matches_WordB_inv in H1 as [-> Hx]. simpl in *.
  apply (M_Seq WordB (Seq (Opt x) body) prev [] m2 nw); [by constructor|].
  apply (M_Seq (Opt x) body prev [] m2 nw); [|done].
  apply M_AltR. constructor.
Qed.

(** ** Rules that split and join no word *)

Lemma rule_bounded_spec (x : rule) :
  rule_bounded x = true ->
  ends_word (fst x) = true /\ starts_anchored (fst x) = true /\
  ends_anchored (fst x) = true /\
  (first_word (fst x) = true \/ exists c t, L (snd x) = c :: t /\ is_word c = false).
Proof.
  unfold rule_bounded. intros H.
  apply andb_true_iff in H as [H Hf]. apply andb_true_iff in H as [H He].
  apply andb_true_iff in H as [Hw Ha]. repeat split; try done.
  apply orb_true_iff in Hf as [Hf|Hf]; [by left|right].
  destruct (L (snd x)) as [|c t]; [done|]. exists c, t. split; [done|].
  by apply negb_true_iff.
Qed.

Lemma forallb_good (bad : chars -> bool) (l : list chars) :
  forallb (fun w => negb (bad w)) l = true -> Forall (fun w => bad w = false) l.
Proof.
  rewrite forallb_forall, Forall_forall. intros H w Hw.
  apply negb_true_iff, H. by apply list_elem_of_In.
Qed.

(** A rule that brings in no word that [bad] holds of keeps a text without
    such words so. *)
Lemma rule_keeps_spec (bad : chars -> bool) (x : rule) (t : chars) :
  rule_keeps bad x = true -> bad [] = false ->
  Forall (fun w => bad w = false) (word_runs t) ->
  Forall (fun w => bad w = false) (word_runs (apply_rule t x)).
Proof.
  unfold rule_keeps. intros H Hnil Ht. apply andb_true_iff in H as [Hb Hr].
  apply rule_bounded_spec in Hb as (He & Ha & He2 & Hf).
  apply (sub_words (fst x) (L (snd x)) (fun w => bad w = false) (fun w => bad w = false));
    try done.
  by apply forallb_good.
Qed.

(** A rule that replaces every word that [bad] holds of, by a text without
    such words, leaves none. *)
Lemma rule_clears (bad : chars -> bool) (x : rule) (t : chars) :
  rule_keeps bad x = true -> bad [] = false ->
  (forall w prev rest,
     Forall (fun c => is_word c = true) w ->
     word_before prev = false -> word_after rest = false ->
     bad w = true -> is_Some (match_at (fst x) prev (w ++ rest))) ->
  Forall (fun w => bad w = false) (word_runs (apply_rule t x)).
Proof.
  unfold rule_keeps. intros H Hnil Hfound. apply andb_true_iff in H as [Hb Hr].
  apply rule_bounded_spec in Hb as (He & Ha & He2 & Hf).
  apply (sub_words (fst x) (L (snd x)) (fun _ => True) (fun w => bad w = false));
    try done.
  - by apply forallb_good.
  - intros w prev rest _ Hw Hprev Hrest Hnone _.
    destruct (bad w) eqn:Hbw; [|done].
    destruct (Hfound w prev rest Hw Hprev Hrest Hbw) as [res Hres]. congruence.
  - by apply Forall_forall.
Qed.

Lemma rules_keep (bad : chars -> bool) (rules : list rule) :
  forallb (rule_keeps bad) rules = true -> bad [] = false ->
  forall t, Forall (fun w => bad w = false) (word_runs t) ->
    Forall (fun w => bad w = false) (word_runs (fold_left apply_rule rules t)).
Proof.
  intros H Hnil. induction rules as [|x rules IH]; intros t Ht; [done|].
  simpl in H. apply andb_true_iff in H as [Hx Hrules]. simpl.
  apply IH; [done|]. by apply rule_keeps_spec.
Qed.

(** ** Trimming and words *)

Lemma words_lstrip (P : chars -> Prop) (t : chars) :
  Forall P (word_runs t) -> Forall P (word_runs (lstrip t)).
Proof.
  unfold word_runs. induction t as [|c t IH]; [done|]. simpl.
  destruct (is_space c) eqn:Hc; [|done].
  rewrite (is_space_not_word c Hc). intros H. apply Forall_cons in H as [_ H]. by apply IH.
Qed.

Lemma words_snoc (P : chars -> Prop) (a : chars) (c : ascii) :
  is_word c = false ->
  forall cur, Forall P (runs_from cur (a ++ [c])) -> Forall P (runs_from cur a).
Proof.
  intros Hc cur. rewrite runs_from_app, (runs_from_split a cur). simpl. rewrite Hc.
  intros H. apply Forall_app in H as [Hd Ho]. apply Forall_app. split; [done|].
  apply Forall_cons in Ho as [Ho _]. by constructor.
Qed.

Lemma words_rstrip (P : chars -> Prop) (t : chars) :
  Forall P (word_runs t) -> Forall P (word_runs (rstrip t)).
Proof.
  unfold rstrip. induction t as [|c t IH] using rev_ind; [done|].
  rewrite rev_app_distr. simpl.
  destruct (is_space c) eqn:Hc.
  - intros H. apply IH. by apply (words_snoc P t c (is_space_not_word c Hc) []).
  - simpl. by rewrite rev_involutive.
Qed.

Lemma words_strip (P : chars -> Prop) (t : chars) :
  Forall P (word_runs t) -> Forall P (word_runs (strip t)).
Proof. intros H. unfold strip. by apply words_rstrip, words_lstrip. Qed.

(** ** The token translator as a list of rules *)

Lemma simple_parse_chars_rules (c : ascii) (s : chars) :
  simple_parse_chars (c :: s)
  = strip (fold_left apply_rule word_rules (simple_parse_literal (c :: s))).
Proof. reflexivity. Qed.

(** After the rules from the [i]-th on, where the [i]-th replaces every
    word that [bad] holds of and the later ones bring in none, no word is
    one that [bad] holds of. *)
Lemma rules_clear (bad : chars -> bool) (i : nat) (x : rule) (t : chars) :
  word_rules !! i = Some x ->
  forallb (rule_keeps bad) (drop i word_rules) = true -> bad [] = false ->
  (forall w prev rest,
     Forall (fun c => is_word c = true) w ->
     word_before prev = false -> word_after rest = false ->
     bad w = true -> is_Some (match_at (fst x) prev (w ++ rest))) ->
  Forall (fun w => bad w = false) (word_runs (strip (fold_left apply_rule word_rules t))).
Proof.
  intros Hi Hkeep Hnil Hfound. apply words_strip.
  rewrite <- (take_drop i word_rules), fold_left_app.
  rewrite (drop_S _ _ _ Hi) in Hkeep |- *. simpl in Hkeep |- *.
  apply andb_true_iff in Hkeep as [Hx Hrest].
  apply rules_keep; [done|done|]. by apply rule_clears.
Qed.

(** ** The rules that cannot fire again *)

(** A whole-word pattern finds nothing after its own rule and the later
    ones. *)
Lemma settled_whole (i : nat) (r : regex) (rp : string) (t : chars) :
  word_rules !! i = Some (r, rp) ->
  ends_word r && ends_anchored r && starts_anchored r && first_word r
  && bol_free r && word_alpha r && negb (matched_word r [])
  && forallb (rule_keeps (matched_word r)) (drop i word_rules) = true ->
  Forall (fun w => matched_word r w = false)
         (word_runs (strip (fold_left apply_rule word_rules t))) /\
  forall t', Forall (fun w => matched_word r w = false) (word_runs t') ->
             search r None t' = false.
Proof.
  intros Hi H.
  apply andb_true_iff in H as [H Hkeep]. apply andb_true_iff in H as [H Hnil].
  apply andb_true_iff in H as [H Halpha]. apply andb_true_iff in H as [H Hbol].
  apply andb_true_iff in H as [H Hfirst]. apply andb_true_iff in H as [H Hanch].
  apply andb_true_iff in H as [Hends Hend2]. apply negb_true_iff in Hnil.
  split.
  - apply (rules_clear (matched_word r) i (r, rp)); try done.
    intros w prev rest Hw Hprev Hrest Hbad. by apply matched_word_in_context.
  - intros t' Ht'. apply (absent_words r (matched_word r)); try done.
    intros prev c m HM Hprev. by apply (match_is_matched_word r Hbol Halpha prev c m).
Qed.

(** The same for a pattern with an optional text in front, by the words that the
    pattern without it matches. *)
Lemma settled_prefixed (i : nat) (x body : regex) (rp : string) (l : list chars)
    (t : chars) :
  let r := Seq WordB (Seq (Opt x) body) in
  let core := Seq WordB body in
  word_rules !! i = Some (r, rp) ->
  lang r = Some l ->
  ends_word r && ends_anchored r && starts_anchored r && first_word r
  && ends_word core && ends_anchored core && bol_free core
  && negb (matched_word core [])
  && forallb (fun m => matched_word core (run_open [] m)) l
  && forallb (rule_keeps (matched_word core)) (drop i word_rules) = true ->
  Forall (fun w => matched_word core w = false)
         (word_runs (strip (fold_left apply_rule word_rules t))) /\
  forall t', Forall (fun w => matched_word core w = false) (word_runs t') ->
             search r None t' = false.
Proof.
  intros r core Hi Hl H.
  apply andb_true_iff in H as [H Hkeep]. apply andb_true_iff in H as [H Hlang].
  apply andb_true_iff in H as [H Hnil]. apply andb_true_iff in H as [H Hbol].
  apply andb_true_iff in H as [H Hcend2]. apply andb_true_iff in H as [H Hcends].
  apply andb_true_iff in H as [H Hfirst]. apply andb_true_iff in H as [H Hanch].
  apply andb_true_iff in H as [Hends Hend2]. apply negb_true_iff in Hnil.
  split.
  - apply (rules_clear (matched_word core) i (r, rp)); try done.
    intros w prev rest Hw Hprev Hrest Hbad. apply match_at_complete. rewrite Hrest.
    apply Matches_skip_opt. by apply matched_word_Matches.
  - intros t' Ht'. apply (absent_words r (matched_word core)); try done.
    intros prev c m HM Hprev.
    pose proof (Matches_lang r prev (c :: m) false HM l Hl) as Hin.
    rewrite forallb_forall in Hlang. by apply Hlang.
Qed.

Lemma settled_const : settled re_const (matched_word re_const).
Proof.
  split; [intros t; apply (settled_whole 0 re_const "" t)
         |apply (settled_whole 0 re_const "" [])];
    first [reflexivity | vm_compute; reflexivity].
Qed.

Lemma settled_volatile : settled re_volatile (matched_word re_volatile).
Proof.
  split; [intros t; apply (settled_whole 1 re_volatile "" t)
         |apply (settled_whole 1 re_volatile "" [])];
    first [reflexivity | vm_compute; reflexivity].
Qed.

Lemma settled_void : settled re_void (matched_word re_void).
Proof.
  split; [intros t; apply (settled_whole 2 re_void "None" t)
         |apply (settled_whole 2 re_void "None" [])];
    first [reflexivity | vm_compute; reflexivity].
Qed.

Lemma settled_intN : settled re_intN (matched_word re_intN).
Proof.
  split; [intros t; apply (settled_whole 3 re_intN "int" t)
         |apply (settled_whole 3 re_intN "int" [])];
    first [reflexivity | vm_compute; reflexivity].
Qed.

Lemma settled_unsigned : settled re_unsigned (matched_word re_unsigned).
Proof.
  split; [intros t; apply (settled_whole 4 re_unsigned "" t)
         |apply (settled_whole 4 re_unsigned "" [])];
    first [reflexivity | vm_compute; reflexivity].
Qed.

Lemma settled_double : settled re_double (matched_word re_double).
Proof.
  split; [intros t; apply (settled_whole 6 re_double "float" t)
         |apply (settled_whole 6 re_double "float" [])];
    first [reflexivity | vm_compute; reflexivity].
Qed.

Lemma settled_true : settled re_true (matched_word re_true).
Proof.
  split; [intros t; apply (settled_whole 11 re_true "True" t)
         |apply (settled_whole 11 re_true "True" [])];
    first [reflexivity | vm_compute; reflexivity].
Qed.

Lemma settled_false : settled re_false (matched_word re_false).
Proof.
  split; [intros t; apply (settled_whole 12 re_false "False" t)
         |apply (settled_whole 12 re_false "False" [])];
    first [reflexivity | vm_compute; reflexivity].
Qed.

Lemma settled_nullptr : settled re_nullptr (matched_word re_nullptr).
Proof.
  split; [intros t; apply (settled_whole 13 re_nullptr "None" t)
         |apply (settled_whole 13 re_nullptr "None" [])];
    first [reflexivity | vm_compute; reflexivity].
Qed.

Lemma settled_NULL : settled re_NULL (matched_word re_NULL).
Proof.
  split; [intros t; apply (settled_whole 14 re_NULL "None" t)
         |apply (settled_whole 14 re_NULL "None" [])];
    first [reflexivity | vm_compute; reflexivity].
Qed.

Lemma settled_string : settled re_string (matched_word core_string).
Proof.
  split; [intros t; apply (settled_prefixed 7 (Str "std.") (Seq (Str "string") WordB) "str" [L "std.string"; L "string"] t)
         |apply (settled_prefixed 7 (Str "std.") (Seq (Str "string") WordB) "str" [L "std.string"; L "string"] [])];
    first [reflexivity | vm_compute; reflexivity].
Qed.

Lemma settled_vector : settled re_vector (matched_word core_vector).
Proof.
  split; [intros t; apply (settled_prefixed 8 (Str "std.") (Seq (Str "vector") WordB) "List" [L "std.vector"; L "vector"] t)
         |apply (settled_prefixed 8 (Str "std.") (Seq (Str "vector") WordB) "List" [L "std.vector"; L "vector"] [])];
    first [reflexivity | vm_compute; reflexivity].
Qed.

Lemma settled_pair : settled re_pair (matched_word core_pair).
Proof.
  split; [intros t; apply (settled_prefixed 9 (Str "std.") (Seq (Str "pair") WordB) "Tuple" [L "std.pair"; L "pair"] t)
         |apply (settled_prefixed 9 (Str "std.") (Seq (Str "pair") WordB) "Tuple" [L "std.pair"; L "pair"] [])];
    first [reflexivity | vm_compute; reflexivity].
Qed.

Lemma settled_map : settled re_map (matched_word core_map).
Proof.
  split; [intros t; apply (settled_prefixed 10 (Str "std.") (Seq (Opt (Str "unordered_")) (Seq (Str "map") WordB)) "Dict" [L "std.unordered_map"; L "std.map"; L "unordered_map"; L "map"] t)
         |apply (settled_prefixed 10 (Str "std.") (Seq (Opt (Str "unordered_")) (Seq (Str "map") WordB)) "Dict" [L "std.unordered_map"; L "std.map"; L "unordered_map"; L "map"] [])];
    first [reflexivity | vm_compute; reflexivity].
Qed.

(** ** The rules for punctuation on a translated text *)

Lemma contains_absent_char (c : ascii) (t : chars) :
  Forall (fun d => d <> c) t -> contains [c] t = false.
Proof.
  induction 1 as [|d t Hd _ IH]; [done|]. simpl. rewrite IH, andb_true_r, orb_false_r.
  destruct (eqc c d) eqn:E; [|done]. apply eqc_eq in E. congruence.
Qed.

Lemma char_ptr_needs_star (t : chars) :
  Forall (fun d => d <> "*"%char) t -> search re_char_ptr None t = false.
Proof.
  intros Ht. destruct (search re_char_ptr None t) eqn:Hs; [|done]. exfalso.
  apply search_inv in Hs as (a & s' & [n caps] & -> & E).
  unfold match_at in E.
  apply (rmatch_ends_in (fun c => eqc c "*"%char)) in E as (m & c & s'' & caps' & -> & Hc & _);
    [|reflexivity].
  apply eqc_eq in Hc as ->.
  apply Forall_app in Ht as [_ Ht]. apply Forall_app in Ht as [_ Ht].
  by apply Forall_cons in Ht as [Ht _].
Qed.

(** A translated text is left as it is by the rules of lines 559-561,
    unless it holds [::] or [...]. *)
Lemma simple_parse_literal_settled (o : chars) :
  (forall c, c ∈ rewritten_chars -> Forall (fun d => d <> c) o) ->
  strip o = o ->
  contains (L "::") o = false -> contains (L "...") o = false ->
  simple_parse_literal o = o.
Proof.
  intros Hav Hstrip Hcc Hdots. unfold simple_parse_literal.
  rewrite (sub_no_match re_char_ptr)
    by (apply char_ptr_needs_star, Hav; vm_compute; set_solver).
  rewrite (repl_absent "::") by done.
  rewrite (repl_absent "<") by (apply contains_absent_char, Hav; vm_compute; set_solver).
  rewrite (repl_absent ">") by (apply contains_absent_char, Hav; vm_compute; set_solver).
  rewrite (repl_absent "&") by (apply contains_absent_char, Hav; vm_compute; set_solver).
  rewrite (repl_absent "*") by (apply contains_absent_char, Hav; vm_compute; set_solver).
  by rewrite (repl_absent "...").
Qed.

(** ** The rules for a leading keyword *)

Lemma match_at_bol_word (w : string) (prev : option ascii) (s : chars) :
  match_at (Seqs [Bol; Str w; WordB]) prev s =
  match prev with
  | Some _ => None
  | None =>
      if starts_with (L w) s
         && xorb (word_before (lastc None (L w))) (word_after (drop (length (L w)) s))
      then Some (length s - length (drop (length (L w)) s), [])
      else None
  end.
Proof.
  unfold match_at, Str. cbn [Seqs rmatch]. destruct prev; [done|].
  rewrite rmatch_Str. destruct (starts_with (L w) s); [|done]. cbn [andb rmatch].
  by destruct (xorb _ _).
Qed.

Lemma search_bol_later (w : string) (s : chars) (p : ascii) :
  search (Seqs [Bol; Str w; WordB]) (Some p) s = false.
Proof.
  revert p. induction s as [|c s IH]; intros p; cbn [search];
    rewrite match_at_bol_word; [done|].
  apply IH.
Qed.

Lemma sub_bol_word (w rp : string) (t : chars) :
  word_before (last (L w)) = true ->
  starts_word (L w) t = false ->
  sub (Seqs [Bol; Str w; WordB]) rp t = t.
Proof.
  intros Hlast Hstart. apply sub_no_match.
  assert (match_at (Seqs [Bol; Str w; WordB]) None t = None) as Hm.
  { rewrite match_at_bol_word. rewrite lastc_None, Hlast.
    unfold starts_word in Hstart.
    destruct (starts_with (L w) t); [|done].
    by destruct (word_after (drop (length (L w)) t)). }
  destruct t as [|c t]; cbn [search]; rewrite Hm; [done|]. apply search_bol_later.
Qed.

(** ** The token translator on a translated text *)

Lemma settled_sub (r : regex) (bad : chars -> bool) (rp : string) (t : chars) :
  settled r bad -> Forall (fun w => bad w = false) (word_runs t) -> sub r rp t = t.
Proof. intros [_ Hs] Ht. apply sub_no_match. by apply Hs. Qed.

Lemma ints_keeps (bad : chars -> bool) (t : chars) :
  rule_keeps bad (re_ints, " int") && negb (bad []) = true ->
  Forall (fun w => bad w = false) (word_runs t) ->
  Forall (fun w => bad w = false) (word_runs (sub re_ints " int" t)).
Proof.
  intros H Ht. apply andb_true_iff in H as [Hk Hnil]. apply negb_true_iff in Hnil.
  by apply (rule_keeps_spec bad (re_ints, " int")).
Qed.

(** On a translated text without [::] and [...], a second application can
    rewrite integer words and a leading keyword, and nothing else. *)
Lemma second_application (t : chars) :
  let o := simple_parse_chars t in
  contains (L "::") o = false -> contains (L "...") o = false ->
  simple_parse_chars o
  = strip (sub re_typename "" (sub re_class "" (sub re_ints " int" o))).
Proof.
  intros o Hcc Hdots.
  destruct t as [|c0 t0]; [done|].
  destruct o as [|c o'] eqn:Ho; [done|]. rewrite <- Ho in *.
  assert (strip o = o) as Hstrip.
  { subst o. rewrite simple_parse_chars_rules. apply strip_strip. }
  assert (forall c, c ∈ rewritten_chars -> Forall (fun d => d <> c) o) as Hav.
  { intros d Hd. subst o. by apply simple_parse_chars_avoids. }
  assert (simple_parse_chars o
          = strip (fold_left apply_rule word_rules (simple_parse_literal o))) as ->.
  { rewrite Ho at 1. rewrite simple_parse_chars_rules. by rewrite <- Ho. }
  rewrite simple_parse_literal_settled by done.
  assert (forall r bad, settled r bad -> Forall (fun w => bad w = false) (word_runs o)) as Hgood.
  { intros r bad [Hw _]. subst o. rewrite simple_parse_chars_rules. apply Hw. }
  cbn [fold_left word_rules]. unfold apply_rule. cbn [fst snd].
  rewrite (settled_sub re_const _ _ _ settled_const) by apply (Hgood _ _ settled_const).
  rewrite (settled_sub re_volatile _ _ _ settled_volatile)
    by apply (Hgood _ _ settled_volatile).
  rewrite (settled_sub re_void _ _ _ settled_void) by apply (Hgood _ _ settled_void).
  rewrite (settled_sub re_intN _ _ _ settled_intN) by apply (Hgood _ _ settled_intN).
  rewrite (settled_sub re_unsigned _ _ _ settled_unsigned)
    by apply (Hgood _ _ settled_unsigned).
  set (o1 := sub re_ints " int" o).
  assert (forall r bad, settled r bad ->
            rule_keeps bad (re_ints, " int") && negb (bad []) = true ->
            Forall (fun w => bad w = false) (word_runs o1)) as Hgood1.
  { intros r bad Hs Hk. apply ints_keeps; [done|]. by apply (Hgood r). }
  rewrite (settled_sub re_double _ _ _ settled_double)
    by (apply (Hgood1 _ _ settled_double); vm_compute; reflexivity).
  rewrite (settled_sub re_string _ _ _ settled_string)
    by (apply (Hgood1 _ _ settled_string); vm_compute; reflexivity).
  rewrite (settled_sub re_vector _ _ _ settled_vector)
    by (apply (Hgood1 _ _ settled_vector); vm_compute; reflexivity).
  rewrite (settled_sub re_pair _ _ _ settled_pair)
    by (apply (Hgood1 _ _ settled_pair); vm_compute; reflexivity).
  rewrite (settled_sub re_map _ _ _ settled_map)
    by (apply (Hgood1 _ _ settled_map); vm_compute; reflexivity).
  rewrite (settled_sub re_true _ _ _ settled_true)
    by (apply (Hgood1 _ _ settled_true); vm_compute; reflexivity).
  rewrite (settled_sub re_false _ _ _ settled_false)
    by (apply (Hgood1 _ _ settled_false); vm_compute; reflexivity).
  rewrite (settled_sub re_nullptr _ _ _ settled_nullptr)
    by (apply (Hgood1 _ _ settled_nullptr); vm_compute; reflexivity).
  rewrite (settled_sub re_NULL _ _ _ settled_NULL)
    by (apply (Hgood1 _ _ settled_NULL); vm_compute; reflexivity).
  reflexivity.
Qed.

Lemma strip_space_cons (o : chars) : strip (" "%char :: o) = strip o.
Proof. reflexivity. Qed.

(** C5, as amended. On a translation that holds neither [::] nor [...], a
    second application of the token translator does what the rule for
    integer words, the two rules for a leading keyword and the final strip
    do, and nothing else: no other rule finds anything to rewrite again. So
    the second application returns the translation as it is when, besides,
    the translation does not begin with the word [class] or [typename] and
    the rule for integer words alone leaves it as it is, but for a space
    that it may put in front. *)
Theorem C5_simple_parse_stable_amended (s : string) :
  let o := L (simple_parse s) in
  contains (L "::") o = false -> contains (L "...") o = false ->
  L (simple_parse (simple_parse s))
  = strip (sub re_typename "" (sub re_class "" (sub re_ints " int" o))) /\
  (starts_word (L "class") o = false -> starts_word (L "typename") o = false ->
   ints_settled o = true ->
   simple_parse (simple_parse s) = simple_parse s).
Proof.
  intros o Hcc Hdots. subst o. unfold simple_parse in *. rewrite !L_S in *.
  pose proof (second_application (L s) Hcc Hdots) as H2. cbv zeta in H2.
  split; [exact H2|].
  intros Hclass Htypename Hints. f_equal. rewrite H2.
  set (o := simple_parse_chars (L s)) in *.
  assert (strip o = o) as Hstrip.
  { subst o. destruct (L s) as [|c t]; [done|].
    rewrite simple_parse_chars_rules. apply strip_strip. }
  apply bool_decide_eq_true in Hints as [->| ->].
  - unfold re_class, re_typename.
    by rewrite (sub_bol_word "class"), (sub_bol_word "typename").
  - unfold re_class, re_typename.
    rewrite (sub_bol_word "class"), (sub_bol_word "typename"); try done.
Qed.

Lemma C5_simple_parse_stable_amended_witness :
  Forall (fun s => simple_parse (simple_parse s) = simple_parse s)
         ["int"; "unsigned int"; "long"; "const int &"; "const std::string &";
          "unsigned long x"]%string.
Proof.
  repeat (apply Forall_cons_2;
          [match goal with
           | |- simple_parse (simple_parse ?s) = _ =>
               apply (C5_simple_parse_stable_amended s); vm_compute; reflexivity
           end|]).
  apply Forall_nil_2.
Defined.

(** C5 as stated fails: the rule for integer keywords puts a space in front
    of [int] each time it is applied. *)
Lemma C5_counterexample :
  simple_parse "std::vector<int>" = "List[ int]" /\
  simple_parse (simple_parse "std::vector<int>") = "List[  int]" /\
  simple_parse (simple_parse "std::vector<int>") <> simple_parse "std::vector<int>".
Proof.
  split; [vm_compute; reflexivity|]. split; [vm_compute; reflexivity|].
  vm_compute. discriminate.
Qed.

(** The other ways in which a second application changes a translation: a
    rule that removes a word may leave [::] or [...] behind, and the final
    strip may lay a leading keyword bare. *)
Lemma simple_parse_twice_others :
  (simple_parse "a:const:b" = "a::b" /\ simple_parse "a::b" = "a.b") /\
  (simple_parse "x.const..y" = "x...y" /\ simple_parse "x...y" = "xy") /\
  (simple_parse "class class X" = "class X" /\ simple_parse "class X" = "X") /\
  (simple_parse "const typename T" = "typename T" /\ simple_parse "typename T" = "T").
Proof. repeat split; vm_compute; reflexivity. Qed.
